(** * mcp-server-gsc: configuration resolver and OAuth2 credential manager

    A shallow embedding of [src/cli.ts], [src/oauth2-manager.ts] and the
    entry point and tool handlers of [src/index.ts].

    - [Js]      : the few JavaScript notions the code leans on (optional
                  properties, truthiness, [||]).
    - [Path]    : Node's POSIX [path.join] and [path.dirname].
    - [Cli]     : [parseCliOptions], [loadEnvConfig], [mergeConfig],
                  [validateConfig].
    - [Json]    : JSON values, [JSON.stringify (v, null, 2)], [JSON.parse].
    - [Fs]      : the part of the file system the manager touches.
    - [Manager] : [saveTokens], [loadTokens], [getAuthClient].
    - [Variant] : the refresh-token-only manager at the end of
                  [src/index.ts].
    - [Flow]    : [startAuthFlow] as an event-driven transition system.
    - [Main]    : how [main] resolves the command line into what it runs.
    - [Tools]   : the tool list and the tool call handler.

    Strings are byte strings: a JavaScript string is represented by its
    UTF-8 encoding, which is also what the program writes to disk. *)

From Stdlib Require Import ZArith Lia List String Ascii Bool.
From Stdlib Require Import DecimalString DecimalN DecimalPos DecimalFacts.
From stdpp Require Import base option list strings gmap.

Open Scope string_scope.

(* ===================================================================== *)
(** ** JavaScript values as far as the code needs them                    *)
(* ===================================================================== *)

Module Js.

(** An optional property of an object literal: the property may be
    missing from the object, be there with the value [undefined]
    ([process.env.X] of an unset variable), or hold a value.  Object
    spread copies own properties, so the first two differ. *)
Inductive field (A : Type) : Type :=
| Absent
| Undefined
| Val (a : A).
Arguments Absent {A}.
Arguments Undefined {A}.
Arguments Val {A} a.

(** [{...e, ...c}] for one property: [c]'s own property wins, whatever
    its value. *)
Definition spread {A} (e c : field A) : field A :=
  match c with
  | Absent => e
  | _ => c
  end.

(** Truthiness of a string: every string but the empty one. *)
Definition truthy_string (s : string) : bool :=
  negb (s =? "").

(** Truthiness of an optional string property. *)
Definition truthy (f : field string) : bool :=
  match f with
  | Val s => truthy_string s
  | _ => false
  end.

(** [a || b] where [b] is a string: [a] if it is truthy, else [b]. *)
Definition or_else (a : field string) (b : string) : string :=
  match a with
  | Val s => if truthy_string s then s else b
  | _ => b
  end.

End Js.

(* ===================================================================== *)
(** ** Node's [path] module (POSIX flavour)                               *)
(* ===================================================================== *)

Module Path.

Definition slash : ascii := "/"%char.

(** The segments of a path between its slashes: ["/a//b"] gives
    [""; "a"; ""; "b"]. *)
Fixpoint segments (p : string) : list string :=
  match p with
  | EmptyString => [""]
  | String c rest =>
      if Ascii.eqb c slash then "" :: segments rest
      else match segments rest with
           | s :: more => String c s :: more
           | [] => [String c ""]
           end
  end.

(** One step of [normalizeString]: [acc] holds the kept segments, the
    last one first. *)
Definition normalize_step (allowAboveRoot : bool) (acc : list string)
    (seg : string) : list string :=
  if (seg =? "") || (seg =? ".") then acc
  else if seg =? ".." then
    match acc with
    | top :: below =>
        if top =? ".." then (if allowAboveRoot then ".." :: acc else acc)
        else below
    | [] => if allowAboveRoot then [".."] else []
    end
  else seg :: acc.

Definition join_segments (segs : list string) : string :=
  String.concat "/" segs.

Definition normalizeString (p : string) (allowAboveRoot : bool) : string :=
  join_segments (rev (fold_left (normalize_step allowAboveRoot) (segments p) [])).

Definition starts_with_slash (p : string) : bool :=
  match p with
  | String c _ => Ascii.eqb c slash
  | EmptyString => false
  end.

Fixpoint ends_with_slash (p : string) : bool :=
  match p with
  | EmptyString => false
  | String c EmptyString => Ascii.eqb c slash
  | String _ rest => ends_with_slash rest
  end.

(** [path.posix.normalize]. *)
Definition normalize (p : string) : string :=
  if p =? "" then "."
  else
    let isAbsolute := starts_with_slash p in
    let trailingSeparator := ends_with_slash p in
    let q := normalizeString p (negb isAbsolute) in
    if q =? "" then
      (if isAbsolute then "/" else if trailingSeparator then "./" else ".")
    else
      let q' := if trailingSeparator then q ++ "/" else q in
      if isAbsolute then "/" ++ q' else q'.

(** [path.posix.join (a, b)]: empty arguments are skipped, the others
    are glued with a slash and the result is normalized. *)
Definition join (a b : string) : string :=
  if a =? "" then (if b =? "" then "." else normalize b)
  else if b =? "" then normalize a
  else normalize (a ++ "/" ++ b).

(** [path.posix.dirname], on the characters of the path in reverse:
    trailing slashes are skipped, then the last segment; the slash
    found there is where the result ends. *)
Fixpoint drop_slashes (r : list ascii) : list ascii :=
  match r with
  | c :: r' => if Ascii.eqb c slash then drop_slashes r' else r
  | [] => []
  end.

Fixpoint drop_segment (r : list ascii) : list ascii :=
  match r with
  | c :: r' => if Ascii.eqb c slash then r else drop_segment r'
  | [] => []
  end.

Definition dirname (p : string) : string :=
  match list_ascii_of_string p with
  | [] => "."
  | first :: tail =>
      let hasRoot := Ascii.eqb first slash in
      (* the scan runs over indices [length - 1] down to [1] *)
      match drop_segment (drop_slashes (rev tail)) with
      | [] => if hasRoot then "/" else "."
      | _sep :: before =>
          (* [end] is the index of that separator; the result is
             [path.slice (0, end)] *)
          match before with
          | [] => if hasRoot then "//" else string_of_list_ascii [first]
          | _ => string_of_list_ascii (first :: rev before)
          end
      end
  end.

(** *** Vocabulary for the statements about paths *)

(** A path segment without a slash. *)
Fixpoint slash_free (seg : string) : bool :=
  match seg with
  | EmptyString => true
  | String c rest => negb (Ascii.eqb c slash) && slash_free rest
  end.

(** A segment that names a file or a directory: not empty, not [.] or
    [..], no slash. *)
Definition plain_segment (seg : string) : bool :=
  negb (seg =? "") && negb (seg =? ".") && negb (seg =? "..") && slash_free seg.

(** The absolute path with the given segments. *)
Definition absolute (segs : list string) : string :=
  "/" ++ join_segments segs.

End Path.

(* ===================================================================== *)
(** ** [src/cli.ts]                                                        *)
(* ===================================================================== *)

Module Cli.
Import Js.

Inductive Command : Type := setup | server.

Definition Command_eqb (a b : Command) : bool :=
  match a, b with
  | setup, setup | server, server => true
  | _, _ => false
  end.

Record CliOptions : Type := mkCliOptions {
  clientId : field string;
  clientSecret : field string;
  tokenPath : field string;
  command : field Command;
  help : field bool
}.

(** [const options: CliOptions = {}] *)
Definition empty_options : CliOptions :=
  mkCliOptions Absent Absent Absent Absent Absent.

Definition set_clientId (v : string) (o : CliOptions) : CliOptions :=
  mkCliOptions (Val v) (clientSecret o) (tokenPath o) (command o) (help o).
Definition set_clientSecret (v : string) (o : CliOptions) : CliOptions :=
  mkCliOptions (clientId o) (Val v) (tokenPath o) (command o) (help o).
Definition set_tokenPath (v : string) (o : CliOptions) : CliOptions :=
  mkCliOptions (clientId o) (clientSecret o) (Val v) (command o) (help o).
Definition set_command (c : Command) (o : CliOptions) : CliOptions :=
  mkCliOptions (clientId o) (clientSecret o) (tokenPath o) (Val c) (help o).
Definition set_help (b : bool) (o : CliOptions) : CliOptions :=
  mkCliOptions (clientId o) (clientSecret o) (tokenPath o) (command o) (Val b).

(** [!options.command]: both command names are non-empty strings. *)
Definition command_falsy (o : CliOptions) : bool :=
  match command o with
  | Val _ => false
  | _ => true
  end.

(** The [default:] arm of the switch. *)
Definition default_case (arg : string) (o : CliOptions) : CliOptions :=
  if negb (String.prefix "-" arg) && command_falsy o then
    if arg =? "setup" then set_command setup o
    else if arg =? "server" then set_command server o
    else o
  else o.

(** The [for] loop of [parseCliOptions]; the list is [args] from index
    [i] on.  A value-taking flag consumes the next element ([args[++i]])
    when there is one ([i + 1 < args.length]). *)
Fixpoint parse_loop (args : list string) (options : CliOptions) : CliOptions :=
  match args with
  | [] => options
  | arg :: rest =>
      if arg =? "--client-id" then
        match rest with
        | v :: rest' => parse_loop rest' (set_clientId v options)
        | [] => parse_loop rest options
        end
      else if arg =? "--client-secret" then
        match rest with
        | v :: rest' => parse_loop rest' (set_clientSecret v options)
        | [] => parse_loop rest options
        end
      else if arg =? "--token-path" then
        match rest with
        | v :: rest' => parse_loop rest' (set_tokenPath v options)
        | [] => parse_loop rest options
        end
      else if (arg =? "-h") || (arg =? "--help") then
        parse_loop rest (set_help true options)
      else if arg =? "setup" then
        parse_loop rest (set_command setup options)
      else if arg =? "server" then
        parse_loop rest (set_command server options)
      else
        parse_loop rest (default_case arg options)
  end.

Definition parseCliOptions (args : list string) : CliOptions :=
  let options := parse_loop args empty_options in
  if command_falsy options then set_command server options else options.

(** The process environment: a variable is unset or holds a string. *)
Record Env : Type := mkEnv {
  GSC_CLIENT_ID : option string;
  GSC_CLIENT_SECRET : option string;
  GSC_TOKEN_PATH : option string
}.

Definition env_field (v : option string) : field string :=
  match v with
  | Some s => Val s
  | None => Undefined
  end.

Definition loadEnvConfig (e : Env) : CliOptions :=
  mkCliOptions (env_field (GSC_CLIENT_ID e)) (env_field (GSC_CLIENT_SECRET e))
               (env_field (GSC_TOKEN_PATH e)) Absent Absent.

(** [path.join (os.homedir (), '.gsc-oauth-token.json')]; [home] is
    what [os.homedir ()] returns. *)
Definition default_token_path (home : string) : string :=
  Path.join home ".gsc-oauth-token.json".

Definition mergeConfig (home : string) (cliOptions envOptions : CliOptions)
    : CliOptions :=
  {| clientId := spread (clientId envOptions) (clientId cliOptions);
     clientSecret := spread (clientSecret envOptions) (clientSecret cliOptions);
     tokenPath :=
       Val (or_else (tokenPath cliOptions)
              (or_else (tokenPath envOptions) (default_token_path home)));
     command := spread (command envOptions) (command cliOptions);
     help := spread (help envOptions) (help cliOptions) |}.

Definition err_client_id : string :=
  "クライアントIDが必要です。--client-id オプションまたは GSC_CLIENT_ID 環境変数を設定してください。".
Definition err_client_secret : string :=
  "クライアントシークレットが必要です。--client-secret オプションまたは GSC_CLIENT_SECRET 環境変数を設定してください。".
Definition err_token_path : string :=
  "トークンパスが必要です。--token-path オプションまたは GSC_TOKEN_PATH 環境変数を設定してください。".

Record Validation : Type := mkValidation {
  isValid : bool;
  errors : list string
}.

Definition is_command (c : Command) (o : CliOptions) : bool :=
  match command o with
  | Val c' => Command_eqb c' c
  | _ => false
  end.

(** [errors.push] appends. *)
Definition validateConfig (config : CliOptions) : Validation :=
  let errors :=
    if is_command setup config then
      ((if truthy (clientId config) then [] else [err_client_id])
       ++ (if truthy (clientSecret config) then [] else [err_client_secret]))%list
    else if is_command server config then
      (if truthy (tokenPath config) then [] else [err_token_path])
    else [] in
  {| isValid := Nat.eqb (List.length errors) 0; errors := errors |}.

(** *** Vocabulary for the statements about the resolver *)

(** A property holds a non-empty string. *)
Definition given_nonempty (f : field string) : Prop :=
  exists s, f = Val s /\ s <> "".

(** The three flags that take a value. *)
Definition value_flags : list string :=
  ["--client-id"; "--client-secret"; "--token-path"].

(** The option a value-taking flag stands for. *)
Definition flag_option (flag : string) (o : CliOptions) : field string :=
  if flag =? "--client-id" then clientId o
  else if flag =? "--client-secret" then clientSecret o
  else tokenPath o.

Definition is_value_flag (arg : string) : bool :=
  (arg =? "--client-id") || (arg =? "--client-secret") || (arg =? "--token-path").

(** The scan of [args] ends on a value-taking flag that found no value:
    an element appended to [args] would be taken as that value. *)
Fixpoint awaits_value (args : list string) : bool :=
  match args with
  | [] => false
  | arg :: rest =>
      if is_value_flag arg then
        match rest with
        | [] => true
        | _ :: rest' => awaits_value rest'
        end
      else awaits_value rest
  end.

(** The words the [switch] of [parseCliOptions] has a [case] for. *)
Definition keywords : list string :=
  ["--client-id"; "--client-secret"; "--token-path"; "-h"; "--help";
   "setup"; "server"].

(** The command a command word stands for. *)
Definition command_of (word : string) : Command :=
  if word =? "setup" then setup else server.

(** What the scan does with a value-taking flag and its value. *)
Definition set_flag (f v : string) (o : CliOptions) : CliOptions :=
  if f =? "--client-id" then set_clientId v o
  else if f =? "--client-secret" then set_clientSecret v o
  else set_tokenPath v o.

End Cli.

(* ===================================================================== *)
(** ** JSON: values, [JSON.stringify (v, null, 2)] and [JSON.parse]       *)
(* ===================================================================== *)

(** Numbers are the integers: what the program stores as a number is
    [expiry_date], a count of milliseconds.  A number literal with a
    fraction or an exponent denotes a floating point value and lies outside
    this fragment: [parse] has no value for it and answers [None], as it
    does for a text that is not JSON.  [valid] recognizes the JSON texts,
    these literals included, and so tells a [SyntaxError] of [JSON.parse]
    from a value outside the fragment.  Integers are printed in full, as
    JavaScript does below 1e21. *)

Module Json.

#[warnings="-register-all"]
Inductive json : Type :=
| JNull
| JBool (b : bool)
| JNum (n : Z)
| JStr (s : string)
| JArr (items : list json)
| JObj (members : list (string * json)).

Definition code (c : ascii) : N := N_of_ascii c.
Definition chr (n : N) : ascii := ascii_of_N n.

Definition dquote : ascii := "034"%char.
Definition backslash : ascii := "092"%char.
Definition newline : ascii := "010"%char.

Definition str1 (c : ascii) : string := String c EmptyString.

(** *** Printing *)

Definition hex_digit (n : N) : ascii :=
  if (n <? 10)%N then chr (48 + n) else chr (87 + n).

(** [QuoteJSONString], one character at a time. *)
Definition escape_char (c : ascii) : string :=
  let n := code c in
  if (n =? 8)%N then "\b"
  else if (n =? 9)%N then "\t"
  else if (n =? 10)%N then "\n"
  else if (n =? 12)%N then "\f"
  else if (n =? 13)%N then "\r"
  else if (n =? 34)%N then String backslash (str1 dquote)
  else if (n =? 92)%N then String backslash (str1 backslash)
  else if (n <? 32)%N then
    "\u00" ++ String (hex_digit (n / 16)) (str1 (hex_digit (n mod 16)))
  else str1 c.

Fixpoint escape (s : string) : string :=
  match s with
  | EmptyString => EmptyString
  | String c t => escape_char c ++ escape t
  end.

Definition quote (s : string) : string :=
  String dquote (escape s ++ str1 dquote).

Definition number_to_string (n : Z) : string :=
  match n with
  | Z0 => "0"
  | Zpos p => NilEmpty.string_of_uint (Pos.to_uint p)
  | Zneg p => String "-" (NilEmpty.string_of_uint (Pos.to_uint p))
  end.

(** The [gap] of [JSON.stringify (v, null, 2)]. *)
Definition gap : string := "  ".

Section Separated.

(** The elements after the first, each behind a comma and a line break. *)
Context {A : Type} (element : A -> string) (inner : string).

Fixpoint more (l : list A) : string :=
  match l with
  | [] => EmptyString
  | y :: ys => "," ++ String newline inner ++ element y ++ more ys
  end.

End Separated.

(** [SerializeJSONProperty]; [indent] is the current indentation. *)
Fixpoint serialize (indent : string) (v : json) : string :=
  match v with
  | JNull => "null"
  | JBool true => "true"
  | JBool false => "false"
  | JNum n => number_to_string n
  | JStr s => quote s
  | JArr [] => "[]"
  | JArr (x :: xs) =>
      let inner := indent ++ gap in
      "[" ++ String newline inner ++ serialize inner x
      ++ more (serialize inner) inner xs
      ++ String newline indent ++ "]"
  | JObj [] => "{}"
  | JObj (kx :: ms) =>
      let inner := indent ++ gap in
      let member := fun kv : string * json =>
                      quote (fst kv) ++ ": " ++ serialize inner (snd kv) in
      "{" ++ String newline inner ++ member kx
      ++ more member inner ms
      ++ String newline indent ++ "}"
  end.

(** [JSON.stringify (v, null, 2)] *)
Definition stringify (v : json) : string := serialize EmptyString v.

(** *** Parsing *)

Definition is_ws (c : ascii) : bool :=
  let n := code c in
  (n =? 32)%N || (n =? 9)%N || (n =? 10)%N || (n =? 13)%N.

Fixpoint skip_ws (s : string) : string :=
  match s with
  | String c t => if is_ws c then skip_ws t else s
  | EmptyString => EmptyString
  end.

Definition hex_value (c : ascii) : option N :=
  let n := code c in
  if (48 <=? n)%N && (n <=? 57)%N then Some (n - 48)%N
  else if (97 <=? n)%N && (n <=? 102)%N then Some (n - 87)%N
  else if (65 <=? n)%N && (n <=? 70)%N then Some (n - 55)%N
  else None.

Definition hex4 (a b c d : ascii) : option N :=
  match hex_value a, hex_value b, hex_value c, hex_value d with
  | Some x, Some y, Some z, Some w => Some (((x * 16 + y) * 16 + z) * 16 + w)%N
  | _, _, _, _ => None
  end.

(** The UTF-8 bytes of a code point. *)
Definition utf8 (cp : N) : string :=
  if (cp <? 128)%N then str1 (chr cp)
  else if (cp <? 2048)%N then
    String (chr (192 + cp / 64)) (str1 (chr (128 + cp mod 64)))
  else if (cp <? 65536)%N then
    String (chr (224 + cp / 4096))
      (String (chr (128 + (cp / 64) mod 64)) (str1 (chr (128 + cp mod 64))))
  else
    String (chr (240 + cp / 262144))
      (String (chr (128 + (cp / 4096) mod 64))
         (String (chr (128 + (cp / 64) mod 64)) (str1 (chr (128 + cp mod 64))))).

Definition is_high_surrogate (cu : N) : bool :=
  (55296 <=? cu)%N && (cu <=? 56319)%N.
Definition is_low_surrogate (cu : N) : bool :=
  (56320 <=? cu)%N && (cu <=? 57343)%N.
Definition combine_surrogates (hi lo : N) : N :=
  (65536 + (hi - 55296) * 1024 + (lo - 56320))%N.

(** The character a one-letter escape stands for. *)
Definition unescape (e : ascii) : option ascii :=
  let n := code e in
  if (n =? 34)%N then Some dquote
  else if (n =? 92)%N then Some backslash
  else if (n =? 47)%N then Some "/"%char
  else if (n =? 98)%N then Some (chr 8)
  else if (n =? 102)%N then Some (chr 12)
  else if (n =? 110)%N then Some (chr 10)
  else if (n =? 114)%N then Some (chr 13)
  else if (n =? 116)%N then Some (chr 9)
  else None.

Definition prepend (p : string) (r : option (string * string))
    : option (string * string) :=
  match r with
  | Some (s, rest) => Some (p ++ s, rest)
  | None => None
  end.

(** The characters of a string literal after its opening quote, up to
    and including the closing quote: the string denoted and what follows
    the literal. *)
Fixpoint parse_chars (s : string) : option (string * string) :=
  match s with
  | EmptyString => None
  | String c t =>
      if Ascii.eqb c dquote then Some (EmptyString, t)
      else if Ascii.eqb c backslash then
        match t with
        | EmptyString => None
        | String e t1 =>
            if Ascii.eqb e "u" then
              match t1 with
              | String h1 (String h2 (String h3 (String h4 t2))) =>
                  match hex4 h1 h2 h3 h4 with
                  | None => None
                  | Some cu =>
                      let single := prepend (utf8 cu) (parse_chars t2) in
                      if is_high_surrogate cu then
                        match t2 with
                        | String b (String u (String l1 (String l2
                            (String l3 (String l4 t3))))) =>
                            if Ascii.eqb b backslash && Ascii.eqb u "u" then
                              match hex4 l1 l2 l3 l4 with
                              | Some lo =>
                                  if is_low_surrogate lo then
                                    prepend (utf8 (combine_surrogates cu lo))
                                            (parse_chars t3)
                                  else single
                              | None => single
                              end
                            else single
                        | _ => single
                        end
                      else single
                  end
              | _ => None
              end
            else
              match unescape e with
              | Some c' => prepend (str1 c') (parse_chars t1)
              | None => None
              end
        end
      else if (code c <? 32)%N then None
      else prepend (str1 c) (parse_chars t)
  end.

(** The longest run of decimal digits at the head of [s]. *)
Fixpoint digits (s : string) : Decimal.uint * string :=
  match s with
  | EmptyString => (Decimal.Nil, EmptyString)
  | String c t =>
      let (d, r) := digits t in
      match uint_of_char c (Some d) with
      | Some d' => (d', r)
      | None => (Decimal.Nil, s)
      end
  end.

Definition starts_fraction_or_exponent (s : string) : bool :=
  match s with
  | String c _ => Ascii.eqb c "." || Ascii.eqb c "e" || Ascii.eqb c "E"
  | EmptyString => false
  end.

(** An unsigned integer literal: [0], or digits that start with a
    non-zero one. *)
Definition parse_unsigned (s : string) : option (N * string) :=
  match s with
  | String c t =>
      if Ascii.eqb c "0" then
        if starts_fraction_or_exponent t then None else Some (0%N, t)
      else
        match digits s with
        | (Decimal.Nil, _) => None
        | (d, r) =>
            if starts_fraction_or_exponent r then None
            else Some (N.of_uint d, r)
        end
  | EmptyString => None
  end.

Definition parse_number (s : string) : option (Z * string) :=
  match s with
  | String c t =>
      if Ascii.eqb c "-" then
        match parse_unsigned t with
        | Some (n, r) => Some (Z.opp (Z.of_N n), r)
        | None => None
        end
      else
        match parse_unsigned s with
        | Some (n, r) => Some (Z.of_N n, r)
        | None => None
        end
  | EmptyString => None
  end.

(** [s] with the prefix [lit] removed. *)
Fixpoint expect (lit s : string) : option string :=
  match lit with
  | EmptyString => Some s
  | String c lit' =>
      match s with
      | String c' s' => if Ascii.eqb c c' then expect lit' s' else None
      | EmptyString => None
      end
  end.

(** *** Objects as JavaScript keeps them *)

(** A key that is the canonical decimal form of an integer below
    [2^32 - 1] is an array index. *)
Definition array_index (k : string) : option N :=
  match NilEmpty.uint_of_string k with
  | Some d =>
      let n := N.of_uint d in
      if (n <? 4294967295)%N
         && (NilEmpty.string_of_uint (N.to_uint n) =? k)
      then Some n else None
  | None => None
  end.

Fixpoint has_key (k : string) (m : list (string * json)) : bool :=
  match m with
  | [] => false
  | (k', _) :: m' => (k' =? k) || has_key k m'
  end.

Fixpoint replace_value (k : string) (v : json) (m : list (string * json))
    : list (string * json) :=
  match m with
  | [] => []
  | (k', v') :: m' =>
      if k' =? k then (k', v) :: m' else (k', v') :: replace_value k v m'
  end.

(** Array indices are enumerated first, in ascending order. *)
Fixpoint insert_index (i : N) (k : string) (v : json)
    (m : list (string * json)) : list (string * json) :=
  match m with
  | [] => [(k, v)]
  | (k', v') :: m' =>
      match array_index k' with
      | Some j =>
          if (j <? i)%N then (k', v') :: insert_index i k v m'
          else (k, v) :: m
      | None => (k, v) :: m
      end
  end.

(** Defining the property [k] with value [v] on an object whose
    properties are [m], in enumeration order. *)
Definition obj_set (k : string) (v : json) (m : list (string * json))
    : list (string * json) :=
  if has_key k m then replace_value k v m
  else match array_index k with
       | Some i => insert_index i k v m
       | None => (m ++ [(k, v)])%list
       end.

Definition obj_of_members (l : list (string * json)) : list (string * json) :=
  fold_left (fun m kv => obj_set (fst kv) (snd kv) m) l [].

(** *** The parser *)

(** [parse_value fuel s]: the value at the head of [s] and what follows
    it.  [parse_items] and [parse_members] read the rest of an array or
    of an object after a first element.  Every recursive call is made
    after a character has been consumed, so a fuel above the length of
    the input is never used up. *)
Fixpoint parse_value (fuel : nat) (s : string) : option (json * string) :=
  match fuel with
  | O => None
  | S fuel' =>
      match s with
      | EmptyString => None
      | String c t =>
          if Ascii.eqb c "n" then
            match expect "ull" t with
            | Some r => Some (JNull, r)
            | None => None
            end
          else if Ascii.eqb c "t" then
            match expect "rue" t with
            | Some r => Some (JBool true, r)
            | None => None
            end
          else if Ascii.eqb c "f" then
            match expect "alse" t with
            | Some r => Some (JBool false, r)
            | None => None
            end
          else if Ascii.eqb c dquote then
            match parse_chars t with
            | Some (str, r) => Some (JStr str, r)
            | None => None
            end
          else if Ascii.eqb c "[" then
            match skip_ws t with
            | String c1 r1 =>
                if Ascii.eqb c1 "]" then Some (JArr [], r1)
                else
                  match parse_value fuel' (skip_ws t) with
                  | Some (v, r) =>
                      match parse_items fuel' (skip_ws r) with
                      | Some (vs, r') => Some (JArr (v :: vs), r')
                      | None => None
                      end
                  | None => None
                  end
            | EmptyString => None
            end
          else if Ascii.eqb c "{" then
            match skip_ws t with
            | String c1 r1 =>
                if Ascii.eqb c1 "}" then Some (JObj [], r1)
                else
                  match parse_member fuel' (skip_ws t) with
                  | Some (kv, r) =>
                      match parse_members fuel' (skip_ws r) with
                      | Some (kvs, r') =>
                          Some (JObj (obj_of_members (kv :: kvs)), r')
                      | None => None
                      end
                  | None => None
                  end
            | EmptyString => None
            end
          else
            match parse_number s with
            | Some (n, r) => Some (JNum n, r)
            | None => None
            end
      end
  end

with parse_items (fuel : nat) (s : string) : option (list json * string) :=
  match fuel with
  | O => None
  | S fuel' =>
      match s with
      | EmptyString => None
      | String c t =>
          if Ascii.eqb c "]" then Some ([], t)
          else if Ascii.eqb c "," then
            match parse_value fuel' (skip_ws t) with
            | Some (v, r) =>
                match parse_items fuel' (skip_ws r) with
                | Some (vs, r') => Some (v :: vs, r')
                | None => None
                end
            | None => None
            end
          else None
      end
  end

with parse_member (fuel : nat) (s : string)
    : option ((string * json) * string) :=
  match fuel with
  | O => None
  | S fuel' =>
      match s with
      | EmptyString => None
      | String c t =>
          if Ascii.eqb c dquote then
            match parse_chars t with
            | Some (k, r) =>
                match skip_ws r with
                | String c1 r1 =>
                    if Ascii.eqb c1 ":" then
                      match parse_value fuel' (skip_ws r1) with
                      | Some (v, r') => Some ((k, v), r')
                      | None => None
                      end
                    else None
                | EmptyString => None
                end
            | None => None
            end
          else None
      end
  end

with parse_members (fuel : nat) (s : string)
    : option (list (string * json) * string) :=
  match fuel with
  | O => None
  | S fuel' =>
      match s with
      | EmptyString => None
      | String c t =>
          if Ascii.eqb c "}" then Some ([], t)
          else if Ascii.eqb c "," then
            match parse_member fuel' (skip_ws t) with
            | Some (kv, r) =>
                match parse_members fuel' (skip_ws r) with
                | Some (kvs, r') => Some (kv :: kvs, r')
                | None => None
                end
            | None => None
            end
          else None
      end
  end.

(** [JSON.parse]: one value, white space around it, nothing else.
    [None] is the [SyntaxError], or a number literal outside the fragment
    ([valid] below tells which); the fuel given is enough for every input
    ([parse_fuel] below). *)
Definition parse (s : string) : option json :=
  match parse_value (S (S (String.length s))) (skip_ws s) with
  | Some (v, r) => if skip_ws r =? EmptyString then Some v else None
  | None => None
  end.

(** *** The grammar of JSON texts *)

(** One digit or more at the head of [s]: what follows them. *)
Definition scan_digits (s : string) : option string :=
  match digits s with
  | (Decimal.Nil, _) => None
  | (_, r) => Some r
  end.

(** The integer part of a number literal: [0], or digits that start with
    a non-zero one. *)
Definition scan_integer (s : string) : option string :=
  match s with
  | String c t => if Ascii.eqb c "0" then Some t else scan_digits s
  | EmptyString => None
  end.

(** An optional fraction: a point and digits. *)
Definition scan_fraction (s : string) : option string :=
  match s with
  | String c t => if Ascii.eqb c "." then scan_digits t else Some s
  | EmptyString => Some s
  end.

(** An optional exponent: [e] or [E], an optional sign, digits. *)
Definition scan_exponent (s : string) : option string :=
  match s with
  | String c t =>
      if Ascii.eqb c "e" || Ascii.eqb c "E" then
        match t with
        | String sign t' =>
            if Ascii.eqb sign "+" || Ascii.eqb sign "-" then scan_digits t'
            else scan_digits t
        | EmptyString => None
        end
      else Some s
  | EmptyString => Some s
  end.

(** A number literal of JSON: an optional minus, the integer part, an
    optional fraction, an optional exponent. *)
Definition scan_number (s : string) : option string :=
  match s with
  | String c t =>
      match scan_integer (if Ascii.eqb c "-" then t else s) with
      | Some r =>
          match scan_fraction r with
          | Some r' => scan_exponent r'
          | None => None
          end
      | None => None
      end
  | EmptyString => None
  end.

(** [scan_value fuel s]: what follows the value at the head of [s].  The
    scanners follow the parsers above case by case and keep no value;
    they differ in the number literals, which they take in full. *)
Fixpoint scan_value (fuel : nat) (s : string) : option string :=
  match fuel with
  | O => None
  | S fuel' =>
      match s with
      | EmptyString => None
      | String c t =>
          if Ascii.eqb c "n" then expect "ull" t
          else if Ascii.eqb c "t" then expect "rue" t
          else if Ascii.eqb c "f" then expect "alse" t
          else if Ascii.eqb c dquote then
            match parse_chars t with
            | Some (_, r) => Some r
            | None => None
            end
          else if Ascii.eqb c "[" then
            match skip_ws t with
            | String c1 r1 =>
                if Ascii.eqb c1 "]" then Some r1
                else
                  match scan_value fuel' (skip_ws t) with
                  | Some r => scan_items fuel' (skip_ws r)
                  | None => None
                  end
            | EmptyString => None
            end
          else if Ascii.eqb c "{" then
            match skip_ws t with
            | String c1 r1 =>
                if Ascii.eqb c1 "}" then Some r1
                else
                  match scan_member fuel' (skip_ws t) with
                  | Some r => scan_members fuel' (skip_ws r)
                  | None => None
                  end
            | EmptyString => None
            end
          else scan_number s
      end
  end

with scan_items (fuel : nat) (s : string) : option string :=
  match fuel with
  | O => None
  | S fuel' =>
      match s with
      | EmptyString => None
      | String c t =>
          if Ascii.eqb c "]" then Some t
          else if Ascii.eqb c "," then
            match scan_value fuel' (skip_ws t) with
            | Some r => scan_items fuel' (skip_ws r)
            | None => None
            end
          else None
      end
  end

with scan_member (fuel : nat) (s : string) : option string :=
  match fuel with
  | O => None
  | S fuel' =>
      match s with
      | EmptyString => None
      | String c t =>
          if Ascii.eqb c dquote then
            match parse_chars t with
            | Some (_, r) =>
                match skip_ws r with
                | String c1 r1 =>
                    if Ascii.eqb c1 ":" then scan_value fuel' (skip_ws r1)
                    else None
                | EmptyString => None
                end
            | None => None
            end
          else None
      end
  end

with scan_members (fuel : nat) (s : string) : option string :=
  match fuel with
  | O => None
  | S fuel' =>
      match s with
      | EmptyString => None
      | String c t =>
          if Ascii.eqb c "}" then Some t
          else if Ascii.eqb c "," then
            match scan_member fuel' (skip_ws t) with
            | Some r => scan_members fuel' (skip_ws r)
            | None => None
            end
          else None
      end
  end.

(** [s] is a JSON text: one value, white space around it, nothing else.
    These are the texts [JSON.parse] does not answer with a
    [SyntaxError]; the fuel given is enough for every input
    ([valid_fuel] below). *)
Definition valid (s : string) : bool :=
  match scan_value (S (S (String.length s))) (skip_ws s) with
  | Some r => skip_ws r =? EmptyString
  | None => false
  end.

(** *** Reading a parsed value *)

Fixpoint lookup_key (k : string) (m : list (string * json)) : option json :=
  match m with
  | [] => None
  | (k', v) :: m' => if k' =? k then Some v else lookup_key k m'
  end.

(** [v.k] for a value that came out of [JSON.parse]: only objects have
    own properties named by the tokens' fields. *)
Definition property (k : string) (v : json) : option json :=
  match v with
  | JObj m => lookup_key k m
  | _ => None
  end.

(** [ToBoolean] *)
Definition truthy (v : json) : bool :=
  match v with
  | JNull => false
  | JBool b => b
  | JNum n => negb (n =? 0)%Z
  | JStr s => negb (s =? EmptyString)
  | JArr _ | JObj _ => true
  end.

(** *** Vocabulary for the statements about JSON *)

Section All.

Context {A : Type} (P : A -> Prop).

Fixpoint all (l : list A) : Prop :=
  match l with
  | [] => True
  | x :: xs => P x /\ all xs
  end.

End All.

(** The keys of an object as the program builds one: pairwise distinct,
    and none of them an array index. *)
Definition plain_keys (ks : list string) : Prop :=
  NoDup ks /\ all (fun k => array_index k = None) ks.

(** A value whose objects, at every depth, have plain keys. *)
Fixpoint plain (v : json) : Prop :=
  match v with
  | JArr l => all plain l
  | JObj m => plain_keys (map fst m) /\ all (fun kv => plain (snd kv)) m
  | _ => True
  end.

(** *** Vocabulary for the round trip *)

Definition is_digit (c : ascii) : bool :=
  match uint_of_char c (Some Decimal.Nil) with
  | Some _ => true
  | None => false
  end.

(** What may follow a number literal for the literal to end there. *)
Definition ends_number (rest : string) : bool :=
  match rest with
  | String c _ => negb (is_digit c) && negb (starts_fraction_or_exponent rest)
  | EmptyString => true
  end.

(** The fuel a value asks of the parser. *)
Fixpoint size (v : json) : nat :=
  match v with
  | JArr l => S (list_sum (map (fun x => S (size x)) l))
  | JObj m => S (list_sum (map (fun kv => S (S (size (snd kv)))) m))
  | _ => 1
  end.

Fixpoint blank (s : string) : bool :=
  match s with
  | String c t => is_ws c && blank t
  | EmptyString => true
  end.

(** The first character of a serialized value. *)
Definition value_head (s : string) : bool :=
  match s with
  | String c _ =>
      negb (is_ws c) && negb (Ascii.eqb c "]") && negb (Ascii.eqb c "}")
  | EmptyString => false
  end.

Section JsonInduction.

Variable P : json -> Prop.
Hypothesis Hnull : P JNull.
Hypothesis Hbool : forall b, P (JBool b).
Hypothesis Hnum : forall n, P (JNum n).
Hypothesis Hstr : forall s, P (JStr s).
Hypothesis Harr : forall l, all P l -> P (JArr l).
Hypothesis Hobj : forall m, all (fun kv => P (snd kv)) m -> P (JObj m).

Fixpoint json_induction (v : json) : P v :=
  match v with
  | JNull => Hnull
  | JBool b => Hbool b
  | JNum n => Hnum n
  | JStr s => Hstr s
  | JArr l =>
      Harr l ((fix go (l : list json) : all P l :=
                 match l with
                 | [] => I
                 | x :: xs => conj (json_induction x) (go xs)
                 end) l)
  | JObj m =>
      Hobj m ((fix go (m : list (string * json)) : all (fun kv => P (snd kv)) m :=
                 match m with
                 | [] => I
                 | kv :: ms => conj (json_induction (snd kv)) (go ms)
                 end) m)
  end.

End JsonInduction.

(** A value survives printing and parsing, whatever the indentation, the
    text after it and the fuel above its size. *)
Definition round_trips (v : json) : Prop :=
  plain v ->
  forall (indent rest : string) (fuel : nat),
    blank indent = true -> size v <= fuel -> ends_number rest = true ->
    parse_value fuel (serialize indent v ++ rest) = Some (v, rest).

(** *** Vocabulary for the fuel of the parser *)

(** Every parser consumes input. *)
Definition consumes (fuel : nat) : Prop :=
  (forall s v r, parse_value fuel s = Some (v, r) ->
                 String.length r < String.length s)
  /\ (forall s vs r, parse_items fuel s = Some (vs, r) ->
                     String.length r < String.length s)
  /\ (forall s kv r, parse_member fuel s = Some (kv, r) ->
                     String.length r < String.length s)
  /\ (forall s kvs r, parse_members fuel s = Some (kvs, r) ->
                      String.length r < String.length s).

(** Above the length of the input the fuel does not matter. *)
Definition fuel_free (fuel : nat) : Prop :=
  forall (fuel' : nat) (s : string),
    String.length s < fuel -> String.length s < fuel' ->
    parse_value fuel s = parse_value fuel' s
    /\ parse_items fuel s = parse_items fuel' s
    /\ parse_member fuel s = parse_member fuel' s
    /\ parse_members fuel s = parse_members fuel' s.

(** *** Vocabulary for the grammar *)

(** Every scanner consumes input. *)
Definition scan_consumes (fuel : nat) : Prop :=
  (forall s r, scan_value fuel s = Some r -> String.length r < String.length s)
  /\ (forall s r, scan_items fuel s = Some r -> String.length r < String.length s)
  /\ (forall s r, scan_member fuel s = Some r -> String.length r < String.length s)
  /\ (forall s r, scan_members fuel s = Some r -> String.length r < String.length s).

(** Above the length of the input the fuel of the scanners does not
    matter. *)
Definition scan_fuel_free (fuel : nat) : Prop :=
  forall (fuel' : nat) (s : string),
    String.length s < fuel -> String.length s < fuel' ->
    scan_value fuel s = scan_value fuel' s
    /\ scan_items fuel s = scan_items fuel' s
    /\ scan_member fuel s = scan_member fuel' s
    /\ scan_members fuel s = scan_members fuel' s.

(** The scanners accept what the parsers accept, and stop where they
    stop. *)
Definition scan_follows (fuel : nat) : Prop :=
  (forall s v r, parse_value fuel s = Some (v, r) -> scan_value fuel s = Some r)
  /\ (forall s vs r, parse_items fuel s = Some (vs, r) -> scan_items fuel s = Some r)
  /\ (forall s kv r, parse_member fuel s = Some (kv, r) -> scan_member fuel s = Some r)
  /\ (forall s kvs r, parse_members fuel s = Some (kvs, r) -> scan_members fuel s = Some r).

End Json.

(* ===================================================================== *)
(** ** Results and the file system                                        *)
(* ===================================================================== *)

(** The outcome of an operation that may throw, or of an awaited promise
    that may reject. *)
Inductive result (E A : Type) : Type :=
| Ok (a : A)
| Err (e : E).
Arguments Ok {E A} a.
Arguments Err {E A} e.

Module Fs.

(** A path names a regular file, with its content and permission bits, or
    a directory.  Paths are compared as written.  The failures modelled
    are those the tree itself causes; permissions and full disks are not. *)
Inductive node : Type :=
| File (content : string) (mode : N)
| Dir.

Inductive io_error : Type :=
| EEXIST
| EISDIR
| ENOENT
| ERR_INVALID_ARG_TYPE.

(** [fs.existsSync] *)
Definition existsSync (p : string) (d : gmap string node) : bool :=
  match d !! p with
  | Some _ => true
  | None => false
  end.

(** [fsPromises.mkdir (dir, { recursive: true })]: nothing to do when the
    directory is there, an error when a file is in the way. *)
Definition mkdir_recursive (dir : string) (d : gmap string node)
    : result io_error (gmap string node) :=
  match d !! dir with
  | Some Dir => Ok d
  | Some (File _ _) => Err EEXIST
  | None => Ok (<[dir := Dir]> d)
  end.

(** [fsPromises.writeFile (p, content, { mode })]: the mode is used when
    the file is created; an existing file keeps its own. *)
Definition writeFile (p content : string) (mode : N) (d : gmap string node)
    : result io_error (gmap string node) :=
  match d !! p with
  | Some Dir => Err EISDIR
  | Some (File _ m) => Ok (<[p := File content m]> d)
  | None => Ok (<[p := File content mode]> d)
  end.

(** [fsPromises.readFile (p, 'utf8')] *)
Definition readFile (p : string) (d : gmap string node) : result io_error string :=
  match d !! p with
  | Some (File content _) => Ok content
  | Some Dir => Err EISDIR
  | None => Err ENOENT
  end.

End Fs.

(* ===================================================================== *)
(** ** [src/oauth2-manager.ts]: persistence and client acquisition        *)
(* ===================================================================== *)

Module Manager.
Import Json.

Record OAuth2Config : Type := mkOAuth2Config {
  clientId : string;
  clientSecret : string;
  tokenPath : string
}.

(** Why reading the token file failed. *)
Inductive load_failure : Type :=
| ReadError (e : Fs.io_error)
| SyntaxError.

(** The errors that travel through the manager.  [ProviderRejected] is
    what the OAuth2 library rejects with; the others are the [Error]s the
    manager builds, named after the condition each message reports:
    - [TokenStorageWriteFailed]: "トークンの保存に失敗しました: ..."
    - [TokenStorageCorrupt]: "トークンの読み込みに失敗しました: ..."
    - [NotAuthenticated]: "OAuth2トークンが見つかりません。..."
    - [TokenRefreshFailed]: "OAuth2トークンの更新に失敗しました。...エラー: ...",
      which quotes the error caught. *)
Inductive error : Type :=
| ProviderRejected (message : string)
| TokenStorageWriteFailed (e : Fs.io_error)
| TokenStorageCorrupt (c : load_failure)
| NotAuthenticated
| TokenRefreshFailed (caught : error).

(** What a run does to the outside, in order. *)
Inductive effect : Type :=
| Mkdir (dir : string)
| WriteFile (path content : string)
| ReadFile (path : string)
| SetCredentials (tokens : json)
| RefreshAccessToken
| ConsoleLog (line : string).

(** The state a call works on: the disk, the credentials held by
    [this.client], and the effects so far (latest first). *)
Record world : Type := mkWorld {
  disk : gmap string Fs.node;
  credentials : json;
  trace : list effect
}.

(** Computations that read and change the world and may throw. *)
Definition M (A : Type) : Type := world -> result error A * world.

Definition ret {A} (a : A) : M A := fun w => (Ok a, w).

Definition throw {A} (e : error) : M A := fun w => (Err e, w).

Definition bind {A B} (m : M A) (k : A -> M B) : M B :=
  fun w =>
    match m w with
    | (Ok a, w') => k a w'
    | (Err e, w') => (Err e, w')
    end.

(** [try { m } catch (error) { throw handler (error) }] *)
Definition try_catch {A} (m : M A) (handler : error -> error) : M A :=
  fun w =>
    match m w with
    | (Ok a, w') => (Ok a, w')
    | (Err e, w') => (Err (handler e), w')
    end.

Notation "x <- m ;; k" := (bind m (fun x => k))
  (at level 100, m at next level, right associativity).
Notation "m ;;; k" := (bind m (fun _ => k))
  (at level 100, right associativity).

Definition emit (e : effect) : M unit :=
  fun w => (Ok tt, mkWorld (disk w) (credentials w) (e :: trace w)).

(** An operation of [fs] lifted to the world; a failure leaves the disk
    as it is. *)
Definition fs_update (op : gmap string Fs.node -> result Fs.io_error (gmap string Fs.node))
    (wrap : Fs.io_error -> error) : M unit :=
  fun w =>
    match op (disk w) with
    | Ok d' => (Ok tt, mkWorld d' (credentials w) (trace w))
    | Err e => (Err (wrap e), w)
    end.

Definition owner_only : N := 384.  (* 0o600 *)

(** [saveTokens]: the two awaited calls sit in one [try], whose [catch]
    rethrows with the save message. *)
Definition saveTokens (config : OAuth2Config) (tokens : json) : M unit :=
  let tokenDir := Path.dirname (tokenPath config) in
  emit (Mkdir tokenDir) ;;;
  fs_update (Fs.mkdir_recursive tokenDir) TokenStorageWriteFailed ;;;
  emit (WriteFile (tokenPath config) (stringify tokens)) ;;;
  fs_update (Fs.writeFile (tokenPath config) (stringify tokens) owner_only)
            TokenStorageWriteFailed.

(** [loadTokens]: [JNull] is JavaScript's [null]. *)
Definition loadTokens (config : OAuth2Config) : M json :=
  fun w =>
    if negb (Fs.existsSync (tokenPath config) (disk w)) then (Ok JNull, w)
    else
      let w' := mkWorld (disk w) (credentials w)
                        (ReadFile (tokenPath config) :: trace w) in
      match Fs.readFile (tokenPath config) (disk w) with
      | Err e => (Err (TokenStorageCorrupt (ReadError e)), w')
      | Ok tokenData =>
          match parse tokenData with
          | Some v => (Ok v, w')
          | None => (Err (TokenStorageCorrupt SyntaxError), w')
          end
      end.

(** [this.client.setCredentials (tokens)] *)
Definition setCredentials (tokens : json) : M unit :=
  fun w => (Ok tt, mkWorld (disk w) tokens (SetCredentials tokens :: trace w)).

(** [tokens.expiry_date && Date.now () >= tokens.expiry_date] for an
    [expiry_date] of the declared type, a number, or absent, or one of the
    falsy values [null], [false] and the empty string.  The comparison of
    a number with a truthy value of another type goes through JavaScript's
    conversions, which are not modelled: see [expiry_typed]. *)
Definition expired (now : Z) (tokens : json) : bool :=
  match property "expiry_date" tokens with
  | Some (JNum n) => negb (n =? 0)%Z && (n <=? now)%Z
  | _ => false
  end.

(** The [expiry_date] of the record is as [OAuth2Tokens] declares it, or
    is falsy. *)
Definition expiry_typed (tokens : json) : Prop :=
  match property "expiry_date" tokens with
  | Some (JNum _) | None => True
  | Some v => truthy v = false
  end.

Section Client.

(** [this.client.refreshAccessToken ()] is the OAuth2 library's: given the
    credentials the client holds it answers with new credentials, or
    rejects.  The library keeps what it answers as the client's
    credentials. *)
Variable refreshAccessToken : json -> result string json.

Definition refresh : M json :=
  fun w =>
    let w' := mkWorld (disk w) (credentials w) (RefreshAccessToken :: trace w) in
    match refreshAccessToken (credentials w) with
    | Ok fresh => (Ok fresh, mkWorld (disk w') fresh (trace w'))
    | Err message => (Err (ProviderRejected message), w')
    end.

(** [getAuthClient]; [now] is what [Date.now ()] returns.  The handle
    returned is [this.client], whose credentials are in the world. *)
Definition getAuthClient (config : OAuth2Config) (now : Z) : M unit :=
  tokens <- loadTokens config ;;
  if negb (truthy tokens) then throw NotAuthenticated
  else
    setCredentials tokens ;;;
    if expired now tokens then
      try_catch
        (refreshedTokens <- refresh ;;
         saveTokens config refreshedTokens ;;;
         emit (ConsoleLog "OAuth2トークンが更新されました。"))
        TokenRefreshFailed
    else ret tt.

End Client.

(** *** The OAuth2 client of the library *)

(** [this.client] is the [OAuth2Client] of [google-auth-library] that the
    constructor of the manager builds.  Its [refreshAccessToken] is

      const r = await this.refreshToken (this.credentials.refresh_token);
      const tokens = r.tokens;
      tokens.refresh_token = this.credentials.refresh_token;
      this.credentials = tokens;
      return { credentials: this.credentials, res: r.res };

    where [refreshToken] throws "No refresh token is set." for a falsy
    refresh token and otherwise sends the refresh request.  The parameter
    [refreshToken] is that request: it answers with [r.tokens], the object
    made of the provider's refresh response, given by its properties in
    order, or rejects. *)
Module OAuth2Client.

Definition refreshAccessToken
    (refreshToken : json -> result string (list (string * json)))
    (credentials : json) : result string json :=
  match property "refresh_token" credentials with
  | Some refresh_token =>
      if truthy refresh_token then
        match refreshToken refresh_token with
        | Ok tokens => Ok (JObj (obj_set "refresh_token" refresh_token tokens))
        | Err message => Err message
        end
      else Err "No refresh token is set."
  | None => Err "No refresh token is set."
  end.

End OAuth2Client.

(** *** Vocabulary for the statements about the manager *)

(** How often a run called [refreshAccessToken]. *)
Definition refresh_calls (w : world) : nat :=
  List.length (List.filter (fun e => match e with RefreshAccessToken => true | _ => false end)
                      (trace w)).

(** The world of a manager just constructed: the client holds no
    credentials. *)
Definition fresh_world (d : gmap string Fs.node) : world :=
  mkWorld d (JObj []) [].

(** The five fields of [OAuth2Tokens]. *)
Definition token_fields : list string :=
  ["access_token"; "refresh_token"; "scope"; "token_type"; "expiry_date"].

(** Two records are equivalent when they agree on the five fields. *)
Definition equivalent (a b : json) : Prop :=
  forall k, In k token_fields -> property k a = property k b.

(** A valid token record: a value with plain keys whose
    [refresh_token] is a non-empty string; the other properties are
    arbitrary plain values. *)
Definition valid_record (tokens : json) : Prop :=
  plain tokens
  /\ exists rt, property "refresh_token" tokens = Some (JStr rt)
                /\ rt <> EmptyString.

(** The content of the regular file at [p], if there is one. *)
Definition file_content (p : string) (d : gmap string Fs.node) : option string :=
  match d !! p with
  | Some (Fs.File content _) => Some content
  | _ => None
  end.

(** A run from [w] to [w'] has left the disk and the credentials of the
    client as they were and has not called [refreshAccessToken]. *)
Definition unchanged (w w' : world) : Prop :=
  disk w' = disk w /\ credentials w' = credentials w
  /\ refresh_calls w' = refresh_calls w.

(** The world after [loadTokens] and [setCredentials]. *)
Definition installed (config : OAuth2Config) (tokens : json) (w : world) : world :=
  mkWorld (disk w) tokens
          (SetCredentials tokens :: trace (snd (loadTokens config w))).

(** The world in which [saveTokens] starts after a refresh. *)
Definition refreshed (config : OAuth2Config) (tokens fresh : json) (w : world) : world :=
  mkWorld (disk w) fresh (RefreshAccessToken :: trace (installed config tokens w)).

End Manager.

(* ===================================================================== *)
(** ** The refresh-token-only manager at the end of [src/index.ts]        *)
(* ===================================================================== *)

(** [src/index.ts] carries a second copy of the manager, whose
    [saveTokens] writes the refresh token alone, as plain text, and whose
    [loadTokens] returns the trimmed content of the file. *)

Module Variant.
Import Json Manager.

(** [String.prototype.trim] on UTF-8 text: the white space and line
    terminators of JavaScript, by their encodings. *)
Definition space1 (a : ascii) : bool :=
  let x := code a in
  ((9 <=? x)%N && (x <=? 13)%N) || (x =? 32)%N.

(** U+00A0 *)
Definition space2 (a b : ascii) : bool :=
  (code a =? 194)%N && (code b =? 160)%N.

(** U+1680, U+2000 to U+200A, U+2028, U+2029, U+202F, U+205F, U+3000,
    U+FEFF *)
Definition space3 (a b c : ascii) : bool :=
  let x := code a in
  let y := code b in
  let z := code c in
  ((x =? 225)%N && (y =? 154)%N && (z =? 128)%N)
  || ((x =? 226)%N && (y =? 128)%N
      && (((128 <=? z)%N && (z <=? 138)%N)
          || (z =? 168)%N || (z =? 169)%N || (z =? 175)%N))
  || ((x =? 226)%N && (y =? 129)%N && (z =? 159)%N)
  || ((x =? 227)%N && (y =? 128)%N && (z =? 128)%N)
  || ((x =? 239)%N && (y =? 187)%N && (z =? 191)%N).

Fixpoint trim_start (s : list ascii) : list ascii :=
  match s with
  | [] => []
  | a :: t =>
      if space1 a then trim_start t
      else
        match t with
        | b :: t2 =>
            if space2 a b then trim_start t2
            else
              match t2 with
              | c :: t3 => if space3 a b c then trim_start t3 else s
              | [] => s
              end
        | [] => s
        end
  end.

(** The same from the end, on the reversed text. *)
Fixpoint trim_end_reversed (r : list ascii) : list ascii :=
  match r with
  | [] => []
  | c :: t =>
      if space1 c then trim_end_reversed t
      else
        match t with
        | b :: t2 =>
            if space2 b c then trim_end_reversed t2
            else
              match t2 with
              | a :: t3 => if space3 a b c then trim_end_reversed t3 else r
              | [] => r
              end
        | [] => r
        end
  end.

Definition trim (s : string) : string :=
  string_of_list_ascii
    (rev (trim_end_reversed (rev (trim_start (list_ascii_of_string s))))).

(** [saveTokens] of the variant, for a [refresh_token] of the declared
    type; [writeFile] does not take [undefined]. *)
Definition saveTokens (config : OAuth2Config) (tokens : json) : M unit :=
  let tokenDir := Path.dirname (tokenPath config) in
  emit (Mkdir tokenDir) ;;;
  fs_update (Fs.mkdir_recursive tokenDir) TokenStorageWriteFailed ;;;
  match property "refresh_token" tokens with
  | Some (JStr refresh_token) =>
      emit (WriteFile (tokenPath config) refresh_token) ;;;
      fs_update (Fs.writeFile (tokenPath config) refresh_token owner_only)
                TokenStorageWriteFailed
  | _ => throw (TokenStorageWriteFailed Fs.ERR_INVALID_ARG_TYPE)
  end.

(** [loadTokens] of the variant: [null], or the refresh token as a
    string. *)
Definition loadTokens (config : OAuth2Config) : M json :=
  fun w =>
    if negb (Fs.existsSync (tokenPath config) (disk w)) then (Ok JNull, w)
    else
      let w' := mkWorld (disk w) (credentials w)
                        (ReadFile (tokenPath config) :: trace w) in
      match Fs.readFile (tokenPath config) (disk w) with
      | Err e => (Err (TokenStorageCorrupt (ReadError e)), w')
      | Ok refreshToken => (Ok (JStr (trim refreshToken)), w')
      end.

(** [getAuthClient] of the variant: the refresh token alone becomes the
    credentials of the client, and nothing is refreshed here. *)
Definition getAuthClient (config : OAuth2Config) : M unit :=
  refreshToken <- loadTokens config ;;
  if negb (truthy refreshToken) then throw NotAuthenticated
  else setCredentials (JObj [("refresh_token", refreshToken)]).

(** *** Vocabulary for the statements about [trim] *)

(** A visible ASCII character: one byte, no white space. *)
Definition visible (a : ascii) : bool :=
  (33 <=? code a)%N && (code a <=? 126)%N.

(** The text starts and ends with a visible character. *)
Definition visible_ends (s : string) : Prop :=
  (exists a t, s = String a t /\ visible a = true)
  /\ (exists body c, s = body ++ String c "" /\ visible c = true).

End Variant.

(* ===================================================================== *)
(** ** [src/oauth2-manager.ts]: the authorization flow                    *)
(* ===================================================================== *)

(** [startAuthFlow] returns a promise and registers callbacks: the request
    handler of the HTTP server and the server's error handler.  What
    happens afterwards is driven by events, and a request handler that
    awaits gives way to other events.  The flow is therefore a transition
    system: [step] runs the code that one event triggers, up to the next
    [await] or to the end of the handler. *)

Module Flow.
Import Json.

(** [parsedUrl.query.x]: missing, a string, or, when the parameter is
    repeated, the array of its values. *)
Inductive qvalue : Type :=
| QMissing
| QString (s : string)
| QArray (l : list string).

(** What [url.parse (req.url, true)] gives: the path and the query
    parameters in the order they appear. *)
Record ParsedUrl : Type := mkUrl {
  pathname : string;
  query : list (string * string)
}.

Fixpoint values_of (k : string) (q : list (string * string)) : list string :=
  match q with
  | [] => []
  | (k', v) :: q' => if k' =? k then v :: values_of k q' else values_of k q'
  end.

Definition query_get (k : string) (q : list (string * string)) : qvalue :=
  match values_of k q with
  | [] => QMissing
  | [v] => QString v
  | vs => QArray vs
  end.

(** [ToBoolean]: arrays are truthy. *)
Definition q_truthy (v : qvalue) : bool :=
  match v with
  | QMissing => false
  | QString s => negb (s =? EmptyString)
  | QArray _ => true
  end.

(** [`${v}`] *)
Definition q_to_string (v : qvalue) : string :=
  match v with
  | QMissing => "undefined"
  | QString s => s
  | QArray l => String.concat "," l
  end.

(** The errors the flow's promise is rejected with, named after the
    condition each reports:
    - [AuthorizationDenied e]: "認証が拒否されました: e"
    - [MissingAuthorizationCode]: "認証コードが見つかりません"
    - [TokenExchangeFailed]: "トークンの取得に失敗しました: ...", for a
      rejected [getToken] and for a failed [saveTokens] alike
    - [ServerError]: what the handler's outer [catch] caught
    - [ListenerBindFailed]: the server's ['error'] event. *)
Inductive exchange_failure : Type :=
| ExchangeRejected (message : string)
| NotSaved (e : Manager.error).

Inductive flow_error : Type :=
| AuthorizationDenied (provider_error : string)
| MissingAuthorizationCode
| TokenExchangeFailed (c : exchange_failure)
| ServerError (message : string)
| ListenerBindFailed (message : string).

(** The promise [startAuthFlow] returns. *)
Inductive promise : Type :=
| Pending
| Fulfilled
| Rejected (e : flow_error).

(** The server: accepting connections; [close ()] called, connections
    already open still served; gone. *)
Inductive listener : Type :=
| Listening
| Closing
| Closed.

(** Where a handler waits. *)
Inductive stage : Type :=
| AwaitGetToken (code : qvalue)
| AwaitMkdir (tokens : json)
| AwaitWriteFile (tokens : json).

Record state : Type := mkState {
  flow : promise;
  settlements : nat;          (* how often the promise changed state *)
  settle_calls : nat;         (* how often [resolve] or [reject] was called *)
  server : listener;
  disk : gmap string Fs.node;
  waiting : list (nat * stage);   (* handlers at an [await], by request *)
  next_request : nat;
  responses : list (nat * nat)    (* request and status code, latest first *)
}.

Definition initial (d : gmap string Fs.node) : state :=
  mkState Pending 0 0 Listening d [] 0 [].

(** [resolve ()] and [reject (e)]: only the first call settles the
    promise. *)
Definition settle (outcome : promise) (s : state) : state :=
  match flow s with
  | Pending =>
      mkState outcome (S (settlements s)) (S (settle_calls s)) (server s)
              (disk s) (waiting s) (next_request s) (responses s)
  | _ =>
      mkState (flow s) (settlements s) (S (settle_calls s)) (server s)
              (disk s) (waiting s) (next_request s) (responses s)
  end.

Definition resolve : state -> state := settle Fulfilled.
Definition reject (e : flow_error) : state -> state := settle (Rejected e).

(** [server.close ()] *)
Definition server_close (s : state) : state :=
  match server s with
  | Listening =>
      mkState (flow s) (settlements s) (settle_calls s) Closing
              (disk s) (waiting s) (next_request s) (responses s)
  | _ => s
  end.

(** [res.writeHead (status, ...); res.end (...)] *)
Definition respond (id status : nat) (s : state) : state :=
  mkState (flow s) (settlements s) (settle_calls s) (server s)
          (disk s) (waiting s) (next_request s) ((id, status) :: responses s).

Definition await (id : nat) (st : stage) (s : state) : state :=
  mkState (flow s) (settlements s) (settle_calls s) (server s)
          (disk s) ((id, st) :: waiting s) (next_request s) (responses s).

Definition set_disk (d : gmap string Fs.node) (s : state) : state :=
  mkState (flow s) (settlements s) (settle_calls s) (server s)
          d (waiting s) (next_request s) (responses s).

Fixpoint find_waiting (id : nat) (l : list (nat * stage)) : option stage :=
  match l with
  | [] => None
  | (id', st) :: l' => if Nat.eqb id' id then Some st else find_waiting id l'
  end.

Fixpoint remove_waiting (id : nat) (l : list (nat * stage)) : list (nat * stage) :=
  match l with
  | [] => []
  | (id', st) :: l' =>
      if Nat.eqb id' id then remove_waiting id l' else (id', st) :: remove_waiting id l'
  end.

Definition resume (id : nat) (s : state) : state :=
  mkState (flow s) (settlements s) (settle_calls s) (server s)
          (disk s) (remove_waiting id (waiting s)) (next_request s) (responses s).

Definition take_request (s : state) : state :=
  mkState (flow s) (settlements s) (settle_calls s) (server s)
          (disk s) (waiting s) (S (next_request s)) (responses s).

Definition callback_path : string := "/oauth/callback".

(** The request handler up to its first [await], for a request whose URL
    parsed. *)
Definition on_request (id : nat) (u : ParsedUrl) (s : state) : state :=
  if pathname u =? callback_path then
    let code := query_get "code" (query u) in
    let error := query_get "error" (query u) in
    if q_truthy error then
      reject (AuthorizationDenied (q_to_string error))
             (server_close (respond id 400 s))
    else if negb (q_truthy code) then
      reject MissingAuthorizationCode (server_close (respond id 400 s))
    else
      await id (AwaitGetToken code) s
  else
    respond id 404 s.

(** The handler's outer [catch]. *)
Definition on_server_error (id : nat) (message : string) (s : state) : state :=
  reject (ServerError message) (server_close (respond id 500 s)).

(** The inner [catch (tokenError)]. *)
Definition on_token_error (id : nat) (c : exchange_failure) (s : state) : state :=
  reject (TokenExchangeFailed c) (server_close (respond id 500 s)).

(** After [saveTokens] has returned. *)
Definition on_saved (id : nat) (s : state) : state :=
  resolve (server_close (respond id 200 s)).

Section Dispatch.

Variable config : Manager.OAuth2Config.

Inductive event : Type :=
| Request (url : result string ParsedUrl)  (* [Err]: [url.parse] threw *)
| GetTokenSettled (id : nat) (r : result string json)
| MkdirSettled (id : nat)
| WriteFileSettled (id : nat)
| ServerErrorEvent (message : string)          (* [server.on ('error', ...)] *)
| ConnectionsEnded.

Definition step (e : event) (s : state) : state :=
  match e with
  | Request url =>
      match server s with
      | Closed => s
      | _ =>
          let id := next_request s in
          let s := take_request s in
          match url with
          | Ok u => on_request id u s
          | Err message => on_server_error id message s
          end
      end
  | GetTokenSettled id r =>
      match find_waiting id (waiting s) with
      | Some (AwaitGetToken _) =>
          let s := resume id s in
          match r with
          | Ok tokens => await id (AwaitMkdir tokens) s
          | Err message => on_token_error id (ExchangeRejected message) s
          end
      | _ => s
      end
  | MkdirSettled id =>
      match find_waiting id (waiting s) with
      | Some (AwaitMkdir tokens) =>
          let s := resume id s in
          match Fs.mkdir_recursive (Path.dirname (Manager.tokenPath config)) (disk s) with
          | Ok d => await id (AwaitWriteFile tokens) (set_disk d s)
          | Err e => on_token_error id (NotSaved (Manager.TokenStorageWriteFailed e)) s
          end
      | _ => s
      end
  | WriteFileSettled id =>
      match find_waiting id (waiting s) with
      | Some (AwaitWriteFile tokens) =>
          let s := resume id s in
          match Fs.writeFile (Manager.tokenPath config) (stringify tokens)
                             Manager.owner_only (disk s) with
          | Ok d => on_saved id (set_disk d s)
          | Err e => on_token_error id (NotSaved (Manager.TokenStorageWriteFailed e)) s
          end
      | _ => s
      end
  | ServerErrorEvent message =>
      reject (ListenerBindFailed message) s
  | ConnectionsEnded =>
      match server s with
      | Closing =>
          mkState (flow s) (settlements s) (settle_calls s) Closed
                  (disk s) (waiting s) (next_request s) (responses s)
      | _ => s
      end
  end.

(** An execution: the events in the order they are dispatched. *)
Definition run (events : list event) (s : state) : state :=
  fold_left (fun s e => step e s) events s.

End Dispatch.

(** *** Vocabulary for the statements about the flow *)

(** The exchange of some request succeeded. *)
Definition exchange_succeeded (e : event) : bool :=
  match e with
  | GetTokenSettled _ (Ok _) => true
  | _ => false
  end.

(** A response other than "not found" was sent. *)
Definition answered_callback (s : state) : Prop :=
  exists id status, In (id, status) (responses s) /\ status <> 404.

(** The handlers that wait all wait for their exchange. *)
Definition awaits_exchange (st : stage) : bool :=
  match st with
  | AwaitGetToken _ => true
  | _ => false
  end.

Definition exchanges_only (l : list (nat * stage)) : bool :=
  forallb (fun p => awaits_exchange (snd p)) l.

(** The promise is settled at most once, and the count tells whether. *)
Definition settled_once (s : state) : Prop :=
  settlements s <= 1 /\ (flow s = Pending <-> settlements s = 0).

(** What one step can do to promise and responses: nothing but perhaps a
    "not found" response; or a response other than "not found", then
    [server.close ()], then a call that settles; or, for the server's
    error event, a call that settles. *)
Inductive step_kind (s s' : state) : Prop :=
| Quiet :
    flow s' = flow s -> settlements s' = settlements s ->
    (responses s' = responses s
     \/ exists id, responses s' = (id, 404) :: responses s) ->
    step_kind s s'
| Finishing (outcome : promise) (id status : nat) (s0 : state) :
    outcome <> Pending -> status <> 404 ->
    s' = settle outcome (server_close (respond id status s0)) ->
    flow s0 = flow s -> settlements s0 = settlements s ->
    responses s0 = responses s ->
    step_kind s s'
| Failing (outcome : promise) :
    outcome <> Pending -> s' = settle outcome s -> step_kind s s'.

(** Once a response other than "not found" is out, the promise is
    settled. *)
Definition answered_settled (s : state) : Prop :=
  answered_callback s -> flow s <> Pending.

(** The record was the answer of a successful exchange in the
    execution. *)
Definition exchanged (events : list event) (tokens : json) : Prop :=
  exists id, In (GetTokenSettled id (Ok tokens)) events.

(** The requests that were answered, latest first. *)
Definition answered (s : state) : list nat := map fst (responses s).

(** The requests whose handler waits. *)
Definition suspended (s : state) : list nat := map fst (waiting s).

(** The promise was rejected because the listener failed. *)
Definition listener_failed (p : promise) : bool :=
  match p with
  | Rejected (ListenerBindFailed _) => true
  | _ => false
  end.

(** The server has stopped listening only if the promise is settled, and
    the promise is settled by anything but the server's error event only
    if the server has stopped listening. *)
Definition released (s : state) : Prop :=
  (server s <> Listening -> flow s <> Pending)
  /\ (flow s <> Pending -> listener_failed (flow s) = false ->
      server s <> Listening).

(** The status of the response that goes with a rejection. *)
Definition status_of (e : flow_error) : nat :=
  match e with
  | AuthorizationDenied _ | MissingAuthorizationCode => 400
  | _ => 500
  end.

(** The outcome of the promise was told to a client: a fulfilled promise
    goes with a 200 that was sent, a rejected one with a response of the
    status of its error, unless it is the listener that failed. *)
Definition announced (s : state) : Prop :=
  match flow s with
  | Pending => True
  | Fulfilled => exists id, In (id, 200) (responses s)
  | Rejected e =>
      listener_failed (Rejected e) = true
      \/ exists id, In (id, status_of e) (responses s)
  end.

(** The status codes the handler uses. *)
Definition status_known (status : nat) : Prop :=
  status = 200 \/ status = 400 \/ status = 404 \/ status = 500.

(** Every request taken so far is answered, once, or suspended, once,
    and not both. *)
Definition accounted (s : state) : Prop :=
  NoDup (answered s)
  /\ NoDup (suspended s)
  /\ (forall id, In id (suspended s) -> ~ In id (answered s))
  /\ (forall id, id < next_request s <-> In id (answered s) \/ In id (suspended s))
  /\ (forall id status, In (id, status) (responses s) -> status_known status).

Section Shapes.

Variable config : Manager.OAuth2Config.

(** The shapes a step can have: nothing happens; a request elsewhere
    than on the callback path is answered "not found"; a request is
    refused; a request is accepted and its handler waits for the exchange;
    a handler goes on from its exchange, from [mkdir], from [writeFile]; a
    handler fails after its first [await]; the server reports an error;
    the last connection of a closing server ends. *)
Inductive step_shape (e : event) (s : state) : state -> Prop :=
| Same : step_shape e s s
| NotFound :
    server s <> Closed ->
    step_shape e s (respond (next_request s) 404 (take_request s))
| Refused (err : flow_error) (status : nat) :
    server s <> Closed -> listener_failed (Rejected err) = false ->
    status = status_of err ->
    step_shape e s (reject err (server_close
                      (respond (next_request s) status (take_request s))))
| Accepted (code : qvalue) :
    server s <> Closed ->
    step_shape e s (await (next_request s) (AwaitGetToken code) (take_request s))
| Exchanged (id : nat) (code : qvalue) (tokens : json) :
    e = GetTokenSettled id (Ok tokens) ->
    find_waiting id (waiting s) = Some (AwaitGetToken code) ->
    step_shape e s (await id (AwaitMkdir tokens) (resume id s))
| Made (id : nat) (tokens : json) (d : gmap string Fs.node) :
    find_waiting id (waiting s) = Some (AwaitMkdir tokens) ->
    Fs.mkdir_recursive (Path.dirname (Manager.tokenPath config)) (disk s) = Ok d ->
    step_shape e s (await id (AwaitWriteFile tokens) (set_disk d (resume id s)))
| Saved (id : nat) (tokens : json) (d : gmap string Fs.node) :
    find_waiting id (waiting s) = Some (AwaitWriteFile tokens) ->
    Fs.writeFile (Manager.tokenPath config) (stringify tokens)
                 Manager.owner_only (disk s) = Ok d ->
    step_shape e s (resolve (server_close (respond id 200 (set_disk d (resume id s)))))
| Broken (id : nat) (st : stage) (c : exchange_failure) :
    find_waiting id (waiting s) = Some st ->
    step_shape e s (reject (TokenExchangeFailed c)
                      (server_close (respond id 500 (resume id s))))
| ListenerError (message : string) :
    step_shape e s (reject (ListenerBindFailed message) s)
| Ended :
    server s = Closing ->
    step_shape e s (mkState (flow s) (settlements s) (settle_calls s) Closed
                      (disk s) (waiting s) (next_request s) (responses s)).


(** The records that handlers hold, the content of the token file and the
    promise, with respect to the records [P] that came from an exchange:
    handlers past their exchange hold such records; the token file holds
    what it held in [d0] or such a record; and once the promise is
    fulfilled, or a 200 is out, the token file holds such a record. *)
Definition provenance (P : json -> Prop) (d0 : gmap string Fs.node)
    (s : state) : Prop :=
  (forall id t, In (id, AwaitMkdir t) (waiting s)
                \/ In (id, AwaitWriteFile t) (waiting s) -> P t)
  /\ (forall content,
        Manager.file_content (Manager.tokenPath config) (disk s) = Some content ->
        Manager.file_content (Manager.tokenPath config) d0 = Some content
        \/ exists t, P t /\ content = stringify t)
  /\ (flow s = Fulfilled \/ (exists id, In (id, 200) (responses s)) ->
      exists t, P t /\ Manager.file_content (Manager.tokenPath config) (disk s)
                       = Some (stringify t)).

End Shapes.

End Flow.

(* ===================================================================== *)
(** ** [src/index.ts]: [main]                                            *)
(* ===================================================================== *)

Module Main.
Import Js Cli.

(** The argument of [new OAuth2Manager (...)] as [main] builds it.  The
    fields are typed [string]; [config.clientId!] asserts that to the type
    checker only, so the property is handed over as it is. *)
Record OAuth2ConfigArg : Type := mkArg {
  arg_clientId : field string;
  arg_clientSecret : field string;
  arg_tokenPath : field string
}.

(** What [main] goes on to do. *)
Inductive action : Type :=
| ShowHelp                            (* showHelp (); process.exit (0) *)
| ShowErrors (errors : list string)   (* showErrors (...); process.exit (1) *)
| StartAuthFlow (oauth2Config : OAuth2ConfigArg)
| GetAuthClient (oauth2Config : OAuth2ConfigArg)
| Nothing.                            (* neither command *)

(** [if (cliOptions.help)] *)
Definition help_truthy (o : CliOptions) : bool :=
  match help o with
  | Val b => b
  | _ => false
  end.

(** [main] up to the construction of the manager; [argv] is
    [process.argv], [env] the environment, [home] what [os.homedir ()]
    returns. *)
Definition main (argv : list string) (env : Env) (home : string) : action :=
  let args := skipn 2 argv in
  let cliOptions := parseCliOptions args in
  if help_truthy cliOptions then ShowHelp
  else
    let envOptions := loadEnvConfig env in
    let config := mergeConfig home cliOptions envOptions in
    let validation := validateConfig config in
    if negb (isValid validation) then ShowErrors (errors validation)
    else if is_command setup config then
      StartAuthFlow (mkArg (clientId config) (clientSecret config)
                           (tokenPath config))
    else if is_command server config then
      GetAuthClient (mkArg (Val (or_else (clientId config) ""))
                           (Val (or_else (clientSecret config) ""))
                           (tokenPath config))
    else Nothing.

End Main.

(* ===================================================================== *)
(** ** [src/index.ts]: the tool list and the tool call handler           *)
(* ===================================================================== *)

(** The schemas ([./schemas.js]) and the Search Console service
    ([./search-console.js]) are not part of these sources: validation by a
    schema and the calls of the service are parameters of the handler. *)

Module Tools.
Import Json.

Inductive schema : Type :=
| EmptyObject              (* z.object ({}) *)
| SearchAnalyticsSchema
| IndexInspectSchema
| ListSitemapsSchema
| GetSitemapSchema
| SubmitSitemapSchema.

Record tool : Type := mkTool {
  name : string;
  description : string;
  inputSchema : schema       (* zodToJsonSchema (...) of it *)
}.

(** What the handler of [ListToolsRequestSchema] returns. *)
Definition tools : list tool :=
  [mkTool "list_sites" "List all sites in Google Search Console" EmptyObject;
   mkTool "search_analytics"
          "Get search performance data from Google Search Console"
          SearchAnalyticsSchema;
   mkTool "index_inspect"
          "Inspect a URL to see if it is indexed or can be indexed"
          IndexInspectSchema;
   mkTool "list_sitemaps" "List sitemaps for a site in Google Search Console"
          ListSitemapsSchema;
   mkTool "get_sitemap" "Get a sitemap for a site in Google Search Console"
          GetSitemapSchema;
   mkTool "submit_sitemap" "Submit a sitemap for a site in Google Search Console"
          SubmitSitemapSchema].

(** One entry of [ZodError.errors]; the elements of [path] in the text
    [join ('.')] gives them. *)
Record ZodIssue : Type := mkIssue {
  path : list string;
  message : string
}.

(** What is thrown inside the handler. *)
Inductive thrown : Type :=
| JsError (message : string)            (* new Error (message) *)
| ZodError (errors : list ZodIssue)
| Other (what : string).                (* anything else a call rejects with *)

(** A value that may be [undefined]: [None]. *)
Definition opt_truthy (v : option json) : bool :=
  match v with
  | Some j => truthy j
  | None => false
  end.

(** [args.k] of validated arguments, an object. *)
Definition arg (k : string) (args : list (string * json)) : option json :=
  lookup_key k args.

Record Filter : Type := mkFilter {
  dimension : string;
  operator : option json;
  expression : option json
}.

Record SearchRequest : Type := mkSearchRequest {
  startDate : option json;
  endDate : option json;
  dimensions : option json;
  searchType : option json;
  aggregationType : option json;
  rowLimit : option json;
  dimensionFilterGroups : option (list (list Filter))  (* [{ filters }] *)
}.

(** The calls of the service, with their arguments. *)
Inductive api_call : Type :=
| SearchAnalytics (siteUrl : option json) (requestBody : SearchRequest)
| ListSites
| IndexInspect (siteUrl inspectionUrl languageCode : option json)
| ListSitemaps (siteUrl sitemapIndex : option json)
| GetSitemap (siteUrl feedpath : option json)
| SubmitSitemap (siteUrl feedpath : option json).

(** [global.searchConsoleService] once [runServer] has set it: a call
    resolves with a response, of which [data] is kept, or rejects. *)
Definition service : Type := api_call -> result thrown json.

(** [filters.push (...)], four times. *)
Definition search_filters (args : list (string * json)) : list Filter :=
  let filters := [] in
  let filters :=
    if opt_truthy (arg "pageFilter" args) then
      (filters ++ [mkFilter "page" (arg "filterOperator" args)
                            (arg "pageFilter" args)])%list
    else filters in
  let filters :=
    if opt_truthy (arg "queryFilter" args) then
      (filters ++ [mkFilter "query" (arg "filterOperator" args)
                            (arg "queryFilter" args)])%list
    else filters in
  let filters :=
    if opt_truthy (arg "countryFilter" args) then
      (filters ++ [mkFilter "country" (Some (JStr "equals"))
                            (arg "countryFilter" args)])%list
    else filters in
  let filters :=
    if opt_truthy (arg "deviceFilter" args) then
      (filters ++ [mkFilter "device" (Some (JStr "equals"))
                            (arg "deviceFilter" args)])%list
    else filters in
  filters.

Definition search_request (args : list (string * json)) : SearchRequest :=
  let filters := search_filters args in
  {| startDate := arg "startDate" args;
     endDate := arg "endDate" args;
     dimensions := arg "dimensions" args;
     searchType := arg "type" args;
     aggregationType := arg "aggregationType" args;
     rowLimit := arg "rowLimit" args;
     dimensionFilterGroups :=
       if Nat.ltb 0 (List.length filters) then Some [filters] else None |}.

(** [`${e.path.join ('.')}: ${e.message}`] *)
Definition format_issue (e : ZodIssue) : string :=
  String.concat "." (path e) ++ ": " ++ message e.

Definition invalid_arguments (errors : list ZodIssue) : string :=
  "Invalid arguments: " ++ String.concat ", " (map format_issue errors).

(** The [catch] of the handler: a [ZodError] is replaced, anything else is
    thrown again. *)
Definition rethrow (e : thrown) : thrown :=
  match e with
  | ZodError errors => JsError (invalid_arguments errors)
  | _ => e
  end.

Section Handler.

(** [Schema.parse (value)]: the validated arguments, or a [ZodError] with
    its issues. *)
Variable parse_schema : schema -> json -> result (list ZodIssue) (list (string * json)).

Definition validated (s : schema) (arguments : json)
    (call : list (string * json) -> api_call) : result thrown api_call :=
  match parse_schema s arguments with
  | Ok args => Ok (call args)
  | Err errors => Err (ZodError errors)
  end.

(** The body of the [try] up to the call of the service: the service to
    call and the call to make. *)
Definition prepare (searchConsole : option service) (tool_name : string)
    (arguments : option json) : result thrown (service * api_call) :=
  match arguments with
  | None => Err (JsError "Arguments are required")
  | Some a =>
      if negb (truthy a) then Err (JsError "Arguments are required")
      else
        match searchConsole with
        | None => Err (JsError "SearchConsoleService is not initialized")
        | Some svc =>
            let call :=
              if tool_name =? "search_analytics" then
                validated SearchAnalyticsSchema a
                  (fun args => SearchAnalytics (arg "siteUrl" args)
                                 (search_request args))
              else if tool_name =? "list_sites" then Ok ListSites
              else if tool_name =? "index_inspect" then
                validated IndexInspectSchema a
                  (fun args => IndexInspect (arg "siteUrl" args)
                                 (arg "inspectionUrl" args)
                                 (arg "languageCode" args))
              else if tool_name =? "list_sitemaps" then
                validated ListSitemapsSchema a
                  (fun args => ListSitemaps (arg "siteUrl" args)
                                 (arg "sitemapIndex" args))
              else if tool_name =? "get_sitemap" then
                validated GetSitemapSchema a
                  (fun args => GetSitemap (arg "siteUrl" args)
                                 (arg "feedpath" args))
              else if tool_name =? "submit_sitemap" then
                validated SubmitSitemapSchema a
                  (fun args => SubmitSitemap (arg "siteUrl" args)
                                 (arg "feedpath" args))
              else Err (JsError ("Unknown tool: " ++ tool_name)) in
            match call with
            | Ok c => Ok (svc, c)
            | Err e => Err e
            end
        end
  end.

(** The handler of [CallToolRequestSchema]: the [text] of the one content
    item it returns, or what it throws. *)
Definition call_tool (searchConsole : option service) (tool_name : string)
    (arguments : option json) : result thrown string :=
  match prepare searchConsole tool_name arguments with
  | Err e => Err (rethrow e)
  | Ok (svc, c) =>
      match svc c with
      | Ok data => Ok (stringify data)
      | Err e => Err (rethrow e)
      end
  end.

End Handler.

End Tools.

(* ===================================================================== *)
(** ** Concrete inputs for the examples                                  *)
(* ===================================================================== *)

Module Examples.
Import Json Manager.

(** [GSC_CLIENT_ID=abc GSC_TOKEN_PATH=/b] *)
Definition env_b : Cli.Env :=
  {| Cli.GSC_CLIENT_ID := Some "abc"; Cli.GSC_CLIENT_SECRET := None;
     Cli.GSC_TOKEN_PATH := Some "/b" |}.

(** A record as [getToken] hands it over: the provider's answer, with
    [expiry_date] added last. *)
Definition record_setup : json :=
  JObj [("access_token", JStr "at1"); ("refresh_token", JStr "rt1");
        ("scope", JStr "https://www.googleapis.com/auth/webmasters");
        ("token_type", JStr "Bearer"); ("expiry_date", JNum 1626948683456)].

(** The same fields as a refresh leaves them: the provider's answer has
    no refresh token, which is attached at the end. *)
Definition record_refreshed : json :=
  JObj [("access_token", JStr "at1");
        ("scope", JStr "https://www.googleapis.com/auth/webmasters");
        ("token_type", JStr "Bearer"); ("expiry_date", JNum 1626948683456);
        ("refresh_token", JStr "rt1")].

(** The configuration of the end-to-end scenarios. *)
Definition config1 : OAuth2Config := mkOAuth2Config "c1" "s1" "/tmp/t.json".

(** A disk whose only file is the token file, holding [tokens]. *)
Definition disk_with (tokens : json) : gmap string Fs.node :=
  {[ "/tmp/t.json" := Fs.File (stringify tokens) owner_only ]}.

(** A record that expired at the epoch. *)
Definition record_epoch : json :=
  JObj [("access_token", JStr "at1"); ("refresh_token", JStr "rt1");
        ("expiry_date", JNum 0)].

(** A refresh answer that carries no refresh token. *)
Definition answer_without_refresh_token : json :=
  JObj [("access_token", JStr "at2"); ("expiry_date", JNum 1700003600000);
        ("token_type", JStr "Bearer")].

(** The tokens of a refresh response that carries no refresh token, as
    [refreshToken] of the OAuth2 client hands them over. *)
Definition refresh_response : list (string * json) :=
  [("access_token", JStr "at2"); ("expiry_date", JNum 1700003600000);
   ("token_type", JStr "Bearer")].

(** [/oauth/callback?code=abc123] *)
Definition callback_with_code : Flow.ParsedUrl :=
  Flow.mkUrl "/oauth/callback" [("code", "abc123")].

(** [/oauth/callback?error=access_denied] *)
Definition callback_denied : Flow.ParsedUrl :=
  Flow.mkUrl "/oauth/callback" [("error", "access_denied")].

(** [/oauth/callback?error=&code=abc123] *)
Definition callback_empty_error : Flow.ParsedUrl :=
  Flow.mkUrl "/oauth/callback" [("error", ""); ("code", "abc123")].

(** [/oauth/callback] *)
Definition callback_bare : Flow.ParsedUrl :=
  Flow.mkUrl "/oauth/callback" [].

(** [/favicon.ico] *)
Definition favicon : Flow.ParsedUrl :=
  Flow.mkUrl "/favicon.ico" [].

End Examples.

Import Js Examples.

(* ===================================================================== *)
(** * Properties                                                          *)
(* ===================================================================== *)

Section StringFacts.

Lemma append_cons (x : ascii) (a b : string) :
  String x a ++ b = String x (a ++ b).
Proof. reflexivity. Qed.

Lemma append_assoc (a b c : string) : (a ++ b) ++ c = a ++ (b ++ c).
Proof.
  induction a as [|x a IH]; [reflexivity|].
  rewrite !append_cons. now rewrite IH.
Qed.

Lemma length_append (a b : string) :
  String.length (a ++ b) = String.length a + String.length b.
Proof.
  induction a as [|x a IH]; [reflexivity|].
  rewrite append_cons. simpl. now rewrite IH.
Qed.

End StringFacts.

Section PathFacts.
Import Path.

Example dirname_tmp : Path.dirname "/tmp/t.json" = "/tmp".
Proof. reflexivity. Qed.

Example dirname_relative : Path.dirname "t.json" = ".".
Proof. reflexivity. Qed.

Example dirname_root : Path.dirname "/t.json" = "/".
Proof. reflexivity. Qed.

Example dirname_trailing : Path.dirname "/a/b/" = "/a".
Proof. reflexivity. Qed.

Example join_home : Path.join "/home/u" ".gsc-oauth-token.json"
                    = "/home/u/.gsc-oauth-token.json".
Proof. reflexivity. Qed.

Example join_root : Path.join "/" ".gsc-oauth-token.json"
                    = "/.gsc-oauth-token.json".
Proof. reflexivity. Qed.

Example join_dots : Path.join "/home/u/../v/" ".gsc-oauth-token.json"
                    = "/home/v/.gsc-oauth-token.json".
Proof. reflexivity. Qed.

Lemma segments_slash_free (x : string) :
  slash_free x = true -> segments x = [x].
Proof.
  induction x as [|c x IH]; [reflexivity|]. cbn [slash_free segments].
  intros H. apply andb_prop in H as [Hc Hx]. apply negb_true_iff in Hc.
  now rewrite Hc, IH.
Qed.

Lemma segments_app (x rest : string) :
  slash_free x = true ->
  segments (x ++ String slash rest) = x :: segments rest.
Proof.
  induction x as [|c x IH]; [reflexivity|]. cbn [slash_free].
  intros H. apply andb_prop in H as [Hc Hx]. apply negb_true_iff in Hc.
  rewrite append_cons. cbn [segments]. now rewrite Hc, IH.
Qed.

Lemma segments_concat (l : list string) :
  l <> [] -> forallb slash_free l = true ->
  segments (join_segments l) = l.
Proof.
  unfold join_segments.
  induction l as [|x [|y l] IH]; [congruence| |]; intros _ H.
  - cbn [String.concat]. apply segments_slash_free. cbn in H.
    now apply andb_prop in H as [H _].
  - cbn [forallb] in H. apply andb_prop in H as [Hx Hl].
    change (String.concat "/" (x :: y :: l))
      with (x ++ String slash (String.concat "/" (y :: l))).
    rewrite segments_app by exact Hx. f_equal. now apply IH.
Qed.

Lemma normalize_step_plain (b : bool) (acc : list string) (seg : string) :
  plain_segment seg = true -> normalize_step b acc seg = seg :: acc.
Proof.
  unfold plain_segment, normalize_step. intros H.
  apply andb_prop in H as [H _]. apply andb_prop in H as [H H3].
  apply andb_prop in H as [H1 H2].
  apply negb_true_iff in H1, H2, H3. now rewrite H1, H2, H3.
Qed.

Lemma fold_plain (b : bool) (l acc : list string) :
  forallb plain_segment l = true ->
  fold_left (normalize_step b) l acc = (rev l ++ acc)%list.
Proof.
  revert acc. induction l as [|x l IH]; intros acc H; [reflexivity|].
  cbn [forallb] in H. apply andb_prop in H as [Hx Hl].
  cbn [fold_left rev]. rewrite normalize_step_plain by exact Hx.
  rewrite IH by exact Hl. now rewrite <- List.app_assoc.
Qed.

Lemma ends_with_slash_free (f : string) :
  slash_free f = true -> ends_with_slash f = false.
Proof.
  induction f as [|c f IH]; [reflexivity|]. cbn [slash_free ends_with_slash].
  intros H. apply andb_prop in H as [Hc Hf]. apply negb_true_iff in Hc.
  destruct f; [exact Hc | now apply IH].
Qed.

Lemma ends_with_slash_app (p f : string) :
  f <> EmptyString -> ends_with_slash (p ++ f) = ends_with_slash f.
Proof.
  intros Hf. induction p as [|c p IH]; [reflexivity|].
  rewrite append_cons. cbn [ends_with_slash].
  destruct (p ++ f) eqn:E; [|exact IH].
  destruct p; [|discriminate]. now destruct f.
Qed.

Lemma plain_is_slash_free (l : list string) :
  forallb plain_segment l = true -> forallb slash_free l = true.
Proof.
  induction l as [|x l IH]; [reflexivity|]. cbn [forallb]. intros H.
  apply andb_prop in H as [Hx Hl]. rewrite IH by exact Hl.
  unfold plain_segment in Hx. apply andb_prop in Hx as [_ ->]. reflexivity.
Qed.

Lemma join_segments_snoc (l : list string) (f : string) :
  l <> [] ->
  join_segments (l ++ [f]) = join_segments l ++ "/" ++ f.
Proof.
  unfold join_segments.
  induction l as [|x [|y l] IH]; [congruence| |]; intros _.
  - reflexivity.
  - change (String.concat "/" ((x :: y :: l) ++ [f]))
      with (x ++ "/" ++ String.concat "/" ((y :: l) ++ [f])).
    rewrite IH by discriminate.
    change (String.concat "/" (x :: y :: l))
      with (x ++ "/" ++ String.concat "/" (y :: l)).
    now rewrite !append_assoc.
Qed.

(** Joining a file name to a normalized absolute directory puts a slash
    between the two. *)
Lemma join_absolute (segs : list string) (f : string) :
  segs <> [] -> forallb plain_segment segs = true -> plain_segment f = true ->
  join (absolute segs) f = absolute segs ++ "/" ++ f.
Proof.
  intros Hne Hsegs Hf.
  assert (Hfne : f <> EmptyString).
  { intros ->. discriminate. }
  assert (Hfs : slash_free f = true).
  { unfold plain_segment in Hf. now apply andb_prop in Hf as [_ ->]. }
  assert (Hall : forallb plain_segment (segs ++ [f]) = true).
  { rewrite forallb_app, Hsegs. cbn. now rewrite Hf. }
  assert (Hpath : absolute segs ++ "/" ++ f = absolute (segs ++ [f])).
  { unfold absolute. rewrite join_segments_snoc by exact Hne.
    now rewrite !append_assoc. }
  unfold join.
  destruct (String.eqb_spec (absolute segs) "") as [E|_]; [discriminate|].
  destruct (String.eqb_spec f "") as [E|_]; [contradiction|].
  rewrite Hpath. unfold normalize.
  destruct (String.eqb_spec (absolute (segs ++ [f])) "") as [E|_]; [discriminate|].
  change (starts_with_slash (absolute (segs ++ [f]))) with true. cbn [negb].
  assert (Hend : ends_with_slash (absolute (segs ++ [f])) = false).
  { rewrite <- Hpath.
    rewrite <- append_assoc.
    rewrite ends_with_slash_app by exact Hfne.
    now apply ends_with_slash_free. }
  rewrite Hend.
  assert (Hnorm : normalizeString (absolute (segs ++ [f])) false
                  = join_segments (segs ++ [f])).
  { unfold normalizeString, absolute.
    change ("/" ++ ?x) with (String slash x). cbn [segments].
    change (Ascii.eqb slash slash) with true. cbv iota.
    rewrite segments_concat;
      [|now destruct segs | now apply plain_is_slash_free].
    cbn [fold_left]. change (normalize_step false [] "") with (@nil string).
    rewrite fold_plain by exact Hall.
    now rewrite List.app_nil_r, List.rev_involutive. }
  rewrite Hnorm.
  destruct (String.eqb_spec (join_segments (segs ++ [f])) "") as [E|_];
    [|reflexivity].
  exfalso. rewrite join_segments_snoc in E by exact Hne.
  destruct (join_segments segs); discriminate.
Qed.

End PathFacts.

Section JsonStrings.
Import Json.

Lemma parse_chars_escape_char (c : ascii) (t : string) :
  parse_chars (escape_char c ++ t) = prepend (str1 c) (parse_chars t).
Proof.
  destruct c as [[] [] [] [] [] [] [] []]; reflexivity.
Qed.

Lemma parse_chars_escape (s rest : string) :
  parse_chars (escape s ++ String dquote rest) = Some (s, rest).
Proof.
  induction s as [|c s IH]; [reflexivity|].
  cbn [escape]. rewrite append_assoc, parse_chars_escape_char, IH. reflexivity.
Qed.

End JsonStrings.

Section JsonNumbers.
Import Json.

Lemma uint_of_char_not_digit (c : ascii) (d : Decimal.uint) :
  is_digit c = false -> uint_of_char c (Some d) = None.
Proof.
  destruct c as [[] [] [] [] [] [] [] []]; (discriminate || reflexivity).
Qed.

Lemma digits_no_digit (rest : string) :
  ends_number rest = true -> digits rest = (Decimal.Nil, rest).
Proof.
  destruct rest as [|c t]; [reflexivity|].
  intros H. apply andb_prop in H as [H _]. apply negb_true_iff in H.
  cbn [digits]. destruct (digits t) as [d r].
  now rewrite uint_of_char_not_digit.
Qed.

Lemma digits_string_of_uint (d : Decimal.uint) (rest : string) :
  ends_number rest = true ->
  digits (NilEmpty.string_of_uint d ++ rest) = (d, rest).
Proof.
  intros H.
  induction d; cbn [NilEmpty.string_of_uint];
    [now apply digits_no_digit | ..];
    rewrite append_cons; cbn [digits]; rewrite IHd; reflexivity.
Qed.

Lemma nzhead_head (u u0 : Decimal.uint) : Decimal.nzhead u <> Decimal.D0 u0.
Proof. induction u; simpl; congruence. Qed.

(** The decimal form of a positive number starts with a non-zero digit. *)
Lemma to_uint_head (p : positive) :
  match Pos.to_uint p with
  | Decimal.Nil | Decimal.D0 _ => False
  | _ => True
  end.
Proof.
  pose proof (DecimalPos.Unsigned.to_of (Pos.to_uint p)) as H.
  rewrite DecimalPos.Unsigned.of_to in H. cbn [N.to_uint] in H.
  pose proof (DecimalPos.Unsigned.to_uint_nonzero p) as Hz.
  pose proof (DecimalPos.Unsigned.to_uint_nonnil p) as Hn.
  destruct (Pos.to_uint p) as [|u| | | | | | | | |]; try exact I; [congruence|].
  rewrite unorm_D0 in H. unfold Decimal.unorm in H.
  destruct (Decimal.nzhead u) eqn:E; try discriminate.
  - injection H as Hu. subst u. now apply Hz.
  - now apply nzhead_head in E.
Qed.

Lemma ends_number_no_fraction (rest : string) :
  ends_number rest = true -> starts_fraction_or_exponent rest = false.
Proof.
  destruct rest; [reflexivity|].
  intros H. apply andb_prop in H as [_ H]. now apply negb_true_iff in H.
Qed.

Lemma parse_unsigned_positive (p : positive) (rest : string) :
  ends_number rest = true ->
  parse_unsigned (NilEmpty.string_of_uint (Pos.to_uint p) ++ rest)
  = Some (Npos p, rest).
Proof.
  intros H.
  pose proof (to_uint_head p) as Hh.
  pose proof (DecimalPos.Unsigned.of_to p) as Hp.
  pose proof (digits_string_of_uint (Pos.to_uint p) rest H) as Hd.
  pose proof (ends_number_no_fraction rest H) as Hf.
  change (Pos.of_uint (Pos.to_uint p)) with (N.of_uint (Pos.to_uint p)) in Hp.
  destruct (Pos.to_uint p) as [|u|u|u|u|u|u|u|u|u|u]; try contradiction;
    cbn [NilEmpty.string_of_uint] in *; rewrite append_cons in *;
    unfold parse_unsigned;
    match goal with
    | |- context [Ascii.eqb ?a ?b] => change (Ascii.eqb a b) with false
    end;
    cbv iota; rewrite Hd, Hf, Hp; reflexivity.
Qed.

Lemma parse_number_to_string (n : Z) (rest : string) :
  ends_number rest = true ->
  parse_number (number_to_string n ++ rest) = Some (n, rest).
Proof.
  intros H. pose proof (ends_number_no_fraction rest H) as Hf.
  destruct n as [|p|p]; cbn [number_to_string].
  - rewrite append_cons. unfold parse_number, parse_unsigned.
    change (Ascii.eqb "0" "-") with false. change (Ascii.eqb "0" "0") with true.
    cbv iota. change (EmptyString ++ rest) with rest. now rewrite Hf.
  - pose proof (parse_unsigned_positive p rest H) as Hu.
    pose proof (to_uint_head p) as Hh.
    destruct (Pos.to_uint p) as [|u|u|u|u|u|u|u|u|u|u]; try contradiction;
      cbn [NilEmpty.string_of_uint] in *; rewrite append_cons in *;
      unfold parse_number;
      match goal with
      | |- context [Ascii.eqb ?a "-"] => change (Ascii.eqb a "-") with false
      end;
      cbv iota; rewrite Hu; reflexivity.
  - rewrite append_cons. unfold parse_number.
    change (Ascii.eqb "-" "-") with true. cbv iota.
    now rewrite parse_unsigned_positive.
Qed.

End JsonNumbers.

Section JsonRoundTrip.
Import Json.

Lemma skip_ws_blank (i s : string) :
  blank i = true -> skip_ws (i ++ s) = skip_ws s.
Proof.
  induction i as [|c i IH]; [reflexivity|].
  cbn [blank]. intros H. apply andb_prop in H as [Hc Hi].
  rewrite append_cons. cbn [skip_ws]. rewrite Hc. auto.
Qed.

Lemma skip_ws_head (s : string) : value_head s = true -> skip_ws s = s.
Proof.
  destruct s as [|c t]; [discriminate|]. cbn [value_head skip_ws].
  destruct (is_ws c); [discriminate | reflexivity].
Qed.

Lemma blank_inner (i : string) : blank i = true -> blank (i ++ gap) = true.
Proof.
  induction i as [|c i IH]; [reflexivity|].
  cbn [blank]. intros H. apply andb_prop in H as [Hc Hi].
  rewrite append_cons. cbn [blank]. rewrite Hc. auto.
Qed.

Lemma skip_ws_line (i s : string) :
  blank i = true -> skip_ws (String newline i ++ s) = skip_ws s.
Proof.
  intros H. rewrite append_cons. cbn [skip_ws].
  change (is_ws newline) with true. cbv iota. now apply skip_ws_blank.
Qed.

Lemma number_head (n : Z) (rest : string) :
  exists c t, number_to_string n ++ rest = String c t
    /\ value_head (String c t) = true
    /\ Ascii.eqb c "n" = false /\ Ascii.eqb c "t" = false
    /\ Ascii.eqb c "f" = false /\ Ascii.eqb c dquote = false
    /\ Ascii.eqb c "[" = false /\ Ascii.eqb c "{" = false.
Proof.
  destruct n as [|p|p]; cbn [number_to_string].
  - eexists _, _. rewrite append_cons. repeat split.
  - pose proof (to_uint_head p) as Hh.
    destruct (Pos.to_uint p); try contradiction;
      cbn [NilEmpty.string_of_uint]; rewrite append_cons;
      eexists _, _; repeat split.
  - eexists _, _. rewrite append_cons. repeat split.
Qed.

Lemma serialize_head (v : json) (indent rest : string) :
  value_head (serialize indent v ++ rest) = true.
Proof.
  destruct v as [|[]|n|s|[|x xs]|[|kx ms]]; try reflexivity.
  cbn [serialize].
  destruct (number_head n rest) as (c & t & -> & H & _). exact H.
Qed.

Lemma parse_value_open_array (fuel : nat) (t : string) :
  parse_value (S fuel) (String "[" t) =
  match skip_ws t with
  | String c1 r1 =>
      if Ascii.eqb c1 "]" then Some (JArr [], r1)
      else
        match parse_value fuel (skip_ws t) with
        | Some (v, r) =>
            match parse_items fuel (skip_ws r) with
            | Some (vs, r') => Some (JArr (v :: vs), r')
            | None => None
            end
        | None => None
        end
  | EmptyString => None
  end.
Proof. reflexivity. Qed.

Lemma parse_value_open_object (fuel : nat) (t : string) :
  parse_value (S fuel) (String "{" t) =
  match skip_ws t with
  | String c1 r1 =>
      if Ascii.eqb c1 "}" then Some (JObj [], r1)
      else
        match parse_member fuel (skip_ws t) with
        | Some (kv, r) =>
            match parse_members fuel (skip_ws r) with
            | Some (kvs, r') => Some (JObj (obj_of_members (kv :: kvs)), r')
            | None => None
            end
        | None => None
        end
  | EmptyString => None
  end.
Proof. reflexivity. Qed.

Lemma parse_items_comma (fuel : nat) (t : string) :
  parse_items (S fuel) (String "," t) =
  match parse_value fuel (skip_ws t) with
  | Some (v, r) =>
      match parse_items fuel (skip_ws r) with
      | Some (vs, r') => Some (v :: vs, r')
      | None => None
      end
  | None => None
  end.
Proof. reflexivity. Qed.

Lemma parse_members_comma (fuel : nat) (t : string) :
  parse_members (S fuel) (String "," t) =
  match parse_member fuel (skip_ws t) with
  | Some (kv, r) =>
      match parse_members fuel (skip_ws r) with
      | Some (kvs, r') => Some (kv :: kvs, r')
      | None => None
      end
  | None => None
  end.
Proof. reflexivity. Qed.

Lemma parse_member_quoted (fuel : nat) (t : string) :
  parse_member (S fuel) (String dquote t) =
  match parse_chars t with
  | Some (k, r) =>
      match skip_ws r with
      | String c1 r1 =>
          if Ascii.eqb c1 ":" then
            match parse_value fuel (skip_ws r1) with
            | Some (v, r') => Some ((k, v), r')
            | None => None
            end
          else None
      | EmptyString => None
      end
  | None => None
  end.
Proof. reflexivity. Qed.

Lemma ends_number_more {A : Type} (f : A -> string) (inner tail : string)
    (l : list A) :
  ends_number (more f inner l ++ String newline tail) = true.
Proof. destruct l; reflexivity. Qed.

Lemma value_head_not_close (s : string) :
  value_head s = true ->
  exists c t, s = String c t /\ Ascii.eqb c "]" = false /\ Ascii.eqb c "}" = false.
Proof.
  destruct s as [|c t]; [discriminate|]. cbn [value_head]. intros H.
  apply andb_prop in H as [H H2]. apply andb_prop in H as [_ H1].
  apply negb_true_iff in H1, H2. eauto.
Qed.

Lemma parse_items_more (inner indent rest : string) (xs : list json) :
  all round_trips xs -> all plain xs ->
  blank inner = true -> blank indent = true -> 
  forall fuel : nat,
    S (list_sum (map (fun x => S (size x)) xs)) <= fuel ->
    parse_items fuel
      (skip_ws (more (serialize inner) inner xs
                ++ String newline indent ++ String "]" rest))
    = Some (xs, rest).
Proof.
  intros Hrt Hpl Hin Hind.
  induction xs as [|y ys IH]; intros fuel Hfuel.
  - cbn [more]. change (EmptyString ++ ?x) with x.
    rewrite skip_ws_line by exact Hind.
    destruct fuel as [|fuel]; [lia|]. reflexivity.
  - destruct Hrt as [Hy Hys]. destruct Hpl as [Py Pys].
    change (S (S (size y) + list_sum (map (fun x => S (size x)) ys)) <= fuel) in Hfuel.
    destruct fuel as [|fuel]; [lia|].
    cbn [more]. rewrite !append_assoc.
    change ("," ++ ?x) with (String "," x).
    change (skip_ws (String "," ?x)) with (String "," x).
    rewrite parse_items_comma.
    rewrite skip_ws_line by exact Hin.
    rewrite skip_ws_head by apply serialize_head.
    rewrite Hy; [|exact Py|exact Hin|lia|apply ends_number_more].
    rewrite IH; [reflexivity|exact Hys|exact Pys|lia].
Qed.

Lemma quote_append (k x : string) :
  quote k ++ x = String dquote (escape k ++ String dquote x).
Proof.
  unfold quote. rewrite append_cons, append_assoc. reflexivity.
Qed.

Lemma parse_member_serialized (inner k rest : string) (v : json) :
  round_trips v -> plain v -> blank inner = true ->
  forall fuel : nat,
    S (size v) <= fuel -> ends_number rest = true ->
    parse_member fuel (quote k ++ ": " ++ serialize inner v ++ rest)
    = Some ((k, v), rest).
Proof.
  intros Hv Pv Hin fuel Hfuel Hrest.
  destruct fuel as [|fuel]; [lia|].
  rewrite quote_append, parse_member_quoted, parse_chars_escape.
  change (": " ++ ?x) with (String ":" (String " " x)).
  change (skip_ws (String ":" ?x)) with (String ":" x).
  change (Ascii.eqb ":" ":") with true. cbv iota.
  change (skip_ws (String " " ?x)) with (skip_ws x).
  rewrite skip_ws_head by apply serialize_head.
  rewrite Hv; [reflexivity|exact Pv|exact Hin|lia|exact Hrest].
Qed.

Lemma parse_members_more (inner indent rest : string)
    (ms : list (string * json)) :
  all (fun kv => round_trips (snd kv)) ms ->
  all (fun kv => plain (snd kv)) ms ->
  blank inner = true -> blank indent = true ->
  forall fuel : nat,
    S (list_sum (map (fun kv => S (S (size (snd kv)))) ms)) <= fuel ->
    parse_members fuel
      (skip_ws (more (fun kv => quote (fst kv) ++ ": " ++ serialize inner (snd kv))
                     inner ms
                ++ String newline indent ++ String "}" rest))
    = Some (ms, rest).
Proof.
  intros Hrt Hpl Hin Hind.
  induction ms as [|[k y] ms IH]; intros fuel Hfuel.
  - cbn [more]. change (EmptyString ++ ?x) with x.
    rewrite skip_ws_line by exact Hind.
    destruct fuel as [|fuel]; [lia|]. reflexivity.
  - destruct Hrt as [Hy Hys]. destruct Hpl as [Py Pys]. cbn [snd] in Hy, Py.
    change (S (S (S (size y))
               + list_sum (map (fun kv => S (S (size (snd kv)))) ms)) <= fuel)
      in Hfuel.
    destruct fuel as [|fuel]; [lia|].
    cbn [more fst snd]. rewrite !append_assoc.
    change ("," ++ ?x) with (String "," x).
    change (skip_ws (String "," ?x)) with (String "," x).
    rewrite parse_members_comma.
    rewrite skip_ws_line by exact Hin.
    rewrite quote_append.
    change (skip_ws (String dquote ?x)) with (String dquote x).
    rewrite <- quote_append.
    rewrite (parse_member_serialized inner k _ y Hy Py Hin);
      [|lia|apply ends_number_more].
    rewrite IH; [reflexivity|exact Hys|exact Pys|lia].
Qed.

Lemma has_key_false (k : string) (m : list (string * json)) :
  ~ In k (map fst m) -> has_key k m = false.
Proof.
  induction m as [|[k' v] m IH]; [reflexivity|].
  cbn [map fst In has_key]. intros H.
  destruct (String.eqb_spec k' k) as [->|Hne]; [tauto|].
  apply IH. tauto.
Qed.

Lemma obj_set_fresh (k : string) (v : json) (m : list (string * json)) :
  ~ In k (map fst m) -> array_index k = None ->
  obj_set k v m = (m ++ [(k, v)])%list.
Proof.
  intros Hk Hi. unfold obj_set. now rewrite has_key_false, Hi.
Qed.

Lemma all_app {A : Type} (P : A -> Prop) (l1 l2 : list A) :
  all P (l1 ++ l2)%list <-> all P l1 /\ all P l2.
Proof.
  induction l1 as [|x l1 IH]; cbn [all app]; [tauto|]. rewrite IH. tauto.
Qed.

Lemma obj_of_members_plain (l acc : list (string * json)) :
  plain_keys (map fst (acc ++ l)%list) ->
  fold_left (fun m kv => obj_set (fst kv) (snd kv) m) l acc = (acc ++ l)%list.
Proof.
  revert acc. induction l as [|[k v] l IH]; intros acc H.
  - now rewrite List.app_nil_r.
  - cbn [fold_left fst snd].
    assert (Hfresh : ~ In k (map fst acc) /\ array_index k = None).
    { destruct H as [Hnd Hidx]. rewrite map_app in Hnd, Hidx. cbn [map fst] in *.
      apply NoDup_app in Hnd as (_ & Hdisj & _).
      apply all_app in Hidx as [_ [Hk _]].
      split; [|exact Hk].
      intros Hin%list_elem_of_In. apply (Hdisj _ Hin). constructor. }
    destruct Hfresh as [Hk Hi]. rewrite obj_set_fresh by assumption.
    rewrite IH; [now rewrite <- List.app_assoc|].
    now rewrite <- List.app_assoc.
Qed.

Lemma parse_value_serialize (v : json) : round_trips v.
Proof.
  induction v as [|b|n|s|l IH|m IH] using json_induction;
    intros Pv indent rest fuel Hind Hfuel Hrest;
    (destruct fuel as [|fuel]; [cbn [size] in Hfuel; lia|]).
  - reflexivity.
  - destruct b; reflexivity.
  - cbn [serialize].
    destruct (number_head n rest) as (c & t & E & _ & H1 & H2 & H3 & H4 & H5 & H6).
    rewrite E. cbn [parse_value]. rewrite H1, H2, H3, H4, H5, H6.
    rewrite <- E. now rewrite parse_number_to_string.
  - cbn [serialize]. rewrite quote_append.
    cbn [parse_value].
    change (Ascii.eqb dquote "n") with false.
    change (Ascii.eqb dquote "t") with false.
    change (Ascii.eqb dquote "f") with false.
    change (Ascii.eqb dquote dquote) with true. cbv iota.
    now rewrite parse_chars_escape.
  - destruct l as [|x xs]; [reflexivity|].
    destruct IH as [Hx Hxs]. destruct Pv as [Px Pxs].
    change (S (S (size x) + list_sum (map (fun x => S (size x)) xs)) <= S fuel)
      in Hfuel.
    pose proof (blank_inner indent Hind) as Hin.
    cbn [serialize]. cbv zeta. rewrite !append_assoc.
    change ("[" ++ ?x) with (String "[" x).
    rewrite parse_value_open_array.
    rewrite skip_ws_line by exact Hin.
    rewrite skip_ws_head by apply serialize_head.
    destruct (value_head_not_close _ (serialize_head x (indent ++ gap)
                (more (serialize (indent ++ gap)) (indent ++ gap) xs
                 ++ String newline indent ++ "]" ++ rest)))
      as (c & t & E & Hc & _).
    rewrite E, Hc, <- E.
    rewrite Hx; [|exact Px|exact Hin|lia|apply ends_number_more].
    change ("]" ++ rest) with (String "]" rest).
    rewrite parse_items_more; [reflexivity|exact Hxs|exact Pxs|exact Hin|exact Hind|lia].
  - destruct m as [|[k x] ms]; [reflexivity|].
    destruct IH as [Hx Hxs]. destruct Pv as [Hkeys [Px Pxs]].
    cbn [snd] in Hx, Px.
    change (S (S (S (size x))
               + list_sum (map (fun kv => S (S (size (snd kv)))) ms)) <= S fuel)
      in Hfuel.
    pose proof (blank_inner indent Hind) as Hin.
    cbn [serialize]. cbv zeta. cbn [fst snd]. rewrite !append_assoc.
    change ("{" ++ ?x) with (String "{" x).
    rewrite parse_value_open_object.
    rewrite skip_ws_line by exact Hin.
    rewrite quote_append.
    change (skip_ws (String dquote ?x)) with (String dquote x).
    change (Ascii.eqb dquote "}") with false. cbv iota.
    rewrite <- quote_append.
    rewrite (parse_member_serialized (indent ++ gap) k _ x Hx Px Hin);
      [|lia|apply ends_number_more].
    change ("}" ++ rest) with (String "}" rest).
    rewrite parse_members_more; [|exact Hxs|exact Pxs|exact Hin|exact Hind|lia].
    unfold obj_of_members. rewrite (obj_of_members_plain _ []); [reflexivity|].
    exact Hkeys.
Qed.

Lemma length_more {A : Type} (f : A -> string) (g : A -> nat) (inner : string)
    (l : list A) :
  all (fun x => g x <= String.length (f x)) l ->
  list_sum (map (fun x => S (g x)) l) <= String.length (more f inner l).
Proof.
  induction l as [|x l IH]; [cbn; lia|].
  intros [Hx Hl]. cbn [more].
  change (list_sum (map (fun x => S (g x)) (x :: l)))
    with (S (g x) + list_sum (map (fun x => S (g x)) l)).
  rewrite !length_append. cbn [String.length]. specialize (IH Hl). lia.
Qed.

Lemma size_le_length (v : json) :
  forall indent : string, size v <= String.length (serialize indent v).
Proof.
  induction v as [|b|n|s|l IH|m IH] using json_induction; intros indent.
  - cbn. lia.
  - destruct b; cbn; lia.
  - cbn [size serialize]. destruct (number_head n EmptyString) as (c & t & E & _).
    assert (E' : number_to_string n = String c t).
    { rewrite <- E. clear. induction (number_to_string n) as [|a s IH];
        [reflexivity|]. rewrite append_cons. now rewrite <- IH. }
    rewrite E'. cbn. lia.
  - cbn. lia.
  - destruct l as [|x xs]; [cbn; lia|]. destruct IH as [Hx Hxs].
    change (size (JArr (x :: xs)))
      with (S (S (size x) + list_sum (map (fun x => S (size x)) xs))).
    cbn [serialize]. cbv zeta. rewrite !length_append. cbn [String.length].
    pose proof (length_more (serialize (indent ++ gap)) size (indent ++ gap) xs) as Hm.
    specialize (Hx (indent ++ gap)).
    assert (all (fun x => size x <= String.length (serialize (indent ++ gap) x)) xs).
    { clear -Hxs. induction xs; [exact I|]. destruct Hxs. split; auto. }
    specialize (Hm H). lia.
  - destruct m as [|[k x] ms]; [cbn; lia|]. destruct IH as [Hx Hxs]. cbn [snd] in Hx.
    change (size (JObj ((k, x) :: ms)))
      with (S (S (S (size x))
               + list_sum (map (fun kv => S (S (size (snd kv)))) ms))).
    cbn [serialize]. cbv zeta. cbn [fst snd]. rewrite !length_append.
    cbn [String.length].
    pose proof (length_more
                  (fun kv => quote (fst kv) ++ ": " ++ serialize (indent ++ gap) (snd kv))
                  (fun kv => S (size (snd kv))) (indent ++ gap) ms) as Hm.
    specialize (Hx (indent ++ gap)).
    assert (all (fun kv => S (size (snd kv))
                   <= String.length (quote (fst kv) ++ ": "
                                     ++ serialize (indent ++ gap) (snd kv))) ms).
    { clear -Hxs. induction ms as [|kv ms IH]; [exact I|]. destruct Hxs as [H1 H2].
      split; [|auto]. rewrite !length_append. cbn [String.length].
      specialize (H1 (indent ++ gap)). unfold quote. cbn [String.length]. lia. }
    specialize (Hm H). lia.
Qed.

(** [JSON.parse (JSON.stringify (v, null, 2))] is [v]. *)
Lemma parse_stringify (v : json) : plain v -> parse (stringify v) = Some v.
Proof.
  intros Pv. unfold parse, stringify.
  pose proof (serialize_head v EmptyString EmptyString) as Hh.
  assert (E : forall s : string, s ++ EmptyString = s).
  { induction s as [|a s IH]; [reflexivity|]. rewrite append_cons. now rewrite IH. }
  rewrite E in Hh. rewrite skip_ws_head by exact Hh.
  rewrite <- (E (serialize EmptyString v)) at 2.
  rewrite parse_value_serialize; [reflexivity|exact Pv|reflexivity| |reflexivity].
  pose proof (size_le_length v EmptyString). lia.
Qed.

End JsonRoundTrip.

Section JsonFuel.
Import Json.

Lemma skip_ws_length (s : string) :
  String.length (skip_ws s) <= String.length s.
Proof.
  induction s as [|c s IH]; [reflexivity|]. cbn [skip_ws].
  destruct (is_ws c); cbn [String.length]; lia.
Qed.

Lemma expect_length (lit s r : string) :
  expect lit s = Some r -> String.length r <= String.length s.
Proof.
  revert s. induction lit as [|c lit IH]; intros s.
  - intros [= ->]. lia.
  - destruct s as [|c' s']; [discriminate|]. cbn [expect String.length].
    destruct (Ascii.eqb c c'); [|discriminate]. intros H. apply IH in H. lia.
Qed.

Lemma prepend_some (p k r : string) (x : option (string * string)) :
  prepend p x = Some (k, r) -> exists k', x = Some (k', r).
Proof. destruct x as [[k' r']|]; [intros [= _ ->]; eauto | discriminate]. Qed.

Lemma parse_chars_length (n : nat) :
  forall s k r,
    String.length s <= n -> parse_chars s = Some (k, r) ->
    String.length r < String.length s.
Proof.
  induction n as [|n IH]; intros s k r Hn.
  - destruct s; [discriminate | cbn in Hn; lia].
  - destruct s as [|c t]; [discriminate|]. cbn [parse_chars String.length] in *.
    assert (Hrec : forall t' p, String.length t' <= String.length t ->
              prepend p (parse_chars t') = Some (k, r) ->
              String.length r < S (String.length t)).
    { intros t' p Ht H. apply prepend_some in H as (k' & H).
      apply IH in H; lia. }
    destruct (Ascii.eqb c dquote); [intros [= _ ->]; lia|].
    destruct (Ascii.eqb c backslash).
    + destruct t as [|e t1]; [discriminate|]. cbn [String.length] in *.
      destruct (Ascii.eqb e "u").
      * destruct t1 as [|h1 [|h2 [|h3 [|h4 t2]]]]; try discriminate.
        cbn [String.length] in *.
        destruct (hex4 h1 h2 h3 h4) as [cu|]; [|discriminate].
        assert (Hsingle : prepend (utf8 cu) (parse_chars t2) = Some (k, r) ->
                  String.length r < S (S (S (S (S (S (String.length t2))))))).
        { intros H. apply prepend_some in H as (k' & H). apply IH in H; lia. }
        destruct (is_high_surrogate cu); [|exact Hsingle].
        destruct t2 as [|b [|u [|l1 [|l2 [|l3 [|l4 t3]]]]]]; try exact Hsingle.
        destruct (Ascii.eqb b backslash && Ascii.eqb u "u"); [|exact Hsingle].
        destruct (hex4 l1 l2 l3 l4) as [lo|]; [|exact Hsingle].
        destruct (is_low_surrogate lo); [|exact Hsingle].
        intros H. apply prepend_some in H as (k' & H).
        cbn [String.length] in *. apply IH in H; lia.
      * destruct (unescape e); [|discriminate].
        intros H. apply prepend_some in H as (k' & H). apply IH in H; lia.
    + destruct (code c <? 32)%N; [discriminate|].
      intros H. apply prepend_some in H as (k' & H). apply IH in H; lia.
Qed.

Lemma digits_length (s : string) :
  String.length (snd (digits s)) <= String.length s
  /\ (fst (digits s) <> Decimal.Nil ->
      String.length (snd (digits s)) < String.length s).
Proof.
  induction s as [|c s [IH1 IH2]]; [cbn; split; [lia | congruence]|].
  cbn [digits]. destruct (digits s) as [d r]. cbn [fst snd] in *.
  destruct (uint_of_char c (Some d)) as [d'|]; cbn [fst snd String.length].
  - split; [lia|]. intros _. lia.
  - split; [lia | congruence].
Qed.

Lemma parse_unsigned_length (s r : string) (n : N) :
  parse_unsigned s = Some (n, r) -> String.length r < String.length s.
Proof.
  unfold parse_unsigned. destruct s as [|c t]; [discriminate|].
  destruct (Ascii.eqb c "0").
  - destruct (starts_fraction_or_exponent t); [discriminate|].
    intros [= _ ->]. cbn. lia.
  - pose proof (digits_length (String c t)) as [_ H].
    destruct (digits (String c t)) as [d r']. cbn [fst snd] in H.
    destruct d; try discriminate;
      (destruct (starts_fraction_or_exponent r'); [discriminate|];
       intros [= _ ->]; apply H; discriminate).
Qed.

Lemma parse_number_length (s r : string) (n : Z) :
  parse_number s = Some (n, r) -> String.length r < String.length s.
Proof.
  unfold parse_number. destruct s as [|c t]; [discriminate|].
  destruct (Ascii.eqb c "-").
  - destruct (parse_unsigned t) as [[m r']|] eqn:E; [|discriminate].
    intros [= _ ->]. apply parse_unsigned_length in E. cbn. lia.
  - destruct (parse_unsigned (String c t)) as [[m r']|] eqn:E; [|discriminate].
    intros [= _ ->]. now apply parse_unsigned_length in E.
Qed.

Lemma parsers_consume (fuel : nat) : consumes fuel.
Proof.
  induction fuel as [|fuel (IHv & IHi & IHm & IHms)].
  { repeat split; intros; discriminate. }
  repeat split.
  - intros [|c t] v r; [discriminate|]. cbn [parse_value String.length].
    pose proof (skip_ws_length t) as Hws.
    destruct (Ascii.eqb c "n").
    { destruct (expect "ull" t) eqn:E; [|discriminate]. intros [= _ <-].
      apply expect_length in E. lia. }
    destruct (Ascii.eqb c "t").
    { destruct (expect "rue" t) eqn:E; [|discriminate]. intros [= _ <-].
      apply expect_length in E. lia. }
    destruct (Ascii.eqb c "f").
    { destruct (expect "alse" t) eqn:E; [|discriminate]. intros [= _ <-].
      apply expect_length in E. lia. }
    destruct (Ascii.eqb c dquote).
    { destruct (parse_chars t) as [[str r']|] eqn:E; [|discriminate].
      intros [= _ <-]. apply (parse_chars_length _ _ _ _ (Nat.le_refl _)) in E. lia. }
    destruct (Ascii.eqb c "[").
    { destruct (skip_ws t) as [|c1 r1] eqn:Et; [discriminate|].
      cbn [String.length] in Hws.
      destruct (Ascii.eqb c1 "]"); [intros [= _ <-]; lia|].
      destruct (parse_value fuel (String c1 r1)) as [[v0 r0]|] eqn:E0; [|discriminate].
      destruct (parse_items fuel (skip_ws r0)) as [[vs r']|] eqn:E1; [|discriminate].
      intros [= _ <-]. apply IHv in E0. apply IHi in E1.
      pose proof (skip_ws_length r0). cbn [String.length] in E0. lia. }
    destruct (Ascii.eqb c "{").
    { destruct (skip_ws t) as [|c1 r1] eqn:Et; [discriminate|].
      cbn [String.length] in Hws.
      destruct (Ascii.eqb c1 "}"); [intros [= _ <-]; lia|].
      destruct (parse_member fuel (String c1 r1)) as [[kv r0]|] eqn:E0; [|discriminate].
      destruct (parse_members fuel (skip_ws r0)) as [[kvs r']|] eqn:E1; [|discriminate].
      intros [= _ <-]. apply IHm in E0. apply IHms in E1.
      pose proof (skip_ws_length r0). cbn [String.length] in E0. lia. }
    destruct (parse_number (String c t)) as [[n r']|] eqn:E; [|discriminate].
    intros [= _ <-]. now apply parse_number_length in E.
  - intros [|c t] vs r; [discriminate|]. cbn [parse_items String.length].
    pose proof (skip_ws_length t) as Hws.
    destruct (Ascii.eqb c "]"); [intros [= _ <-]; lia|].
    destruct (Ascii.eqb c ","); [|discriminate].
    destruct (parse_value fuel (skip_ws t)) as [[v0 r0]|] eqn:E0; [|discriminate].
    destruct (parse_items fuel (skip_ws r0)) as [[vs' r']|] eqn:E1; [|discriminate].
    intros [= _ <-]. apply IHv in E0. apply IHi in E1.
    pose proof (skip_ws_length r0). lia.
  - intros [|c t] kv r; [discriminate|]. cbn [parse_member String.length].
    destruct (Ascii.eqb c dquote); [|discriminate].
    destruct (parse_chars t) as [[k r0]|] eqn:E; [|discriminate].
    apply (parse_chars_length _ _ _ _ (Nat.le_refl _)) in E.
    pose proof (skip_ws_length r0) as Hws.
    destruct (skip_ws r0) as [|c1 r1]; [discriminate|]. cbn [String.length] in Hws.
    destruct (Ascii.eqb c1 ":"); [|discriminate].
    destruct (parse_value fuel (skip_ws r1)) as [[v0 r']|] eqn:E0; [|discriminate].
    intros [= _ <-]. apply IHv in E0. pose proof (skip_ws_length r1). lia.
  - intros [|c t] kvs r; [discriminate|]. cbn [parse_members String.length].
    pose proof (skip_ws_length t) as Hws.
    destruct (Ascii.eqb c "}"); [intros [= _ <-]; lia|].
    destruct (Ascii.eqb c ","); [|discriminate].
    destruct (parse_member fuel (skip_ws t)) as [[kv0 r0]|] eqn:E0; [|discriminate].
    destruct (parse_members fuel (skip_ws r0)) as [[kvs' r']|] eqn:E1; [|discriminate].
    intros [= _ <-]. apply IHm in E0. apply IHms in E1.
    pose proof (skip_ws_length r0). lia.
Qed.

Lemma parsers_fuel_free (fuel : nat) : fuel_free fuel.
Proof.
  induction fuel as [|f1 IH]; intros fuel' s H1 H2; [lia|].
  destruct fuel' as [|f2]; [lia|].
  destruct s as [|c t]; [repeat split|].
  cbn [String.length] in H1, H2.
  pose proof (skip_ws_length t) as Hws.
  destruct (parsers_consume f2) as (Cv & Ci & Cm & Cms).
  assert (IHv : forall s', String.length s' <= String.length t ->
                  parse_value f1 s' = parse_value f2 s').
  { intros s' Hs'. apply IH; lia. }
  assert (IHi : forall s', String.length s' <= String.length t ->
                  parse_items f1 s' = parse_items f2 s').
  { intros s' Hs'. apply IH; lia. }
  assert (IHm : forall s', String.length s' <= String.length t ->
                  parse_member f1 s' = parse_member f2 s').
  { intros s' Hs'. apply IH; lia. }
  assert (IHms : forall s', String.length s' <= String.length t ->
                   parse_members f1 s' = parse_members f2 s').
  { intros s' Hs'. apply IH; lia. }
  repeat split.
  - cbn [parse_value].
    repeat (match goal with
            | |- (if ?b then _ else _) = (if ?b then _ else _) =>
                destruct b; [try reflexivity|]
            end).
    + destruct (skip_ws t) as [|c1 r1] eqn:Et; [reflexivity|].
      destruct (Ascii.eqb c1 "]"); [reflexivity|].
      rewrite IHv by exact Hws.
      destruct (parse_value f2 (String c1 r1)) as [[v0 r0]|] eqn:E0; [|reflexivity].
      apply Cv in E0. pose proof (skip_ws_length r0).
      rewrite IHi by lia. reflexivity.
    + destruct (skip_ws t) as [|c1 r1] eqn:Et; [reflexivity|].
      destruct (Ascii.eqb c1 "}"); [reflexivity|].
      rewrite IHm by exact Hws.
      destruct (parse_member f2 (String c1 r1)) as [[kv0 r0]|] eqn:E0; [|reflexivity].
      apply Cm in E0. pose proof (skip_ws_length r0).
      rewrite IHms by lia. reflexivity.
    + reflexivity.
  - cbn [parse_items].
    destruct (Ascii.eqb c "]"); [reflexivity|].
    destruct (Ascii.eqb c ","); [|reflexivity].
    rewrite IHv by exact Hws.
    destruct (parse_value f2 (skip_ws t)) as [[v0 r0]|] eqn:E0; [|reflexivity].
    apply Cv in E0. pose proof (skip_ws_length r0).
    rewrite IHi by lia. reflexivity.
  - cbn [parse_member].
    destruct (Ascii.eqb c dquote); [|reflexivity].
    destruct (parse_chars t) as [[k r0]|] eqn:E; [|reflexivity].
    apply (parse_chars_length _ _ _ _ (Nat.le_refl _)) in E.
    pose proof (skip_ws_length r0) as Hr0.
    destruct (skip_ws r0) as [|c1 r1]; [reflexivity|]. cbn [String.length] in Hr0.
    destruct (Ascii.eqb c1 ":"); [|reflexivity].
    pose proof (skip_ws_length r1).
    rewrite IHv by lia. reflexivity.
  - cbn [parse_members].
    destruct (Ascii.eqb c "}"); [reflexivity|].
    destruct (Ascii.eqb c ","); [|reflexivity].
    rewrite IHm by exact Hws.
    destruct (parse_member f2 (skip_ws t)) as [[kv0 r0]|] eqn:E0; [|reflexivity].
    apply Cm in E0. pose proof (skip_ws_length r0).
    rewrite IHms by lia. reflexivity.
Qed.

(** [parse] does not depend on its fuel: with more, the answer is the
    same, failure included. *)
Lemma parse_fuel (s : string) (fuel : nat) :
  String.length s < fuel ->
  parse s = match parse_value fuel (skip_ws s) with
            | Some (v, r) => if skip_ws r =? EmptyString then Some v else None
            | None => None
            end.
Proof.
  intros H. unfold parse. pose proof (skip_ws_length s).
  now rewrite (proj1 (parsers_fuel_free (S (S (String.length s))) fuel
                        (skip_ws s) ltac:(lia) ltac:(lia))).
Qed.

End JsonFuel.

Section JsonGrammar.
Import Json.

Lemma scan_digits_length (s r : string) :
  scan_digits s = Some r -> String.length r < String.length s.
Proof.
  unfold scan_digits. pose proof (digits_length s) as [_ H].
  destruct (digits s) as [d r']. cbn [fst snd] in H.
  destruct d; try discriminate; intros [= <-]; apply H; discriminate.
Qed.

Lemma scan_integer_length (s r : string) :
  scan_integer s = Some r -> String.length r < String.length s.
Proof.
  destruct s as [|c t]; [discriminate|]. cbn [scan_integer].
  destruct (Ascii.eqb c "0"); [intros [= <-]; cbn; lia|].
  apply scan_digits_length.
Qed.

Lemma scan_fraction_length (s r : string) :
  scan_fraction s = Some r -> String.length r <= String.length s.
Proof.
  destruct s as [|c t]; [intros [= <-]; lia|]. cbn [scan_fraction].
  destruct (Ascii.eqb c "."); [|intros [= <-]; lia].
  intros H. apply scan_digits_length in H. cbn. lia.
Qed.

Lemma scan_exponent_length (s r : string) :
  scan_exponent s = Some r -> String.length r <= String.length s.
Proof.
  destruct s as [|c t]; [intros [= <-]; lia|]. cbn [scan_exponent].
  destruct (Ascii.eqb c "e" || Ascii.eqb c "E"); [|intros [= <-]; lia].
  destruct t as [|sign t']; [discriminate|].
  destruct (Ascii.eqb sign "+" || Ascii.eqb sign "-");
    intros H; apply scan_digits_length in H; cbn in *; lia.
Qed.

Lemma scan_number_length (s r : string) :
  scan_number s = Some r -> String.length r < String.length s.
Proof.
  destruct s as [|c t]; [discriminate|]. cbn [scan_number].
  destruct (scan_integer _) as [r1|] eqn:E1; [|discriminate].
  destruct (scan_fraction r1) as [r2|] eqn:E2; [|discriminate].
  intros E3. apply scan_integer_length in E1. apply scan_fraction_length in E2.
  apply scan_exponent_length in E3.
  destruct (Ascii.eqb c "-"); cbn [String.length] in *; lia.
Qed.

Lemma scanners_consume (fuel : nat) : scan_consumes fuel.
Proof.
  induction fuel as [|fuel (IHv & IHi & IHm & IHms)].
  { repeat split; intros; discriminate. }
  repeat split.
  - intros [|c t] r; [discriminate|]. cbn [scan_value String.length].
    pose proof (skip_ws_length t) as Hws.
    destruct (Ascii.eqb c "n").
    { intros E. apply expect_length in E. lia. }
    destruct (Ascii.eqb c "t").
    { intros E. apply expect_length in E. lia. }
    destruct (Ascii.eqb c "f").
    { intros E. apply expect_length in E. lia. }
    destruct (Ascii.eqb c dquote).
    { destruct (parse_chars t) as [[str r']|] eqn:E; [|discriminate].
      intros [= <-]. apply (parse_chars_length _ _ _ _ (Nat.le_refl _)) in E. lia. }
    destruct (Ascii.eqb c "[").
    { destruct (skip_ws t) as [|c1 r1] eqn:Et; [discriminate|].
      cbn [String.length] in Hws.
      destruct (Ascii.eqb c1 "]"); [intros [= <-]; lia|].
      destruct (scan_value fuel (String c1 r1)) as [r0|] eqn:E0; [|discriminate].
      intros E1. apply IHv in E0. apply IHi in E1.
      pose proof (skip_ws_length r0). cbn [String.length] in E0. lia. }
    destruct (Ascii.eqb c "{").
    { destruct (skip_ws t) as [|c1 r1] eqn:Et; [discriminate|].
      cbn [String.length] in Hws.
      destruct (Ascii.eqb c1 "}"); [intros [= <-]; lia|].
      destruct (scan_member fuel (String c1 r1)) as [r0|] eqn:E0; [|discriminate].
      intros E1. apply IHm in E0. apply IHms in E1.
      pose proof (skip_ws_length r0). cbn [String.length] in E0. lia. }
    intros E. now apply scan_number_length in E.
  - intros [|c t] r; [discriminate|]. cbn [scan_items String.length].
    pose proof (skip_ws_length t) as Hws.
    destruct (Ascii.eqb c "]"); [intros [= <-]; lia|].
    destruct (Ascii.eqb c ","); [|discriminate].
    destruct (scan_value fuel (skip_ws t)) as [r0|] eqn:E0; [|discriminate].
    intros E1. apply IHv in E0. apply IHi in E1.
    pose proof (skip_ws_length r0). lia.
  - intros [|c t] r; [discriminate|]. cbn [scan_member String.length].
    destruct (Ascii.eqb c dquote); [|discriminate].
    destruct (parse_chars t) as [[k r0]|] eqn:E; [|discriminate].
    apply (parse_chars_length _ _ _ _ (Nat.le_refl _)) in E.
    pose proof (skip_ws_length r0) as Hws.
    destruct (skip_ws r0) as [|c1 r1]; [discriminate|]. cbn [String.length] in Hws.
    destruct (Ascii.eqb c1 ":"); [|discriminate].
    intros E0. apply IHv in E0. pose proof (skip_ws_length r1). lia.
  - intros [|c t] r; [discriminate|]. cbn [scan_members String.length].
    pose proof (skip_ws_length t) as Hws.
    destruct (Ascii.eqb c "}"); [intros [= <-]; lia|].
    destruct (Ascii.eqb c ","); [|discriminate].
    destruct (scan_member fuel (skip_ws t)) as [r0|] eqn:E0; [|discriminate].
    intros E1. apply IHm in E0. apply IHms in E1.
    pose proof (skip_ws_length r0). lia.
Qed.

Lemma scanners_fuel_free (fuel : nat) : scan_fuel_free fuel.
Proof.
  induction fuel as [|f1 IH]; intros fuel' s H1 H2; [lia|].
  destruct fuel' as [|f2]; [lia|].
  destruct s as [|c t]; [repeat split|].
  cbn [String.length] in H1, H2.
  pose proof (skip_ws_length t) as Hws.
  destruct (scanners_consume f2) as (Cv & Ci & Cm & Cms).
  assert (IHv : forall s', String.length s' <= String.length t ->
                  scan_value f1 s' = scan_value f2 s').
  { intros s' Hs'. apply IH; lia. }
  assert (IHi : forall s', String.length s' <= String.length t ->
                  scan_items f1 s' = scan_items f2 s').
  { intros s' Hs'. apply IH; lia. }
  assert (IHm : forall s', String.length s' <= String.length t ->
                  scan_member f1 s' = scan_member f2 s').
  { intros s' Hs'. apply IH; lia. }
  assert (IHms : forall s', String.length s' <= String.length t ->
                   scan_members f1 s' = scan_members f2 s').
  { intros s' Hs'. apply IH; lia. }
  repeat split.
  - cbn [scan_value].
    repeat (match goal with
            | |- (if ?b then _ else _) = (if ?b then _ else _) =>
                destruct b; [try reflexivity|]
            end).
    + destruct (skip_ws t) as [|c1 r1] eqn:Et; [reflexivity|].
      destruct (Ascii.eqb c1 "]"); [reflexivity|].
      rewrite IHv by exact Hws.
      destruct (scan_value f2 (String c1 r1)) as [r0|] eqn:E0; [|reflexivity].
      apply Cv in E0. pose proof (skip_ws_length r0).
      rewrite IHi by lia. reflexivity.
    + destruct (skip_ws t) as [|c1 r1] eqn:Et; [reflexivity|].
      destruct (Ascii.eqb c1 "}"); [reflexivity|].
      rewrite IHm by exact Hws.
      destruct (scan_member f2 (String c1 r1)) as [r0|] eqn:E0; [|reflexivity].
      apply Cm in E0. pose proof (skip_ws_length r0).
      rewrite IHms by lia. reflexivity.
    + reflexivity.
  - cbn [scan_items].
    destruct (Ascii.eqb c "]"); [reflexivity|].
    destruct (Ascii.eqb c ","); [|reflexivity].
    rewrite IHv by exact Hws.
    destruct (scan_value f2 (skip_ws t)) as [r0|] eqn:E0; [|reflexivity].
    apply Cv in E0. pose proof (skip_ws_length r0).
    rewrite IHi by lia. reflexivity.
  - cbn [scan_member].
    destruct (Ascii.eqb c dquote); [|reflexivity].
    destruct (parse_chars t) as [[k r0]|] eqn:E; [|reflexivity].
    apply (parse_chars_length _ _ _ _ (Nat.le_refl _)) in E.
    pose proof (skip_ws_length r0) as Hr0.
    destruct (skip_ws r0) as [|c1 r1]; [reflexivity|]. cbn [String.length] in Hr0.
    destruct (Ascii.eqb c1 ":"); [|reflexivity].
    pose proof (skip_ws_length r1).
    rewrite IHv by lia. reflexivity.
  - cbn [scan_members].
    destruct (Ascii.eqb c "}"); [reflexivity|].
    destruct (Ascii.eqb c ","); [|reflexivity].
    rewrite IHm by exact Hws.
    destruct (scan_member f2 (skip_ws t)) as [r0|] eqn:E0; [|reflexivity].
    apply Cm in E0. pose proof (skip_ws_length r0).
    rewrite IHms by lia. reflexivity.
Qed.

(** [valid] does not depend on its fuel. *)
Lemma valid_fuel (s : string) (fuel : nat) :
  String.length s < fuel ->
  valid s = match scan_value fuel (skip_ws s) with
            | Some r => skip_ws r =? EmptyString
            | None => false
            end.
Proof.
  intros H. unfold valid. pose proof (skip_ws_length s).
  now rewrite (proj1 (scanners_fuel_free (S (S (String.length s))) fuel
                        (skip_ws s) ltac:(lia) ltac:(lia))).
Qed.

Lemma scan_fraction_none (r : string) :
  starts_fraction_or_exponent r = false ->
  scan_fraction r = Some r /\ scan_exponent r = Some r.
Proof.
  destruct r as [|c t]; [now split|]. cbn [starts_fraction_or_exponent].
  intros H. apply orb_false_iff in H as [H He2].
  apply orb_false_iff in H as [Hp He1].
  cbn [scan_fraction scan_exponent]. now rewrite Hp, He1, He2.
Qed.

Lemma parse_unsigned_scan (s r : string) (n : N) :
  parse_unsigned s = Some (n, r) ->
  scan_integer s = Some r /\ starts_fraction_or_exponent r = false.
Proof.
  unfold parse_unsigned, scan_integer, scan_digits.
  destruct s as [|c t]; [discriminate|].
  destruct (Ascii.eqb c "0").
  - destruct (starts_fraction_or_exponent t) eqn:E; [discriminate|].
    now intros [= _ <-].
  - destruct (digits (String c t)) as [d r'].
    destruct d; try discriminate;
      (destruct (starts_fraction_or_exponent r') eqn:E; [discriminate|];
       now intros [= _ <-]).
Qed.

Lemma parse_number_scan (s r : string) (n : Z) :
  parse_number s = Some (n, r) -> scan_number s = Some r.
Proof.
  unfold parse_number, scan_number. destruct s as [|c t]; [discriminate|].
  destruct (Ascii.eqb c "-").
  - destruct (parse_unsigned t) as [[m r']|] eqn:E; [|discriminate].
    intros [= _ <-]. apply parse_unsigned_scan in E as [-> E].
    apply scan_fraction_none in E as [-> ->]. reflexivity.
  - destruct (parse_unsigned (String c t)) as [[m r']|] eqn:E; [|discriminate].
    intros [= _ <-]. apply parse_unsigned_scan in E as [-> E].
    apply scan_fraction_none in E as [-> ->]. reflexivity.
Qed.

Lemma scanners_follow (fuel : nat) : scan_follows fuel.
Proof.
  induction fuel as [|fuel (IHv & IHi & IHm & IHms)].
  { repeat split; intros; discriminate. }
  repeat split.
  - intros [|c t] v r; [discriminate|]. cbn [parse_value scan_value].
    destruct (Ascii.eqb c "n").
    { destruct (expect "ull" t); [|discriminate]. now intros [= _ <-]. }
    destruct (Ascii.eqb c "t").
    { destruct (expect "rue" t); [|discriminate]. now intros [= _ <-]. }
    destruct (Ascii.eqb c "f").
    { destruct (expect "alse" t); [|discriminate]. now intros [= _ <-]. }
    destruct (Ascii.eqb c dquote).
    { destruct (parse_chars t) as [[str r']|]; [|discriminate]. now intros [= _ <-]. }
    destruct (Ascii.eqb c "[").
    { destruct (skip_ws t) as [|c1 r1]; [discriminate|].
      destruct (Ascii.eqb c1 "]"); [now intros [= _ <-]|].
      destruct (parse_value fuel (String c1 r1)) as [[v0 r0]|] eqn:E0; [|discriminate].
      destruct (parse_items fuel (skip_ws r0)) as [[vs r']|] eqn:E1; [|discriminate].
      intros [= _ <-]. apply IHv in E0. apply IHi in E1. now rewrite E0. }
    destruct (Ascii.eqb c "{").
    { destruct (skip_ws t) as [|c1 r1]; [discriminate|].
      destruct (Ascii.eqb c1 "}"); [now intros [= _ <-]|].
      destruct (parse_member fuel (String c1 r1)) as [[kv r0]|] eqn:E0; [|discriminate].
      destruct (parse_members fuel (skip_ws r0)) as [[kvs r']|] eqn:E1; [|discriminate].
      intros [= _ <-]. apply IHm in E0. apply IHms in E1. now rewrite E0. }
    destruct (parse_number (String c t)) as [[n r']|] eqn:E; [|discriminate].
    intros [= _ <-]. now apply parse_number_scan in E.
  - intros [|c t] vs r; [discriminate|]. cbn [parse_items scan_items].
    destruct (Ascii.eqb c "]"); [now intros [= _ <-]|].
    destruct (Ascii.eqb c ","); [|discriminate].
    destruct (parse_value fuel (skip_ws t)) as [[v0 r0]|] eqn:E0; [|discriminate].
    destruct (parse_items fuel (skip_ws r0)) as [[vs' r']|] eqn:E1; [|discriminate].
    intros [= _ <-]. apply IHv in E0. apply IHi in E1. now rewrite E0.
  - intros [|c t] kv r; [discriminate|]. cbn [parse_member scan_member].
    destruct (Ascii.eqb c dquote); [|discriminate].
    destruct (parse_chars t) as [[k r0]|]; [|discriminate].
    destruct (skip_ws r0) as [|c1 r1]; [discriminate|].
    destruct (Ascii.eqb c1 ":"); [|discriminate].
    destruct (parse_value fuel (skip_ws r1)) as [[v0 r']|] eqn:E0; [|discriminate].
    intros [= _ <-]. now apply IHv in E0.
  - intros [|c t] kvs r; [discriminate|]. cbn [parse_members scan_members].
    destruct (Ascii.eqb c "}"); [now intros [= _ <-]|].
    destruct (Ascii.eqb c ","); [|discriminate].
    destruct (parse_member fuel (skip_ws t)) as [[kv0 r0]|] eqn:E0; [|discriminate].
    destruct (parse_members fuel (skip_ws r0)) as [[kvs' r']|] eqn:E1; [|discriminate].
    intros [= _ <-]. apply IHm in E0. apply IHms in E1. now rewrite E0.
Qed.

(** What [parse] reads is a JSON text; a text that is not one makes
    [parse] fail. *)
Lemma parse_valid (s : string) (v : json) : parse s = Some v -> valid s = true.
Proof.
  unfold parse, valid.
  destruct (parse_value _ (skip_ws s)) as [[v' r]|] eqn:E; [|discriminate].
  apply (proj1 (scanners_follow _)) in E. rewrite E.
  now destruct (skip_ws r =? EmptyString).
Qed.

Lemma invalid_parse (s : string) : valid s = false -> parse s = None.
Proof.
  intros H. destruct (parse s) as [v|] eqn:E; [|reflexivity].
  apply parse_valid in E. congruence.
Qed.

(** The number literals [parse] leaves aside are JSON all the same. *)
Lemma valid_beyond_parse :
  valid "[1.6e12, 0.5, -2E+3]" = true
  /\ parse "[1.6e12, 0.5, -2E+3]" = None
  /\ valid "0.0" = true /\ valid "-1.25E-3" = true
  /\ valid "01" = false /\ valid "1." = false /\ valid ".5" = false
  /\ valid "1e" = false /\ valid "+1" = false /\ valid "-" = false
  /\ valid "{oops" = false /\ valid "" = false /\ valid "[1,]" = false.
Proof. repeat split. Qed.

End JsonGrammar.

Section ManagerFacts.
Import Json Manager.

Ltac split_match H :=
  repeat match type of H with
         | context [match ?x with _ => _ end] => destruct x eqn:?; try discriminate H
         | context [if ?x then _ else _] => destruct x eqn:?; try discriminate H
         end.


Lemma expect_prefix (lit s r : string) : expect lit s = Some r -> s = lit ++ r.
Proof.
  revert s. induction lit as [|c lit IH]; intros s H.
  - injection H as ->. reflexivity.
  - destruct s as [|c' s']; [discriminate|]. cbn [expect] in H.
    destruct (Ascii.eqb_spec c c') as [->|]; [|discriminate].
    rewrite append_cons. f_equal. auto.
Qed.

Lemma parse_value_null (fuel : nat) (s r : string) :
  parse_value fuel s = Some (JNull, r) -> s = "null" ++ r.
Proof.
  destruct fuel as [|fuel]; [discriminate|].
  destruct s as [|c t]; [discriminate|]. cbn [parse_value].
  destruct (Ascii.eqb_spec c "n") as [->|_].
  { destruct (expect "ull" t) as [r'|] eqn:E; [|discriminate].
    intros [= ->]. apply expect_prefix in E. now subst t. }
  intros H. split_match H.
Qed.

(** [JSON.parse] answers [null] for the literal [null] alone, white space
    around it allowed. *)
Lemma parse_null (s : string) :
  parse s = Some JNull <->
  exists r, skip_ws s = "null" ++ r /\ skip_ws r = EmptyString.
Proof.
  unfold parse. split.
  - destruct (parse_value _ (skip_ws s)) as [[v r]|] eqn:E; [|discriminate].
    destruct (String.eqb_spec (skip_ws r) EmptyString) as [Hr|]; [|discriminate].
    intros [= ->]. apply parse_value_null in E. eauto.
  - intros (r & -> & Hr).
    change (parse_value (S (S (String.length s))) ("null" ++ r)) with (Some (JNull, r)).
    cbv iota beta. now rewrite Hr.
Qed.

Lemma loadTokens_disk (config : OAuth2Config) (w : world) :
  disk (snd (loadTokens config w)) = disk w
  /\ credentials (snd (loadTokens config w)) = credentials w
  /\ refresh_calls (snd (loadTokens config w)) = refresh_calls w.
Proof.
  unfold loadTokens.
  destruct (negb (Fs.existsSync (tokenPath config) (disk w))); [auto|].
  destruct (Fs.readFile (tokenPath config) (disk w)) as [data|e]; [|auto].
  destruct (parse data); auto.
Qed.

(** C4 as stated fails: a token file that holds the JSON text [null]
    exists, parses, and makes [loadTokens] return [null], the result of a
    missing file. *)
Lemma loadTokens_null_file :
  let config := mkOAuth2Config "c1" "s1" "/tmp/t.json" in
  let d : gmap string Fs.node := {[ "/tmp/t.json" := Fs.File "null" owner_only ]} in
  Fs.existsSync (tokenPath config) d = true
  /\ parse "null" = Some JNull
  /\ fst (loadTokens config (fresh_world d)) = Ok JNull
  /\ fst (loadTokens config (fresh_world ∅)) = Ok JNull.
Proof. repeat split. Qed.

(** C4, amended.  [loadTokens] returns [null] when no file exists at the
    token path, and otherwise only when the file holds the JSON literal
    [null]; when the file exists and cannot be read, or its content is not
    a JSON text, so that [JSON.parse] throws, [loadTokens] fails with
    [TokenStorageCorrupt], so it does not return [null]. *)
Theorem loadTokens_absent_or_corrupt (config : OAuth2Config) (w : world) :
  (Fs.existsSync (tokenPath config) (disk w) = false ->
     fst (loadTokens config w) = Ok JNull)
  /\ (fst (loadTokens config w) = Ok JNull ->
        Fs.existsSync (tokenPath config) (disk w) = false
        \/ exists content r,
             Fs.readFile (tokenPath config) (disk w) = Ok content
             /\ skip_ws content = "null" ++ r /\ skip_ws r = EmptyString)
  /\ (Fs.existsSync (tokenPath config) (disk w) = true ->
        (forall content, Fs.readFile (tokenPath config) (disk w) = Ok content ->
           valid content = false) ->
        exists c, fst (loadTokens config w) = Err (TokenStorageCorrupt c)).
Proof.
  unfold loadTokens. split; [|split].
  - intros ->. reflexivity.
  - destruct (Fs.existsSync (tokenPath config) (disk w)); [|auto]. cbn [negb].
    destruct (Fs.readFile (tokenPath config) (disk w)) as [data|e]; [|discriminate].
    destruct (parse data) as [v|] eqn:E; [|discriminate].
    cbn [fst]. intros [= ->]. right.
    apply parse_null in E as (r & H1 & H2). eauto.
  - intros -> H. cbn [negb].
    destruct (Fs.readFile (tokenPath config) (disk w)) as [data|e]; [|eauto].
    rewrite (invalid_parse data (H data eq_refl)). eauto.
Qed.

Lemma loadTokens_absent_or_corrupt_witness :
  let config := mkOAuth2Config "c1" "s1" "/tmp/t.json" in
  fst (loadTokens config (fresh_world ∅)) = Ok JNull
  /\ exists c,
       fst (loadTokens config
              (fresh_world {[ "/tmp/t.json" := Fs.File "{oops" owner_only ]}))
       = Err (TokenStorageCorrupt c).
Proof.
  split.
  - apply (loadTokens_absent_or_corrupt
             (mkOAuth2Config "c1" "s1" "/tmp/t.json") (fresh_world ∅)).
    reflexivity.
  - apply (loadTokens_absent_or_corrupt
             (mkOAuth2Config "c1" "s1" "/tmp/t.json")
             (fresh_world {[ "/tmp/t.json" := Fs.File "{oops" owner_only ]})).
    + reflexivity.
    + intros content H. vm_compute in H. injection H as <-. reflexivity.
Defined.

Lemma writeFile_content (p content : string) (mode : N)
    (d d' : gmap string Fs.node) :
  Fs.writeFile p content mode d = Ok d' ->
  file_content p d' = Some content
  /\ forall q, q <> p -> d' !! q = d !! q.
Proof.
  unfold Fs.writeFile, file_content.
  destruct (d !! p) as [[c m|]|] eqn:E; intros [= <-];
    (split; [now rewrite lookup_insert_eq | intros q Hq; now rewrite lookup_insert_ne]).
Qed.

Lemma saveTokens_ok (config : OAuth2Config) (tokens : json) (w w' : world) :
  saveTokens config tokens w = (Ok tt, w') ->
  file_content (tokenPath config) (disk w') = Some (stringify tokens)
  /\ credentials w' = credentials w
  /\ refresh_calls w' = refresh_calls w.
Proof.
  unfold saveTokens, bind, emit, fs_update. cbn [disk credentials trace].
  destruct (Fs.mkdir_recursive _ (disk w)) as [d1|e1]; [|discriminate].
  cbn [disk credentials trace].
  destruct (Fs.writeFile _ _ _ d1) as [d2|e2] eqn:E; [|discriminate].
  intros [= <-]. cbn [disk credentials]. apply writeFile_content in E as [E _].
  auto.
Qed.

Lemma saveTokens_calls (config : OAuth2Config) (tokens : json) (w : world) :
  refresh_calls (snd (saveTokens config tokens w)) = refresh_calls w.
Proof.
  unfold saveTokens, bind, emit, fs_update. cbn [disk credentials trace].
  destruct (Fs.mkdir_recursive _ (disk w)) as [d1|e1]; [|reflexivity].
  cbn [disk credentials trace].
  destruct (Fs.writeFile _ _ _ d1) as [d2|e2]; reflexivity.
Qed.

Lemma loadTokens_file (config : OAuth2Config) (w : world) (content : string) :
  file_content (tokenPath config) (disk w) = Some content ->
  fst (loadTokens config w)
  = match parse content with
    | Some v => Ok v
    | None => Err (TokenStorageCorrupt SyntaxError)
    end.
Proof.
  unfold file_content, loadTokens, Fs.existsSync, Fs.readFile.
  destruct (disk w !! tokenPath config) as [[c m|]|]; try discriminate.
  intros [= ->]. cbn [negb]. destruct (parse content); reflexivity.
Qed.

Lemma stringify_injective (a b : json) :
  plain a -> plain b -> stringify a = stringify b -> a = b.
Proof.
  intros Pa Pb H. apply parse_stringify in Pa, Pb. congruence.
Qed.

Lemma valid_record_setup : valid_record record_setup.
Proof.
  split; [split; [split|]|].
  - apply (bool_decide_unpack (NoDup _)). vm_compute. exact I.
  - cbn. repeat split.
  - cbn. repeat split.
  - exists "rt1". split; [reflexivity | discriminate].
Qed.

Lemma valid_record_refreshed : valid_record record_refreshed.
Proof.
  split; [split; [split|]|].
  - apply (bool_decide_unpack (NoDup _)). vm_compute. exact I.
  - cbn. repeat split.
  - cbn. repeat split.
  - exists "rt1". split; [reflexivity | discriminate].
Qed.

Lemma variant_saveTokens_ok (config : OAuth2Config) (tokens : json)
    (w w' : world) :
  Variant.saveTokens config tokens w = (Ok tt, w') ->
  exists refresh_token,
    property "refresh_token" tokens = Some (JStr refresh_token)
    /\ file_content (tokenPath config) (disk w') = Some refresh_token.
Proof.
  unfold Variant.saveTokens, bind, emit, fs_update, throw.
  cbn [disk credentials trace].
  destruct (Fs.mkdir_recursive _ (disk w)) as [d1|e1]; [|discriminate].
  destruct (property "refresh_token" tokens) as [[|b|n|rt|l|m]|];
    try discriminate.
  cbn [disk credentials trace].
  destruct (Fs.writeFile _ _ _ d1) as [d2|e2] eqn:E; [|discriminate].
  intros [= <-]. cbn [disk]. apply writeFile_content in E as [E _]. eauto.
Qed.

Lemma variant_loadTokens_file (config : OAuth2Config) (w : world)
    (content : string) :
  file_content (tokenPath config) (disk w) = Some content ->
  fst (Variant.loadTokens config w) = Ok (JStr (Variant.trim content)).
Proof.
  unfold file_content, Variant.loadTokens, Fs.existsSync, Fs.readFile.
  destruct (disk w !! tokenPath config) as [[c m|]|]; try discriminate.
  now intros [= ->].
Qed.

(** C3 as stated fails.  With the JSON file of [oauth2-manager.ts] the
    second half fails: the two records below agree on all five fields, so
    they are equivalent, and differ only in the order in which the
    properties were created (the second is what a refresh that re-attaches
    the refresh token produces); their files differ.  With the variant of
    [index.ts] the first half fails: what is loaded after saving is the
    refresh token alone. *)
Lemma equivalent_records_serialize_differently :
  valid_record record_setup /\ valid_record record_refreshed
  /\ equivalent record_setup record_refreshed
  /\ stringify record_setup <> stringify record_refreshed
  /\ fst (Variant.loadTokens config1
            (snd (Variant.saveTokens config1 record_setup (fresh_world ∅))))
     = Ok (JStr "rt1")
  /\ property "access_token" (JStr "rt1") = None
  /\ property "access_token" record_setup = Some (JStr "at1").
Proof.
  split; [exact valid_record_setup|]. split; [exact valid_record_refreshed|].
  split; [|split; [|repeat split]].
  - intros k Hk. cbn in Hk.
    destruct Hk as [<-|[<-|[<-|[<-|[<-|[]]]]]]; reflexivity.
  - intros H. apply stringify_injective in H; [discriminate|..];
      [apply valid_record_setup | apply valid_record_refreshed].
Qed.

(** C3, amended.  With the JSON file of [oauth2-manager.ts]: for every
    valid token record, loading after a successful save returns that very
    record, so every property, the five fields among them, is preserved;
    the file written is [JSON.stringify] of the record, and two valid
    records have byte-identical files exactly when they are the same
    record, with the same properties in the same order.  With the variant
    of [index.ts]: loading after a successful save returns the refresh
    token, trimmed, and nothing else. *)
Theorem saveTokens_loadTokens_round_trip (config : OAuth2Config)
    (tokens : json) (w w' : world) :
  valid_record tokens ->
  (saveTokens config tokens w = (Ok tt, w') ->
     (exists loaded,
        fst (loadTokens config w') = Ok loaded
        /\ loaded = tokens /\ equivalent loaded tokens)
     /\ file_content (tokenPath config) (disk w') = Some (stringify tokens)
     /\ forall other : json,
          valid_record other ->
          (stringify other = stringify tokens <-> other = tokens))
  /\ (Variant.saveTokens config tokens w = (Ok tt, w') ->
        exists refresh_token,
          property "refresh_token" tokens = Some (JStr refresh_token)
          /\ file_content (tokenPath config) (disk w') = Some refresh_token
          /\ fst (Variant.loadTokens config w')
             = Ok (JStr (Variant.trim refresh_token))).
Proof.
  intros [Pt _]. split.
  - intros Hsave. apply saveTokens_ok in Hsave as (Hfile & _ & _).
    split; [|split].
    + exists tokens. split; [|split; [reflexivity | intros k _; reflexivity]].
      rewrite (loadTokens_file _ _ _ Hfile). now rewrite parse_stringify.
    + exact Hfile.
    + intros other [Po _]. split; [|now intros ->].
      now apply stringify_injective.
  - intros Hsave. apply variant_saveTokens_ok in Hsave as (rt & Hrt & Hfile).
    exists rt. split; [exact Hrt|]. split; [exact Hfile|].
    now apply variant_loadTokens_file.
Qed.

Lemma saveTokens_loadTokens_round_trip_witness :
  (exists loaded,
     fst (loadTokens config1 (snd (saveTokens config1 record_setup (fresh_world ∅))))
     = Ok loaded
     /\ loaded = record_setup /\ equivalent loaded record_setup)
  /\ exists refresh_token,
       fst (Variant.loadTokens config1
              (snd (Variant.saveTokens config1 record_setup (fresh_world ∅))))
       = Ok (JStr (Variant.trim refresh_token)).
Proof.
  split.
  - destruct (saveTokens_loadTokens_round_trip config1 record_setup
                (fresh_world ∅)
                (snd (saveTokens config1 record_setup (fresh_world ∅)))
                valid_record_setup) as [H _].
    apply H. vm_compute. reflexivity.
  - destruct (saveTokens_loadTokens_round_trip config1 record_setup
                (fresh_world ∅)
                (snd (Variant.saveTokens config1 record_setup (fresh_world ∅)))
                valid_record_setup) as [_ H].
    destruct H as (rt & _ & _ & H); [vm_compute; reflexivity|].
    exists rt. exact H.
Defined.

(** *** getAuthClient *)

Section Acquisition.

Variable refreshAccessToken : json -> result string json.
Variable config : OAuth2Config.
Variable now : Z.

(** What [getAuthClient] does once the tokens are loaded. *)
Lemma getAuthClient_loaded (w : world) (tokens : json) :
  fst (loadTokens config w) = Ok tokens -> truthy tokens = true ->
  getAuthClient refreshAccessToken config now w =
  if expired now tokens then
    match refreshAccessToken tokens with
    | Ok fresh =>
        match saveTokens config fresh (refreshed config tokens fresh w) with
        | (Ok _, w') =>
            (Ok tt, mkWorld (disk w') (credentials w')
                      (ConsoleLog "OAuth2トークンが更新されました。" :: trace w'))
        | (Err e, w') => (Err (TokenRefreshFailed e), w')
        end
    | Err message =>
        (Err (TokenRefreshFailed (ProviderRejected message)),
         mkWorld (disk w) tokens (RefreshAccessToken :: trace (installed config tokens w)))
    end
  else (Ok tt, installed config tokens w).
Proof.
  intros Hload Htruthy.
  pose proof (loadTokens_disk config w) as (Hd & _ & _).
  unfold getAuthClient, bind, refreshed, installed.
  destruct (loadTokens config w) as [[t|e] w1]; cbn [fst snd] in *; [|discriminate].
  injection Hload as ->. rewrite Htruthy. cbn [negb].
  unfold setCredentials, try_catch, bind, refresh, ret, emit.
  cbn -[saveTokens expired]. rewrite Hd.
  destruct (expired now tokens); [|reflexivity].
  cbn -[saveTokens].
  destruct (refreshAccessToken tokens) as [fresh|message]; [|reflexivity].
  destruct (saveTokens config fresh _) as [[[]|e] w']; reflexivity.
Qed.

Lemma refresh_calls_installed (w : world) (tokens : json) :
  refresh_calls (installed config tokens w) = refresh_calls w.
Proof.
  pose proof (loadTokens_disk config w) as (_ & _ & H).
  unfold refresh_calls, installed in *. cbn [trace List.filter]. exact H.
Qed.

Lemma expired_spec (tokens : json) :
  expired now tokens = true <->
  exists n, property "expiry_date" tokens = Some (JNum n)
            /\ n <> 0%Z /\ (n <= now)%Z.
Proof.
  unfold expired.
  destruct (property "expiry_date" tokens) as [[|b|n|s|l|m]|];
    try (split; [discriminate | intros (n' & [=] & _)]).
  rewrite andb_true_iff, negb_true_iff, Z.eqb_neq, Z.leb_le.
  split; [intros [H1 H2]; eauto | intros (n' & [= <-] & H)]. exact H.
Qed.

(** How many calls of [refreshAccessToken] a run makes once the tokens
    are loaded. *)
Lemma getAuthClient_calls (w : world) (tokens : json) :
  fst (loadTokens config w) = Ok tokens -> truthy tokens = true ->
  refresh_calls (snd (getAuthClient refreshAccessToken config now w))
  = if expired now tokens then S (refresh_calls w) else refresh_calls w.
Proof.
  intros Hload Htruthy. rewrite (getAuthClient_loaded w tokens Hload Htruthy).
  destruct (expired now tokens); [|apply refresh_calls_installed].
  destruct (refreshAccessToken tokens) as [fresh|message].
  - pose proof (saveTokens_calls config fresh (refreshed config tokens fresh w)) as Hs.
    destruct (saveTokens config fresh _) as [[[]|e] w']; cbn [snd] in *.
    + unfold refresh_calls in *. cbn [trace List.filter]. rewrite Hs.
      cbn [refreshed trace List.filter List.length]. f_equal.
      apply refresh_calls_installed.
    + rewrite Hs. unfold refresh_calls. cbn [refreshed trace List.filter List.length].
      f_equal. apply refresh_calls_installed.
  - cbn [snd]. unfold refresh_calls. cbn [trace List.filter List.length].
    f_equal. apply refresh_calls_installed.
Qed.

End Acquisition.

(** C1 as stated fails: the record's expiry date is present, it is 0 (the
    epoch), and the current time 1000 is past it; [getAuthClient] returns
    the client without a refresh, because 0 is falsy. *)
Lemma getAuthClient_expiry_zero :
  let run := getAuthClient (fun _ => Ok record_setup) config1 1000
               (fresh_world (disk_with record_epoch)) in
  fst (loadTokens config1 (fresh_world (disk_with record_epoch))) = Ok record_epoch
  /\ property "expiry_date" record_epoch = Some (JNum 0)
  /\ (0 <= 1000)%Z
  /\ fst run = Ok tt
  /\ refresh_calls (snd run) = 0.
Proof. repeat split; try reflexivity. discriminate. Qed.

(** C1, amended.  For every loaded token record whose expiry date is a
    number or absent, [getAuthClient] calls [refreshAccessToken] once when
    the expiry date is present, is not 0, and the current time is at or
    past it, and not at all otherwise: a record with an expiry date in the
    future, or with none, triggers zero refresh calls. *)
Theorem getAuthClient_refresh_decision
    (refreshAccessToken : json -> result string json) (config : OAuth2Config)
    (now : Z) (w : world) (tokens : json) :
  fst (loadTokens config w) = Ok tokens -> truthy tokens = true ->
  expiry_typed tokens ->
  let before := refresh_calls w in
  let after := refresh_calls (snd (getAuthClient refreshAccessToken config now w)) in
  (after = S before <->
     exists n, property "expiry_date" tokens = Some (JNum n)
               /\ n <> 0%Z /\ (n <= now)%Z)
  /\ (after = before \/ after = S before)
  /\ (property "expiry_date" tokens = None -> after = before)
  /\ (forall n, property "expiry_date" tokens = Some (JNum n) ->
        (now < n)%Z -> after = before).
Proof.
  intros Hload Htruthy _. cbv zeta.
  rewrite (getAuthClient_calls refreshAccessToken config now w tokens Hload Htruthy).
  rewrite <- expired_spec.
  assert (Hnone : property "expiry_date" tokens = None -> expired now tokens = false).
  { unfold expired. now intros ->. }
  assert (Hfut : forall n, property "expiry_date" tokens = Some (JNum n) ->
                   (now < n)%Z -> expired now tokens = false).
  { unfold expired. intros n -> Hn. apply andb_false_iff. right.
    apply Z.leb_gt. exact Hn. }
  destruct (expired now tokens) eqn:E.
  - repeat split; auto.
    + intros H. apply Hnone in H. discriminate.
    + intros n H1 H2. specialize (Hfut n H1 H2). discriminate.
  - repeat split; auto; try discriminate. intros H. lia.
Qed.

Lemma getAuthClient_refresh_decision_witness :
  refresh_calls (snd (getAuthClient (fun _ => Err "invalid_grant") config1
                        1700000000000 (fresh_world (disk_with record_setup))))
  = 1
  /\ refresh_calls (snd (getAuthClient (fun _ => Err "invalid_grant") config1
                           1600000000000 (fresh_world (disk_with record_setup))))
     = 0.
Proof.
  split.
  - apply (getAuthClient_refresh_decision (fun _ => Err "invalid_grant") config1
             1700000000000 (fresh_world (disk_with record_setup)) record_setup).
    + vm_compute. reflexivity.
    + reflexivity.
    + exact I.
    + exists 1626948683456%Z. repeat split; [discriminate | lia].
  - apply (getAuthClient_refresh_decision (fun _ => Err "invalid_grant") config1
             1600000000000 (fresh_world (disk_with record_setup)) record_setup
             ltac:(vm_compute; reflexivity) eq_refl I)
      with (n := 1626948683456%Z); [reflexivity | lia].
Defined.

Lemma saveTokens_error (config : OAuth2Config) (tokens : json) (w : world)
    (e : error) :
  fst (saveTokens config tokens w) = Err e ->
  exists io, e = TokenStorageWriteFailed io.
Proof.
  unfold saveTokens, bind, emit, fs_update. cbn [disk credentials trace].
  destruct (Fs.mkdir_recursive _ (disk w)) as [d1|e1];
    [|cbn [fst]; intros [= <-]; eauto].
  cbn [disk credentials trace].
  destruct (Fs.writeFile _ _ _ d1) as [d2|e2]; [discriminate|].
  cbn [fst]. intros [= <-]. eauto.
Qed.

Lemma lookup_replace_value (k : string) (v : json) (m : list (string * json)) :
  has_key k m = true -> lookup_key k (replace_value k v m) = Some v.
Proof.
  induction m as [|[k' v'] m IH]; [discriminate|].
  cbn [has_key replace_value lookup_key].
  destruct (String.eqb_spec k' k) as [->|Hne].
  - intros _. cbn [lookup_key]. now rewrite String.eqb_refl.
  - cbn [orb lookup_key]. intros H.
    destruct (String.eqb_spec k' k); [contradiction|]. now apply IH.
Qed.

Lemma lookup_key_app (k : string) (v : json) (m : list (string * json)) :
  has_key k m = false -> lookup_key k (m ++ [(k, v)]) = Some v.
Proof.
  induction m as [|[k' v'] m IH]; cbn [has_key app lookup_key].
  - intros _. now rewrite String.eqb_refl.
  - destruct (k' =? k); [discriminate|]. exact IH.
Qed.

(** Setting a property that is not an array index: the object has it
    afterwards, in its old place or at the end. *)
Lemma lookup_obj_set (k : string) (v : json) (m : list (string * json)) :
  array_index k = None -> lookup_key k (obj_set k v m) = Some v.
Proof.
  intros Hk. unfold obj_set. destruct (has_key k m) eqn:E.
  - now apply lookup_replace_value.
  - rewrite Hk. now apply lookup_key_app.
Qed.

Lemma obj_set_absent (k : string) (v : json) (m : list (string * json)) :
  array_index k = None -> has_key k m = false ->
  obj_set k v m = (m ++ [(k, v)])%list.
Proof. intros Hk Hm. unfold obj_set. now rewrite Hm, Hk. Qed.

Lemma getAuthClient_returned
    (refreshAccessToken : json -> result string json) (config : OAuth2Config)
    (now : Z) (w w' : world) :
  getAuthClient refreshAccessToken config now w = (Ok tt, w') ->
  exists tokens,
    fst (loadTokens config w) = Ok tokens /\ truthy tokens = true.
Proof.
  unfold getAuthClient, bind.
  destruct (loadTokens config w) as [[tokens|e] w1]; [|discriminate].
  destruct (truthy tokens) eqn:Ht; [|discriminate].
  intros _. exists tokens. now split.
Qed.

(** A run of [getAuthClient] that refreshed and returned has saved what
    [refreshAccessToken] answered. *)
Lemma getAuthClient_saves_answer
    (refreshAccessToken : json -> result string json) (config : OAuth2Config)
    (now : Z) (w w' : world) :
  getAuthClient refreshAccessToken config now w = (Ok tt, w') ->
  refresh_calls w' <> refresh_calls w ->
  exists tokens fresh,
    fst (loadTokens config w) = Ok tokens
    /\ truthy tokens = true
    /\ expired now tokens = true
    /\ refreshAccessToken tokens = Ok fresh
    /\ file_content (tokenPath config) (disk w') = Some (stringify fresh)
    /\ credentials w' = fresh
    /\ refresh_calls w' = S (refresh_calls w).
Proof.
  intros Hrun Hcalled.
  destruct (getAuthClient_returned _ _ _ _ _ Hrun) as (tokens & Hload & Htruthy).
  pose proof (getAuthClient_calls refreshAccessToken config now w tokens
                Hload Htruthy) as Hcalls.
  rewrite Hrun in Hcalls. cbn [snd] in Hcalls.
  destruct (expired now tokens) eqn:Hexp; [|contradiction].
  rewrite (getAuthClient_loaded refreshAccessToken config now w tokens
             Hload Htruthy), Hexp in Hrun.
  destruct (refreshAccessToken tokens) as [fresh|message] eqn:Hanswer;
    [|discriminate].
  exists tokens, fresh.
  destruct (saveTokens config fresh _) as [[[]|e] w1] eqn:Hsave; [|discriminate].
  injection Hrun as <-. cbn [disk credentials snd] in *.
  apply saveTokens_ok in Hsave as (Hfile & Hcred & _).
  repeat split; assumption.
Qed.

Lemma loaded_file (config : OAuth2Config) (w : world) (tokens : json) :
  fst (loadTokens config w) = Ok tokens -> truthy tokens = true ->
  exists prior,
    file_content (tokenPath config) (disk w) = Some prior
    /\ parse prior = Some tokens.
Proof.
  unfold loadTokens, file_content, Fs.existsSync, Fs.readFile.
  destruct (disk w !! tokenPath config) as [[c m|]|]; cbn [negb fst].
  - destruct (parse c) as [v|] eqn:E; [|discriminate].
    intros [= ->] _. eauto.
  - discriminate.
  - intros [= <-]. discriminate.
Qed.

(** C5.  Whenever [getAuthClient] performs a refresh and returns the
    handle, it has by then replaced the content of the token file by
    [JSON.stringify] of the refreshed record, which the client holds as
    its credentials.  The refreshed record is the provider's refresh
    response with the refresh token of the loaded record set on it by the
    OAuth2 client: the persisted record has the original refresh token,
    at the end of the record when the response has none. *)
Theorem getAuthClient_persists_refreshed
    (refreshToken : json -> result string (list (string * json)))
    (config : OAuth2Config) (now : Z) (w w' : world) :
  getAuthClient (OAuth2Client.refreshAccessToken refreshToken) config now w
  = (Ok tt, w') ->
  refresh_calls w' <> refresh_calls w ->
  exists (tokens original : json) (prior : string)
         (response : list (string * json)) (record : json),
    file_content (tokenPath config) (disk w) = Some prior
    /\ parse prior = Some tokens
    /\ property "refresh_token" tokens = Some original
    /\ truthy original = true
    /\ refreshToken original = Ok response
    /\ record = JObj (obj_set "refresh_token" original response)
    /\ file_content (tokenPath config) (disk w') = Some (stringify record)
    /\ credentials w' = record
    /\ property "refresh_token" record = Some original
    /\ (has_key "refresh_token" response = false ->
        record = JObj (response ++ [("refresh_token", original)]))
    /\ refresh_calls w' = S (refresh_calls w)
    /\ (plain record -> fst (loadTokens config w') = Ok record).
Proof.
  intros Hrun Hcalled.
  destruct (getAuthClient_saves_answer _ _ _ _ _ Hrun Hcalled)
    as (tokens & fresh & Hload & Htruthy & _ & Hanswer & Hfile & Hcred & Hcalls).
  destruct (loaded_file config w tokens Hload Htruthy) as (prior & Hprior & Hparse).
  unfold OAuth2Client.refreshAccessToken in Hanswer.
  destruct (property "refresh_token" tokens) as [original|] eqn:Hrt;
    [|discriminate].
  destruct (truthy original) eqn:Ho; [|discriminate].
  destruct (refreshToken original) as [response|message] eqn:Hresp;
    [|discriminate].
  injection Hanswer as <-.
  exists tokens, original, prior, response,
    (JObj (obj_set "refresh_token" original response)).
  repeat split; try assumption; try reflexivity.
  - cbn [property]. now apply lookup_obj_set.
  - intros Hnone. f_equal. now apply obj_set_absent.
  - intros Pf.
    rewrite (loadTokens_file config _ _ Hfile). now rewrite parse_stringify.
Qed.

Lemma getAuthClient_persists_refreshed_witness :
  let start := fresh_world (disk_with record_setup) in
  let run := getAuthClient
               (OAuth2Client.refreshAccessToken (fun _ => Ok refresh_response))
               config1 1700000000000 start in
  exists record,
    file_content (tokenPath config1) (disk (snd run)) = Some (stringify record)
    /\ property "refresh_token" record = Some (JStr "rt1").
Proof.
  destruct (getAuthClient_persists_refreshed (fun _ => Ok refresh_response)
              config1 1700000000000 (fresh_world (disk_with record_setup))
              (snd (getAuthClient
                      (OAuth2Client.refreshAccessToken (fun _ => Ok refresh_response))
                      config1 1700000000000
                      (fresh_world (disk_with record_setup)))))
    as (tokens & original & prior & response & record
        & Hprior & Hparse & Hrt & _ & _ & _ & Hfile & _ & Hkept & _).
  - vm_compute. reflexivity.
  - vm_compute. discriminate.
  - exists record. split; [exact Hfile|]. rewrite Hkept. f_equal.
    vm_compute in Hprior. injection Hprior as <-.
    vm_compute in Hparse. injection Hparse as <-.
    vm_compute in Hrt. now injection Hrt as <-.
Defined.

Lemma loadTokens_error (config : OAuth2Config) (w : world) (e : error) :
  fst (loadTokens config w) = Err e -> exists c, e = TokenStorageCorrupt c.
Proof.
  unfold loadTokens.
  destruct (negb (Fs.existsSync (tokenPath config) (disk w))); [discriminate|].
  destruct (Fs.readFile (tokenPath config) (disk w)) as [data|io];
    [|intros [= <-]; eauto].
  destruct (parse data); [discriminate|]. intros [= <-]. eauto.
Qed.

(** A run of [getAuthClient] that ends with the refresh rejected leaves
    the disk as it found it. *)
Lemma getAuthClient_refresh_rejected
    (refreshAccessToken : json -> result string json) (config : OAuth2Config)
    (now : Z) (w : world) (message : string) :
  fst (getAuthClient refreshAccessToken config now w)
  = Err (TokenRefreshFailed (ProviderRejected message)) ->
  disk (snd (getAuthClient refreshAccessToken config now w)) = disk w.
Proof.
  destruct (fst (loadTokens config w)) as [tokens|e] eqn:Hload.
  - destruct (truthy tokens) eqn:Htruthy.
    + rewrite (getAuthClient_loaded refreshAccessToken config now w tokens
                 Hload Htruthy).
      destruct (expired now tokens); [|discriminate].
      destruct (refreshAccessToken tokens) as [fresh|m]; [|reflexivity].
      destruct (saveTokens config fresh _) as [[[]|e] w1] eqn:Hsave;
        [discriminate|].
      cbn [fst]. intros [= ->].
      pose proof (saveTokens_error config fresh _ _ (f_equal fst Hsave))
        as (io & Hio). discriminate.
    + unfold getAuthClient, bind.
      destruct (loadTokens config w) as [[t|e] w1]; cbn [fst] in Hload;
        [|discriminate].
      injection Hload as ->. rewrite Htruthy. discriminate.
  - apply loadTokens_error in Hload as Hc. destruct Hc as (c & ->).
    unfold getAuthClient, bind.
    destruct (loadTokens config w) as [[t|e'] w1]; cbn [fst] in Hload;
      [discriminate|].
    injection Hload as ->. discriminate.
Qed.

End ManagerFacts.

Section CliFacts.
Import Cli.

Lemma truthy_given (f : field string) :
  truthy f = true <-> given_nonempty f.
Proof.
  unfold given_nonempty. destruct f as [| |s]; simpl.
  - split; [discriminate | intros (s & H & _); discriminate].
  - split; [discriminate | intros (s & H & _); discriminate].
  - unfold truthy_string. destruct (String.eqb_spec s "") as [->|Hne]; simpl.
    + split; [discriminate | intros (s & [= <-] & Hs); congruence].
    + split; [eauto | reflexivity].
Qed.

Lemma truthy_false_not_given (f : field string) :
  truthy f = false <-> ~ given_nonempty f.
Proof.
  rewrite <- truthy_given. destruct (truthy f); split; congruence.
Qed.

Lemma or_else_truthy (f : field string) (d s : string) :
  f = Val s -> s <> "" -> or_else f d = s.
Proof.
  intros -> Hs. simpl. unfold truthy_string.
  destruct (String.eqb_spec s ""); [contradiction | reflexivity].
Qed.

Lemma or_else_falsy (f : field string) (d : string) :
  ~ given_nonempty f -> or_else f d = d.
Proof.
  intros H. apply truthy_false_not_given in H.
  destruct f as [| |s]; simpl in *; try reflexivity. now rewrite H.
Qed.

(** *** validateConfig *)

(** C9.  [validateConfig] is command-specific.  For [setup] the result is
    valid exactly when client id and client secret are both present and
    non-empty, and the error list holds one message for each of the two
    that is missing, in that order.  For [server] the result is valid
    exactly when the token path is present and non-empty.  In every case
    [isValid] is true exactly when [errors] is empty. *)
Theorem validateConfig_command_specific (config : CliOptions) :
  (command config = Val setup ->
     (isValid (validateConfig config) = true <->
        given_nonempty (clientId config) /\ given_nonempty (clientSecret config))
     /\ errors (validateConfig config) =
          ((if truthy (clientId config) then [] else [err_client_id])
           ++ (if truthy (clientSecret config) then [] else [err_client_secret]))%list)
  /\ (command config = Val server ->
        (isValid (validateConfig config) = true <->
           given_nonempty (tokenPath config)))
  /\ (isValid (validateConfig config) = true <->
        errors (validateConfig config) = []).
Proof.
  split; [|split].
  - intros Hc. unfold validateConfig, is_command. rewrite Hc. simpl.
    rewrite <- !truthy_given.
    destruct (truthy (clientId config)), (truthy (clientSecret config));
      simpl; (split; [split; [intros H | intros [H1 H2]]; auto; discriminate | reflexivity]).
  - intros Hc. unfold validateConfig, is_command. rewrite Hc. simpl.
    rewrite <- truthy_given.
    destruct (truthy (tokenPath config)); simpl; split; auto; discriminate.
  - unfold validateConfig. simpl.
    match goal with |- context [List.length ?l] => destruct l end; simpl;
      split; auto; discriminate.
Qed.

Lemma validateConfig_command_specific_witness :
  isValid (validateConfig (set_command setup
             (set_clientSecret "s1" (set_clientId "c1" empty_options)))) = true
  /\ isValid (validateConfig (set_command server empty_options)) = false.
Proof.
  split.
  - apply (proj1 (validateConfig_command_specific _)); [reflexivity|].
    split; exists "c1" + exists "s1"; split; (reflexivity || discriminate).
  - destruct (isValid (validateConfig (set_command server empty_options))) eqn:E;
      [|reflexivity].
    apply (proj1 (proj2 (validateConfig_command_specific _))) in E;
      [|reflexivity].
    destruct E as (s & H & _). discriminate.
Defined.

(** *** mergeConfig *)

Example precedence_scenario :
  tokenPath (mergeConfig "/home/u" (parseCliOptions ["--token-path"; "/a"])
               (loadEnvConfig env_b)) = Val "/a"
  /\ tokenPath (mergeConfig "/home/u" (parseCliOptions [])
                  (loadEnvConfig (mkEnv None None None)))
     = Val "/home/u/.gsc-oauth-token.json".
Proof. split; reflexivity. Qed.

(** C8 as stated fails.  With [--token-path ""] on the command line the
    CLI value is given (it is the empty string), yet the merged token
    path is the environment's; and client id does not follow the token
    path's rule: an empty [--client-id ""] does override the
    environment. *)
Lemma mergeConfig_cli_empty_string :
  let cli := parseCliOptions ["--token-path"; ""; "--client-id"; ""] in
  let env := loadEnvConfig env_b in
  let merged := mergeConfig "/home/u" cli env in
  tokenPath cli = Val ""
  /\ tokenPath merged = Val "/b"
  /\ tokenPath merged <> tokenPath cli
  /\ clientId cli = Val ""
  /\ clientId env = Val "abc"
  /\ clientId merged = Val "".
Proof. simpl. repeat split; discriminate. Qed.

(** C8, amended.  The merged token path is the CLI value when that is a
    non-empty string, otherwise the environment value when that is a
    non-empty string, otherwise [path.join (home, ".gsc-oauth-token.json")],
    which is [<home>/.gsc-oauth-token.json] for a home directory that is a
    normalized absolute path.  Client id and client secret are taken from
    the CLI options whenever these have the property at all (an empty
    string included), and from the environment options otherwise. *)
Theorem mergeConfig_precedence (home : string) (cli env : CliOptions) :
  let merged := mergeConfig home cli env in
  (forall s, tokenPath cli = Val s -> s <> "" -> tokenPath merged = Val s)
  /\ (~ given_nonempty (tokenPath cli) ->
      forall s, tokenPath env = Val s -> s <> "" -> tokenPath merged = Val s)
  /\ (~ given_nonempty (tokenPath cli) -> ~ given_nonempty (tokenPath env) ->
      tokenPath merged = Val (default_token_path home))
  /\ (forall segs : list string,
        segs <> [] -> forallb Path.plain_segment segs = true ->
        home = Path.absolute segs ->
        default_token_path home = home ++ "/.gsc-oauth-token.json")
  /\ (clientId cli <> Absent -> clientId merged = clientId cli)
  /\ (clientId cli = Absent -> clientId merged = clientId env)
  /\ (clientSecret cli <> Absent -> clientSecret merged = clientSecret cli)
  /\ (clientSecret cli = Absent -> clientSecret merged = clientSecret env).
Proof.
  simpl. repeat split.
  - intros s Hs Hne. now rewrite (or_else_truthy _ _ s Hs Hne).
  - intros Hc s Hs Hne.
    now rewrite (or_else_falsy _ _ Hc), (or_else_truthy _ _ s Hs Hne).
  - intros Hc He. now rewrite (or_else_falsy _ _ Hc), (or_else_falsy _ _ He).
  - intros segs Hne Hsegs ->. unfold default_token_path.
    now apply join_absolute.
  - destruct (clientId cli); simpl; congruence.
  - intros ->. reflexivity.
  - destruct (clientSecret cli); simpl; congruence.
  - intros ->. reflexivity.
Qed.

Lemma mergeConfig_precedence_witness :
  tokenPath (mergeConfig "/home/u" (parseCliOptions ["--token-path"; "/a"])
               (loadEnvConfig env_b)) = Val "/a"
  /\ tokenPath (mergeConfig "/home/u" (parseCliOptions ["--token-path"; ""])
                  (loadEnvConfig env_b)) = Val "/b"
  /\ default_token_path "/home/u" = "/home/u" ++ "/.gsc-oauth-token.json"
  /\ clientId (mergeConfig "/home/u" (parseCliOptions ["--token-path"; "/a"])
                 (loadEnvConfig env_b)) = Val "abc".
Proof.
  split; [|split; [|split]].
  - destruct (mergeConfig_precedence "/home/u"
                (parseCliOptions ["--token-path"; "/a"]) (loadEnvConfig env_b))
      as (H & _).
    apply H; [reflexivity | discriminate].
  - destruct (mergeConfig_precedence "/home/u"
                (parseCliOptions ["--token-path"; ""]) (loadEnvConfig env_b))
      as (_ & H & _).
    apply H; [|reflexivity | discriminate].
    intros (s & Hs & Hne). simpl in Hs. congruence.
  - destruct (mergeConfig_precedence "/home/u"
                (parseCliOptions []) (loadEnvConfig env_b))
      as (_ & _ & _ & H & _).
    apply (H ["home"; "u"]); [discriminate | reflexivity | reflexivity].
  - destruct (mergeConfig_precedence "/home/u"
                (parseCliOptions ["--token-path"; "/a"]) (loadEnvConfig env_b))
      as (_ & _ & _ & _ & _ & H & _).
    apply H. reflexivity.
Defined.

(** *** parseCliOptions *)

Lemma value_flag_cases (f : string) :
  In f value_flags ->
  f = "--client-id" \/ f = "--client-secret" \/ f = "--token-path".
Proof. simpl. intuition. Qed.

Lemma flag_option_default_case (f arg : string) (o : CliOptions) :
  flag_option f (default_case arg o) = flag_option f o.
Proof.
  unfold default_case.
  destruct (negb (String.prefix "-" arg) && command_falsy o); [|reflexivity].
  destruct (arg =? "setup"); [reflexivity|].
  destruct (arg =? "server"); reflexivity.
Qed.

(** A value-taking flag that occurs only as the last argument never
    touches its option, from whatever options the scan starts. *)
Lemma parse_loop_trailing_flag (f : string) :
  In f value_flags ->
  forall (n : nat) (pre : list string) (o : CliOptions),
    List.length pre <= n -> ~ In f pre ->
    flag_option f (parse_loop (pre ++ [f]) o) = flag_option f o.
Proof.
  intros Hf. induction n as [|n IH]; intros pre o Hlen Hnot.
  - destruct pre; [|simpl in Hlen; lia].
    apply value_flag_cases in Hf as [->|[->| ->]]; reflexivity.
  - destruct pre as [|a rest].
    + apply value_flag_cases in Hf as [->|[->| ->]]; reflexivity.
    + assert (Haf : a <> f) by (intros ->; apply Hnot; now left).
      assert (Hrest : ~ In f rest) by (intros H; apply Hnot; now right).
      simpl in Hlen.
      assert (Hskip : forall o', flag_option f o' = flag_option f o ->
                flag_option f (parse_loop (rest ++ [f]) o') = flag_option f o).
      { intros o' Ho'. rewrite IH; [exact Ho' | lia | exact Hrest]. }
      assert (Hval : forall set_g : string -> CliOptions -> CliOptions,
                (forall v o', flag_option f (set_g v o') = flag_option f o') ->
                flag_option f
                  (match (rest ++ [f])%list with
                   | v :: rest' => parse_loop rest' (set_g v o)
                   | [] => parse_loop (rest ++ [f]) o
                   end) = flag_option f o).
      { intros set_g Hset. destruct rest as [|v r']; simpl.
        - apply Hset.
        - rewrite IH; [apply Hset | simpl in Hlen; lia |].
          intros H; apply Hrest; now right. }
      change ((a :: rest) ++ [f])%list with (a :: (rest ++ [f]))%list.
      cbn [parse_loop].
      destruct (String.eqb_spec a "--client-id") as [->|H1].
      { apply Hval. intros v o'.
        apply value_flag_cases in Hf as [->|[->| ->]]; [congruence|reflexivity..]. }
      destruct (String.eqb_spec a "--client-secret") as [->|H2].
      { apply Hval. intros v o'.
        apply value_flag_cases in Hf as [->|[->| ->]]; [|congruence|]; reflexivity. }
      destruct (String.eqb_spec a "--token-path") as [->|H3].
      { apply Hval. intros v o'.
        apply value_flag_cases in Hf as [->|[->| ->]]; [..|congruence]; reflexivity. }
      destruct ((a =? "-h") || (a =? "--help")); [now apply Hskip|].
      destruct (a =? "setup"); [now apply Hskip|].
      destruct (a =? "server"); [now apply Hskip|].
      apply Hskip, flag_option_default_case.
Qed.

(** A value-taking flag at the end that the scan reaches as a flag, not
    as the value of the flag before it, is skipped. *)
Lemma parse_loop_skips_trailing_flag (f : string) :
  In f value_flags ->
  forall (n : nat) (pre : list string) (o : CliOptions),
    List.length pre <= n -> awaits_value pre = false ->
    parse_loop (pre ++ [f]) o = parse_loop pre o.
Proof.
  intros Hf. induction n as [|n IH]; intros pre o Hlen Hw.
  - destruct pre; [|simpl in Hlen; lia].
    apply value_flag_cases in Hf as [->|[->| ->]]; reflexivity.
  - destruct pre as [|a rest].
    + apply value_flag_cases in Hf as [->|[->| ->]]; reflexivity.
    + simpl in Hlen. cbn [awaits_value] in Hw.
      change ((a :: rest) ++ [f])%list with (a :: (rest ++ [f]))%list.
      assert (Hval : forall set_g : string -> CliOptions -> CliOptions,
                is_value_flag a = true ->
                match (rest ++ [f])%list with
                | v :: rest' => parse_loop rest' (set_g v o)
                | [] => parse_loop (rest ++ [f]) o
                end
                = match rest with
                  | v :: rest' => parse_loop rest' (set_g v o)
                  | [] => parse_loop rest o
                  end).
      { intros set_g Ha. rewrite Ha in Hw.
        destruct rest as [|v r']; [discriminate|]. cbn [app].
        apply IH; [simpl in Hlen; lia | exact Hw]. }
      cbn [parse_loop]. unfold is_value_flag in Hval, Hw.
      destruct (a =? "--client-id"); [now apply Hval|].
      destruct (a =? "--client-secret"); [now apply Hval|].
      destruct (a =? "--token-path"); [now apply Hval|].
      cbn [orb] in Hw.
      destruct ((a =? "-h") || (a =? "--help")); [apply IH; [lia|exact Hw]|].
      destruct (a =? "setup"); [apply IH; [lia|exact Hw]|].
      destruct (a =? "server"); apply IH; (lia || exact Hw).
Qed.

Lemma flag_option_parseCliOptions (f : string) (args : list string) :
  flag_option f (parseCliOptions args) = flag_option f (parse_loop args empty_options).
Proof.
  unfold parseCliOptions. destruct (command_falsy _); reflexivity.
Qed.

(** When neither command name is among the arguments the scan leaves
    the command as it found it. *)
Lemma parse_loop_no_command :
  forall (n : nat) (args : list string) (o : CliOptions),
    List.length args <= n -> ~ In "setup" args -> ~ In "server" args ->
    command (parse_loop args o) = command o.
Proof.
  induction n as [|n IH]; intros args o Hlen Hs Hv.
  - destruct args; [reflexivity | simpl in Hlen; lia].
  - destruct args as [|a rest]; [reflexivity|].
    assert (Has : a <> "setup") by (intros ->; apply Hs; now left).
    assert (Hav : a <> "server") by (intros ->; apply Hv; now left).
    assert (Hs' : ~ In "setup" rest) by (intros H; apply Hs; now right).
    assert (Hv' : ~ In "server" rest) by (intros H; apply Hv; now right).
    simpl in Hlen.
    assert (Hskip : forall o', command o' = command o ->
              command (parse_loop rest o') = command o).
    { intros o' Ho'. rewrite IH; [exact Ho' | lia | exact Hs' | exact Hv']. }
    assert (Hval : forall set_g : string -> CliOptions -> CliOptions,
              (forall v o', command (set_g v o') = command o') ->
              command (match rest with
                       | v :: rest' => parse_loop rest' (set_g v o)
                       | [] => parse_loop rest o
                       end) = command o).
    { intros set_g Hset. destruct rest as [|v r']; [reflexivity|].
      rewrite IH; [apply Hset | simpl in Hlen; lia | |].
      - intros H; apply Hs'; now right.
      - intros H; apply Hv'; now right. }
    cbn [parse_loop].
    destruct (a =? "--client-id"); [now apply Hval|].
    destruct (a =? "--client-secret"); [now apply Hval|].
    destruct (a =? "--token-path"); [now apply Hval|].
    destruct ((a =? "-h") || (a =? "--help")); [now apply Hskip|].
    destruct (String.eqb_spec a "setup"); [contradiction|].
    destruct (String.eqb_spec a "server"); [contradiction|].
    apply Hskip. unfold default_case.
    destruct (negb (String.prefix "-" a) && command_falsy o); [|reflexivity].
    destruct (String.eqb_spec a "setup"); [contradiction|].
    destruct (String.eqb_spec a "server"); [contradiction|]. reflexivity.
Qed.

(** C10 as stated fails: a value-taking flag can be the final element
    with no value after it while its option is set, either by an earlier
    occurrence of the flag or because the final element is itself taken
    as the value of the flag before it. *)
Lemma parseCliOptions_trailing_flag_set :
  last ["--client-id"; "a"; "--client-id"] = Some "--client-id"
  /\ clientId (parseCliOptions ["--client-id"; "a"; "--client-id"]) = Val "a"
  /\ clientId (parseCliOptions ["--client-id"; "--client-id"]) = Val "--client-id"
  /\ flag_option "--client-id"
       (parseCliOptions ["--client-id"; "a"; "--client-id"]) <> Absent.
Proof. repeat split. discriminate. Qed.

(** C10, amended.  For every argument list in which a value-taking flag
    is the final element and occurs nowhere before it, [parseCliOptions]
    returns (it is a total function) with the corresponding option
    unset.  A final value-taking flag that the scan reaches as a flag,
    not as the value of the flag before it, sets nothing: the result is
    that of the argument list without it.  For every argument list the
    command of the result is [setup] or [server], never absent, and it
    is [server] when neither word is among the arguments. *)
Theorem parseCliOptions_trailing_flag :
  (forall (pre : list string) (f : string),
     In f value_flags -> ~ In f pre ->
     flag_option f (parseCliOptions (pre ++ [f])) = Absent)
  /\ (forall (pre : list string) (f : string),
        In f value_flags -> awaits_value pre = false ->
        parseCliOptions (pre ++ [f]) = parseCliOptions pre)
  /\ (forall args : list string,
        command (parseCliOptions args) = Val setup
        \/ command (parseCliOptions args) = Val server)
  /\ (forall args : list string,
        ~ In "setup" args -> ~ In "server" args ->
        command (parseCliOptions args) = Val server).
Proof.
  split; [|split; [|split]].
  - intros pre f Hf Hpre. rewrite flag_option_parseCliOptions.
    rewrite (parse_loop_trailing_flag f Hf (List.length pre)); [|lia|exact Hpre].
    apply value_flag_cases in Hf as [->|[->| ->]]; reflexivity.
  - intros pre f Hf Hw. unfold parseCliOptions.
    now rewrite (parse_loop_skips_trailing_flag f Hf (List.length pre) pre
                   empty_options (Nat.le_refl _) Hw).
  - intros args. unfold parseCliOptions.
    destruct (command_falsy (parse_loop args empty_options)) eqn:E.
    + right. reflexivity.
    + unfold command_falsy in E.
      destruct (command (parse_loop args empty_options)) as [| |[|]];
        try discriminate; auto.
  - intros args Hs Hv. unfold parseCliOptions.
    pose proof (parse_loop_no_command (List.length args) args empty_options
                  (Nat.le_refl _) Hs Hv) as Hc.
    unfold command_falsy. rewrite Hc. reflexivity.
Qed.

Lemma parseCliOptions_trailing_flag_witness :
  flag_option "--token-path"
    (parseCliOptions (["--client-id"; "c1"; "setup"] ++ ["--token-path"])) = Absent
  /\ parseCliOptions (["--client-id"; "a"] ++ ["--client-id"])
     = parseCliOptions ["--client-id"; "a"]
  /\ command (parseCliOptions ["--client-id"]) = Val server.
Proof.
  destruct parseCliOptions_trailing_flag as (Hflag & Hskip & _ & Hdefault).
  split; [|split].
  - apply (Hflag ["--client-id"; "c1"; "setup"] "--token-path").
    + simpl. auto.
    + simpl. intros [H|[H|[H|[]]]]; discriminate.
  - apply (Hskip ["--client-id"; "a"] "--client-id").
    + simpl. auto.
    + reflexivity.
  - apply (Hdefault ["--client-id"]).
    + simpl. intros [H|[]]. discriminate.
    + simpl. intros [H|[]]. discriminate.
Defined.

End CliFacts.

Section FlowFacts.
Import Json Flow.

Variable config : Manager.OAuth2Config.

Lemma settle_flow (outcome : promise) (s : state) :
  flow (settle outcome s) = match flow s with Pending => outcome | p => p end
  /\ settlements (settle outcome s)
     = match flow s with Pending => S (settlements s) | _ => settlements s end
  /\ server (settle outcome s) = server s
  /\ disk (settle outcome s) = disk s
  /\ waiting (settle outcome s) = waiting s
  /\ responses (settle outcome s) = responses s
  /\ next_request (settle outcome s) = next_request s.
Proof. unfold settle. destruct (flow s) eqn:E; cbn; rewrite ?E; auto 10. Qed.

Lemma server_close_flow (s : state) :
  flow (server_close s) = flow s
  /\ settlements (server_close s) = settlements s
  /\ disk (server_close s) = disk s
  /\ waiting (server_close s) = waiting s
  /\ responses (server_close s) = responses s
  /\ server (server_close s) <> Listening.
Proof.
  unfold server_close. destruct (server s) eqn:E; cbn; rewrite ?E;
    repeat split; auto; discriminate.
Qed.

Lemma server_close_idempotent (s : state) :
  server_close (server_close s) = server_close s.
Proof.
  unfold server_close. destruct (server s) eqn:E; cbn [server]; now rewrite ?E.
Qed.

Lemma settled_once_settle (outcome : promise) (s : state) :
  outcome <> Pending -> settled_once s -> settled_once (settle outcome s).
Proof.
  intros Ho [H1 H2]. unfold settled_once.
  destruct (settle_flow outcome s) as (-> & -> & _).
  destruct (flow s) eqn:E.
  - assert (settlements s = 0) by now apply H2. split; [lia|].
    split; [intros; contradiction | discriminate].
  - split; [exact H1|]. split; [discriminate|]. intros H. apply H2 in H. discriminate.
  - split; [exact H1|]. split; [discriminate|]. intros H. apply H2 in H. discriminate.
Qed.

(** Steps that leave promise and count alone keep [settled_once]. *)
Lemma settled_once_same (s s' : state) :
  flow s' = flow s -> settlements s' = settlements s ->
  settled_once s -> settled_once s'.
Proof. unfold settled_once. now intros -> ->. Qed.

Lemma step_cases (e : event) (s : state) : step_kind s (step config e s).
Proof.
  destruct e as [[u|m]|id [tokens|m]|id|id|m|]; cbn [step].
  - destruct (server s) eqn:Es; [| |now apply Quiet; auto];
      unfold on_request;
      (destruct (pathname u =? callback_path);
        [|apply Quiet; cbn; eauto]);
      (destruct (q_truthy (query_get "error" (query u)));
        [eapply Finishing; [| |reflexivity|..]; (discriminate || reflexivity)|]);
      (destruct (q_truthy (query_get "code" (query u))); cbn [negb];
        [apply Quiet; cbn; auto
        |eapply Finishing; [| |reflexivity|..]; (discriminate || reflexivity)]).
  - destruct (server s) eqn:Es; [| |now apply Quiet; auto];
      (eapply Finishing; [| |reflexivity|..]; (discriminate || reflexivity)).
  - destruct (find_waiting id (waiting s)) as [[c|t|t]|];
      apply Quiet; cbn; auto.
  - destruct (find_waiting id (waiting s)) as [[c|t|t]|];
      try (apply Quiet; cbn; now auto).
    eapply Finishing; [| |reflexivity|..]; (discriminate || reflexivity).
  - destruct (find_waiting id (waiting s)) as [[c|t|t]|];
      try (apply Quiet; cbn; now auto).
    cbn [resume disk].
    destruct (Fs.mkdir_recursive _ (disk s)); [apply Quiet; cbn; now auto|].
    eapply Finishing; [| |reflexivity|..]; (discriminate || reflexivity).
  - destruct (find_waiting id (waiting s)) as [[c|t|t]|];
      try (apply Quiet; cbn; now auto).
    cbn [resume disk].
    destruct (Fs.writeFile _ _ _ (disk s));
      (eapply Finishing; [| |reflexivity|..]; (discriminate || reflexivity)).
  - eapply Failing; [|reflexivity]. discriminate.
  - destruct (server s); apply Quiet; cbn; auto.
Qed.

Lemma settled_once_step (e : event) (s : state) :
  settled_once s -> settled_once (step config e s).
Proof.
  intros H.
  destruct (step_cases e s) as [Hf Hs _|outcome id status s0 Ho _ -> Hf Hs _
                               |outcome Ho ->].
  - now apply (settled_once_same s).
  - apply settled_once_settle; [exact Ho|].
    destruct (server_close_flow (respond id status s0)) as (Hf' & Hs' & _).
    apply (settled_once_same s); [now rewrite Hf' | now rewrite Hs' | exact H].
  - now apply settled_once_settle.
Qed.

Lemma settle_not_pending (outcome : promise) (s : state) :
  outcome <> Pending -> flow (settle outcome s) <> Pending.
Proof.
  intros Ho. destruct (settle_flow outcome s) as (-> & _).
  destruct (flow s); (exact Ho || discriminate).
Qed.

(** A promise that is settled stays as it is. *)
Lemma step_keeps_outcome (e : event) (s : state) :
  flow s <> Pending -> flow (step config e s) = flow s.
Proof.
  intros H.
  destruct (step_cases e s) as [Hf _ _|outcome id status s0 _ _ -> Hf _ _
                               |outcome _ ->].
  - exact Hf.
  - destruct (settle_flow outcome (server_close (respond id status s0))) as (-> & _).
    destruct (server_close_flow (respond id status s0)) as (-> & _).
    cbn [respond flow]. rewrite Hf. now destruct (flow s).
  - destruct (settle_flow outcome s) as (-> & _). now destruct (flow s).
Qed.

Lemma answered_settled_step (e : event) (s : state) :
  answered_settled s -> answered_settled (step config e s).
Proof.
  unfold answered_settled. intros H.
  destruct (step_cases e s) as [Hf _ Hr|outcome id status s0 Ho _ -> _ _ _
                               |outcome Ho ->].
  - rewrite Hf. intros (id & status & Hin & Hne). apply H.
    destruct Hr as [Hr|(id' & Hr)]; rewrite Hr in Hin.
    + now exists id, status.
    + destruct Hin as [[= _ <-]|Hin]; [contradiction|]. now exists id, status.
  - intros _. now apply settle_not_pending.
  - intros _. now apply settle_not_pending.
Qed.

Lemma run_cons (e : event) (events : list event) (s : state) :
  run config (e :: events) s = run config events (step config e s).
Proof. reflexivity. Qed.

Lemma answered_settled_run (events : list event) (s : state) :
  answered_settled s -> answered_settled (run config events s).
Proof.
  revert s. induction events as [|e events IH]; intros s H; [exact H|].
  rewrite run_cons. apply IH, answered_settled_step, H.
Qed.

Lemma run_keeps_outcome (events : list event) (s : state) :
  flow s <> Pending -> flow (run config events s) = flow s.
Proof.
  revert s. induction events as [|e events IH]; intros s H; [reflexivity|].
  rewrite run_cons.
  rewrite IH; [now apply step_keeps_outcome|].
  now rewrite step_keeps_outcome.
Qed.

Lemma run_app (e1 e2 : list event) (s : state) :
  run config (e1 ++ e2) s = run config e2 (run config e1 s).
Proof. unfold run. apply fold_left_app. Qed.

Lemma settled_once_run (events : list event) (s : state) :
  settled_once s -> settled_once (run config events s).
Proof.
  revert s. induction events as [|e events IH]; intros s H; [exact H|].
  rewrite run_cons. apply IH, settled_once_step, H.
Qed.

Lemma server_error_settles (events : list event) (s : state) (m : string) :
  In (ServerErrorEvent m) events -> flow (run config events s) <> Pending.
Proof.
  intros Hin. apply in_split in Hin as (e1 & e2 & ->).
  rewrite run_app, run_cons.
  assert (H : flow (step config (ServerErrorEvent m) (run config e1 s)) <> Pending).
  { cbn [step]. apply settle_not_pending. discriminate. }
  now rewrite run_keeps_outcome.
Qed.

Lemma settled_once_initial (d : gmap string Fs.node) : settled_once (initial d).
Proof. split; [cbn; lia | split; reflexivity]. Qed.

Lemma answered_settled_initial (d : gmap string Fs.node) :
  answered_settled (initial d).
Proof. intros (id & status & [] & _). Qed.

End FlowFacts.

Section FlowClaims.
Import Json Flow.

(** The scenario of the specification: a valid callback and a stray
    request; the flow resolves once, the token file is written. *)
Example flow_resolves_once :
  let s := run config1
             [Request (Ok callback_with_code); Request (Ok favicon);
              GetTokenSettled 0 (Ok record_setup); MkdirSettled 0;
              WriteFileSettled 0]
             (initial ∅) in
  flow s = Fulfilled /\ settlements s = 1
  /\ Manager.file_content "/tmp/t.json" (disk s) = Some (stringify record_setup)
  /\ responses s = [(0, 200); (1, 404)].
Proof. repeat split. Qed.

Example flow_denied :
  let s := run config1 [Request (Ok callback_denied)] (initial ∅) in
  flow s = Rejected (AuthorizationDenied "access_denied")
  /\ disk s = ∅ /\ server s = Closing.
Proof. repeat split. Qed.

(** Two callbacks that both fail: [reject] is called twice, the promise
    is settled once, by the first. *)
Example flow_rejected_twice :
  let s := run config1
             [Request (Ok callback_denied); Request (Ok callback_bare)]
             (initial ∅) in
  settle_calls s = 2 /\ settlements s = 1
  /\ flow s = Rejected (AuthorizationDenied "access_denied")
  /\ server_close s = s.
Proof. repeat split. Qed.

(** C7 as stated fails: an execution need not settle the promise at all.
    With no request, or with stray requests only, or while the exchange is
    still awaited, the count of settlements is 0, not 1. *)
Lemma flow_not_settled :
  settlements (run config1 [] (initial ∅)) = 0
  /\ settlements (run config1 [Request (Ok favicon); Request (Ok favicon)]
                    (initial ∅)) = 0
  /\ flow (run config1 [Request (Ok favicon); Request (Ok favicon)] (initial ∅))
     = Pending
  /\ settlements (run config1 [Request (Ok callback_with_code)] (initial ∅)) = 0.
Proof. repeat split. Qed.

(** C7, amended.  In every execution the promise of [startAuthFlow] is
    settled at most once, however many requests arrive and in whatever
    order their handlers run, and it is settled exactly once from the
    moment a response other than "not found" has been sent or the server
    has reported an error.  [server.close ()] on a server already closed
    changes nothing, and never settles the promise. *)
Theorem flow_settles_at_most_once (config : Manager.OAuth2Config)
    (d : gmap string Fs.node) (events : list event) :
  let s := run config events (initial d) in
  settlements s <= 1
  /\ (settlements s = 1 <-> flow s <> Pending)
  /\ (answered_callback s -> settlements s = 1)
  /\ (forall m, In (ServerErrorEvent m) events -> settlements s = 1)
  /\ (forall s' : state,
        server_close (server_close s') = server_close s'
        /\ flow (server_close s') = flow s'
        /\ settlements (server_close s') = settlements s').
Proof.
  cbv zeta.
  pose proof (settled_once_run config events _ (settled_once_initial d)) as [H1 H2].
  pose proof (answered_settled_run config events _ (answered_settled_initial d)) as H3.
  assert (Hiff : settlements (run config events (initial d)) = 1
                 <-> flow (run config events (initial d)) <> Pending).
  { rewrite H2. lia. }
  split; [exact H1|]. split; [exact Hiff|]. split; [|split].
  - intros Ha. apply Hiff, H3, Ha.
  - intros m Hm. apply Hiff. now apply (server_error_settles config events _ m).
  - intros s'. split; [apply server_close_idempotent|].
    destruct (server_close_flow s') as (Hf & Hs & _). now split.
Qed.

Lemma flow_settles_at_most_once_witness :
  settlements (run config1
                 [Request (Ok callback_denied); Request (Ok callback_with_code);
                  Request (Ok callback_bare)]
                 (initial ∅)) = 1.
Proof.
  destruct (flow_settles_at_most_once config1 ∅
              [Request (Ok callback_denied); Request (Ok callback_with_code);
               Request (Ok callback_bare)]) as (_ & _ & H & _).
  apply H. exists 0, 400. split; [vm_compute; auto | discriminate].
Defined.

Lemma q_truthy_query_get (k : string) (q : list (string * string)) :
  q_truthy (query_get k q) = false <->
  values_of k q = [] \/ values_of k q = [EmptyString].
Proof.
  unfold query_get. destruct (values_of k q) as [|v [|v' vs]]; cbn [q_truthy].
  - tauto.
  - rewrite negb_false_iff, String.eqb_eq.
    split; [intros ->; auto | intros [H|[= ->]]; [discriminate | reflexivity]].
  - split; [discriminate | intros [H|H]; discriminate].
Qed.

(** C6 as stated fails twice.  An [error] parameter that is present but
    empty does not fail the flow: the handler goes on to the exchange.
    And a denial that arrives when the flow has already resolved is
    answered with the failure page but leaves the flow resolved. *)
Lemma callback_error_without_denial :
  let s1 := step config1 (Request (Ok callback_empty_error)) (initial ∅) in
  let s2 := run config1
              [Request (Ok callback_with_code);
               GetTokenSettled 0 (Ok record_setup); MkdirSettled 0;
               WriteFileSettled 0; Request (Ok callback_denied)]
              (initial ∅) in
  values_of "error" (query callback_empty_error) = [EmptyString]
  /\ flow s1 = Pending
  /\ waiting s1 = [(0, AwaitGetToken (QString "abc123"))]
  /\ flow s2 = Fulfilled
  /\ responses s2 = [(1, 400); (0, 200)].
Proof. repeat split. Qed.

(** C6, amended.  For every request the listener receives whose URL
    parses: on the callback path with a truthy [error] parameter (present
    and not the empty string) the answer is the failure page, the server
    is closed and [reject] is called with [AuthorizationDenied] carrying
    the provider's error string, which fails the flow if it is still
    pending; otherwise, on the callback path with a falsy [code]
    parameter (missing or empty), the same with
    [MissingAuthorizationCode]; on any other path the answer is "not
    found" and promise, server, disk and waiting handlers are as
    before. *)
Theorem request_handler_cases (config : Manager.OAuth2Config) (s : state)
    (u : ParsedUrl) :
  server s <> Closed ->
  let id := next_request s in
  let s' := step config (Request (Ok u)) s in
  let error := query_get "error" (query u) in
  let code := query_get "code" (query u) in
  (pathname u = callback_path -> q_truthy error = true ->
     responses s' = (id, 400) :: responses s
     /\ server s' <> Listening
     /\ flow s' = match flow s with
                  | Pending => Rejected (AuthorizationDenied (q_to_string error))
                  | settled => settled
                  end)
  /\ (pathname u = callback_path -> q_truthy error = false ->
      q_truthy code = false ->
        responses s' = (id, 400) :: responses s
        /\ server s' <> Listening
        /\ flow s' = match flow s with
                     | Pending => Rejected MissingAuthorizationCode
                     | settled => settled
                     end)
  /\ (pathname u <> callback_path ->
        responses s' = (id, 404) :: responses s
        /\ flow s' = flow s /\ settlements s' = settlements s
        /\ server s' = server s /\ disk s' = disk s
        /\ waiting s' = waiting s)
  /\ (q_truthy error = false <->
        values_of "error" (query u) = []
        \/ values_of "error" (query u) = [EmptyString]).
Proof.
  intros Hs. cbv zeta.
  assert (Hstep : step config (Request (Ok u)) s
                  = on_request (next_request s) u (take_request s)).
  { cbn [step]. destruct (server s); [reflexivity..|contradiction]. }
  rewrite Hstep. unfold on_request, reject.
  split; [|split; [|split]].
  - intros Hp He. apply String.eqb_eq in Hp. rewrite Hp, He.
    destruct (settle_flow (Rejected (AuthorizationDenied
                (q_to_string (query_get "error" (query u)))))
                (server_close (respond (next_request s) 400 (take_request s))))
      as (-> & _ & -> & _ & _ & -> & _).
    destruct (server_close_flow (respond (next_request s) 400 (take_request s)))
      as (-> & _ & _ & _ & -> & Hl).
    split; [reflexivity|]. split; [exact Hl|]. reflexivity.
  - intros Hp He Hc. apply String.eqb_eq in Hp. rewrite Hp, He, Hc. cbn [negb].
    destruct (settle_flow (Rejected MissingAuthorizationCode)
                (server_close (respond (next_request s) 400 (take_request s))))
      as (-> & _ & -> & _ & _ & -> & _).
    destruct (server_close_flow (respond (next_request s) 400 (take_request s)))
      as (-> & _ & _ & _ & -> & Hl).
    split; [reflexivity|]. split; [exact Hl|]. reflexivity.
  - intros Hp. apply String.eqb_neq in Hp. rewrite Hp. repeat split.
  - apply q_truthy_query_get.
Qed.

Lemma request_handler_cases_witness :
  flow (step config1 (Request (Ok callback_denied)) (initial ∅))
  = Rejected (AuthorizationDenied "access_denied")
  /\ flow (step config1 (Request (Ok callback_bare)) (initial ∅))
     = Rejected MissingAuthorizationCode
  /\ flow (step config1 (Request (Ok favicon)) (initial ∅)) = Pending.
Proof.
  split; [|split].
  - destruct (request_handler_cases config1 (initial ∅) callback_denied)
      as (H & _); [discriminate|].
    destruct H as (_ & _ & H); [reflexivity..|]. exact H.
  - destruct (request_handler_cases config1 (initial ∅) callback_bare)
      as (_ & H & _); [discriminate|].
    destruct H as (_ & _ & H); [reflexivity..|]. exact H.
  - destruct (request_handler_cases config1 (initial ∅) favicon)
      as (_ & _ & H & _); [discriminate|].
    destruct H as (_ & H & _); [discriminate|]. exact H.
Defined.

(** *** What failures leave on the disk *)

Lemma finish_disk (outcome : promise) (id status : nat) (s : state) :
  disk (settle outcome (server_close (respond id status s))) = disk s
  /\ waiting (settle outcome (server_close (respond id status s))) = waiting s.
Proof.
  destruct (settle_flow outcome (server_close (respond id status s)))
    as (_ & _ & _ & -> & -> & _).
  destruct (server_close_flow (respond id status s)) as (_ & _ & -> & -> & _).
  split; reflexivity.
Qed.

Lemma find_waiting_exchange (id : nat) (l : list (nat * stage)) (st : stage) :
  exchanges_only l = true -> find_waiting id l = Some st ->
  awaits_exchange st = true.
Proof.
  induction l as [|[id' st'] l IH]; [discriminate|].
  cbn [exchanges_only forallb find_waiting snd]. intros H.
  apply andb_prop in H as [H1 H2].
  destruct (Nat.eqb id' id); [intros [= <-]; exact H1 | now apply IH].
Qed.

Lemma remove_waiting_exchange (id : nat) (l : list (nat * stage)) :
  exchanges_only l = true -> exchanges_only (remove_waiting id l) = true.
Proof.
  induction l as [|[id' st'] l IH]; [reflexivity|].
  cbn [exchanges_only forallb remove_waiting snd]. intros H.
  apply andb_prop in H as [H1 H2].
  destruct (Nat.eqb id' id); [now apply IH|].
  cbn [forallb snd]. rewrite H1. now apply IH.
Qed.

(** A step other than a successful exchange keeps the disk, as long as
    every waiting handler waits for its exchange, and keeps that so. *)
Lemma step_without_exchange (config : Manager.OAuth2Config) (e : event)
    (s : state) :
  exchange_succeeded e = false -> exchanges_only (waiting s) = true ->
  disk (step config e s) = disk s
  /\ exchanges_only (waiting (step config e s)) = true.
Proof.
  intros He Hw.
  destruct e as [[u|m]|id [tokens|m]|id|id|m|]; cbn [step]; try discriminate.
  - destruct (server s); [| |now split]; unfold on_request, reject;
      (destruct (pathname u =? callback_path); [|now split]);
      (destruct (q_truthy (query_get "error" (query u)));
        [destruct (finish_disk (Rejected (AuthorizationDenied
                     (q_to_string (query_get "error" (query u)))))
                     (next_request s) 400 (take_request s)) as [-> ->];
         now split|]);
      (destruct (q_truthy (query_get "code" (query u))); cbn [negb];
        [split; [reflexivity|]; cbn [await waiting take_request];
         cbn [exchanges_only forallb snd awaits_exchange]; exact Hw
        |destruct (finish_disk (Rejected MissingAuthorizationCode)
                     (next_request s) 400 (take_request s)) as [-> ->];
         now split]).
  - destruct (server s); [| |now split]; unfold on_server_error, reject;
      destruct (finish_disk (Rejected (ServerError m))
                  (next_request s) 500 (take_request s)) as [-> ->];
      now split.
  - destruct (find_waiting id (waiting s)) as [[c|t|t]|]; try now split.
    unfold on_token_error, reject.
    destruct (finish_disk (Rejected (TokenExchangeFailed (ExchangeRejected m)))
                id 500 (resume id s)) as [-> ->].
    split; [reflexivity|]. cbn [resume waiting].
    now apply remove_waiting_exchange.
  - destruct (find_waiting id (waiting s)) as [st|] eqn:E; [|now split].
    pose proof (find_waiting_exchange id _ st Hw E) as Hst.
    destruct st; try discriminate. now split.
  - destruct (find_waiting id (waiting s)) as [st|] eqn:E; [|now split].
    pose proof (find_waiting_exchange id _ st Hw E) as Hst.
    destruct st; try discriminate. now split.
  - unfold reject.
    destruct (settle_flow (Rejected (ListenerBindFailed m)) s)
      as (_ & _ & _ & -> & -> & _). now split.
  - destruct (server s); now split.
Qed.

Lemma run_without_exchange (config : Manager.OAuth2Config)
    (events : list event) (s : state) :
  (forall e, In e events -> exchange_succeeded e = false) ->
  exchanges_only (waiting s) = true ->
  disk (run config events s) = disk s.
Proof.
  revert s. induction events as [|e events IH]; intros s He Hw; [reflexivity|].
  rewrite run_cons.
  destruct (step_without_exchange config e s) as [Hd Hw'];
    [apply He; now left | exact Hw |].
  rewrite IH; [exact Hd | intros e' He'; apply He; now right | exact Hw'].
Qed.

Lemma step_exchange_disk (config : Manager.OAuth2Config) (s : state)
    (id : nat) (r : result string json) :
  disk (step config (GetTokenSettled id r) s) = disk s.
Proof.
  cbn [step]. destruct (find_waiting id (waiting s)) as [[c|t|t]|];
    try reflexivity.
  destruct r as [tokens|m]; [reflexivity|].
  unfold on_token_error, reject.
  now destruct (finish_disk (Rejected (TokenExchangeFailed (ExchangeRejected m)))
                  id 500 (resume id s)) as [-> _].
Qed.

Lemma step_request_disk (config : Manager.OAuth2Config) (s : state)
    (url : result string ParsedUrl) :
  disk (step config (Request url) s) = disk s.
Proof.
  cbn [step]. destruct (server s); try reflexivity;
    (destruct url as [u|m]; unfold on_request, on_server_error, reject;
     [destruct (pathname u =? callback_path); [|reflexivity];
      destruct (q_truthy (query_get "error" (query u)));
        [now destruct (finish_disk (Rejected (AuthorizationDenied
               (q_to_string (query_get "error" (query u)))))
               (next_request s) 400 (take_request s)) as [-> _]|];
      destruct (q_truthy (query_get "code" (query u))); cbn [negb];
        [reflexivity
        |now destruct (finish_disk (Rejected MissingAuthorizationCode)
               (next_request s) 400 (take_request s)) as [-> _]]
     |now destruct (finish_disk (Rejected (ServerError m))
               (next_request s) 500 (take_request s)) as [-> _]]).
Qed.

Lemma find_waiting_remove (id : nat) (l : list (nat * stage)) :
  find_waiting id (remove_waiting id l) = None.
Proof.
  induction l as [|[id' st] l IH]; [reflexivity|]. cbn [remove_waiting].
  destruct (Nat.eqb id' id) eqn:E; [exact IH|].
  cbn [find_waiting]. now rewrite E.
Qed.

(** The two file system steps of a handler, run back to back, do to the
    disk what [saveTokens] does. *)
Lemma handler_saves_like_saveTokens (config : Manager.OAuth2Config)
    (s : state) (id : nat) (tokens : json) (w : Manager.world) :
  find_waiting id (waiting s) = Some (AwaitMkdir tokens) ->
  Manager.disk w = disk s ->
  disk (run config [MkdirSettled id; WriteFileSettled id] s)
  = Manager.disk (snd (Manager.saveTokens config tokens w)).
Proof.
  intros Hfind Hdisk.
  assert (Hfin : forall o i st s0, disk (settle o (server_close (respond i st s0))) = disk s0).
  { intros. apply finish_disk. }
  unfold Manager.saveTokens, Manager.bind, Manager.emit, Manager.fs_update.
  cbn [Manager.disk Manager.credentials Manager.trace].
  rewrite Hdisk. unfold run. cbn [fold_left].
  assert (H1 : step config (MkdirSettled id) s
               = match Fs.mkdir_recursive (Path.dirname (Manager.tokenPath config))
                         (disk s) with
                 | Ok d => await id (AwaitWriteFile tokens) (set_disk d (resume id s))
                 | Err e => on_token_error id
                              (NotSaved (Manager.TokenStorageWriteFailed e))
                              (resume id s)
                 end).
  { cbn [step]. now rewrite Hfind. }
  rewrite H1. clear H1.
  destruct (Fs.mkdir_recursive _ (disk s)) as [d1|e1].
  - cbn [step await waiting find_waiting]. rewrite Nat.eqb_refl.
    change (disk (resume id (await id (AwaitWriteFile tokens)
                               (set_disk d1 (resume id s))))) with d1.
    cbn [Manager.disk Manager.credentials Manager.trace].
    destruct (Fs.writeFile _ _ _ d1) as [d2|e2]; cbn [snd Manager.disk];
      unfold on_saved, resolve, on_token_error, reject; rewrite Hfin; reflexivity.
  - cbn [snd]. unfold on_token_error, reject.
    cbn [step].
    rewrite (proj2 (finish_disk _ id 500 (resume id s))).
    cbn [resume waiting]. rewrite find_waiting_remove. now rewrite Hfin.
Qed.

(** C2 as stated fails for [startAuthFlow]: handlers of several requests
    run interleaved, and the token file is written by the handler whose
    exchange succeeds, whatever has become of the flow.  In the first
    execution a denial arrives while the exchange of an earlier callback is
    under way: the flow fails with [AuthorizationDenied] and the file is
    written.  In the second the code arrives twice, one exchange is
    rejected, the other succeeds afterwards: the flow fails with
    [TokenExchangeFailed] and the file is written. *)
Lemma failed_flow_with_token_file :
  let s1 := run config1
              [Request (Ok callback_with_code); Request (Ok callback_denied);
               GetTokenSettled 0 (Ok record_setup); MkdirSettled 0;
               WriteFileSettled 0]
              (initial ∅) in
  let s2 := run config1
              [Request (Ok callback_with_code); Request (Ok callback_with_code);
               GetTokenSettled 1 (Err "invalid_grant");
               GetTokenSettled 0 (Ok record_setup); MkdirSettled 0;
               WriteFileSettled 0]
              (initial ∅) in
  Manager.file_content "/tmp/t.json" (disk (initial ∅)) = None
  /\ flow s1 = Rejected (AuthorizationDenied "access_denied")
  /\ Manager.file_content "/tmp/t.json" (disk s1) = Some (stringify record_setup)
  /\ flow s2 = Rejected (TokenExchangeFailed (ExchangeRejected "invalid_grant"))
  /\ Manager.file_content "/tmp/t.json" (disk s2) = Some (stringify record_setup).
Proof. repeat split. Qed.

(** C2, amended.  No step of a request handler up to and including the
    settling of its exchange touches the disk, so a handler that ends in
    [AuthorizationDenied] or [MissingAuthorizationCode], or whose exchange
    is rejected, writes nothing; an execution of [startAuthFlow] in which
    no exchange succeeds leaves the disk as it was, so no token file is
    written; and a run of [getAuthClient] that ends with the refresh
    rejected leaves the disk, and with it the token file, as it was. *)
Theorem failures_write_nothing (config : Manager.OAuth2Config) :
  (forall (s : state) (url : result string ParsedUrl),
     disk (step config (Request url) s) = disk s)
  /\ (forall (s : state) (id : nat) (r : result string json),
        disk (step config (GetTokenSettled id r) s) = disk s)
  /\ (forall (d : gmap string Fs.node) (events : list event),
        (forall e, In e events -> exchange_succeeded e = false) ->
        disk (run config events (initial d)) = d)
  /\ (forall (refreshAccessToken : json -> result string json) (now : Z)
             (w : Manager.world) (message : string),
        fst (Manager.getAuthClient refreshAccessToken config now w)
        = Err (Manager.TokenRefreshFailed (Manager.ProviderRejected message)) ->
        Manager.disk (snd (Manager.getAuthClient refreshAccessToken config now w))
        = Manager.disk w).
Proof.
  split; [|split; [|split]].
  - apply step_request_disk.
  - apply step_exchange_disk.
  - intros d events He. now rewrite run_without_exchange.
  - intros refreshAccessToken now w message.
    apply getAuthClient_refresh_rejected.
Qed.

Lemma failures_write_nothing_witness :
  disk (run config1
          [Request (Ok callback_with_code); Request (Ok callback_denied);
           GetTokenSettled 0 (Err "invalid_grant"); MkdirSettled 0]
          (initial ∅)) = ∅
  /\ Manager.disk (snd (Manager.getAuthClient (fun _ => Err "invalid_grant")
                          config1 1700000000000
                          (Manager.fresh_world (disk_with record_setup))))
     = disk_with record_setup.
Proof.
  destruct (failures_write_nothing config1) as (_ & _ & Hflow & Hrefresh).
  split.
  - apply Hflow. intros e He. cbn in He.
    destruct He as [<-|[<-|[<-|[<-|[]]]]]; reflexivity.
  - apply (Hrefresh (fun _ => Err "invalid_grant") 1700000000000%Z
             (Manager.fresh_world (disk_with record_setup)) "invalid_grant").
    vm_compute. reflexivity.
Defined.

End FlowClaims.

(* ===================================================================== *)
(** * Further properties of the code                                      *)
(* ===================================================================== *)

(** The scan of the command line and what [main] makes of it, what
    [saveTokens] and [getAuthClient] do to the disk and to the client, the
    refresh-token-only variant, invariants of every execution of the
    authorization flow, and the tool call handler. *)

Section PathResults.
Import Path.

Lemma append_nonempty_l (a b : string) : a <> "" -> a ++ b <> "".
Proof. destruct a; [contradiction | discriminate]. Qed.

Lemma normalize_nonempty (p : string) : normalize p <> "".
Proof.
  unfold normalize.
  destruct (p =? ""); [discriminate|].
  destruct (String.eqb_spec (normalizeString p (negb (starts_with_slash p))) "")
    as [_|Hq].
  - destruct (starts_with_slash p); [discriminate|].
    destruct (ends_with_slash p); discriminate.
  - destruct (starts_with_slash p); [discriminate|].
    destruct (ends_with_slash p); [|exact Hq].
    now apply append_nonempty_l.
Qed.

Lemma join_nonempty (a b : string) : join a b <> "".
Proof.
  unfold join. destruct (a =? ""); destruct (b =? "");
    (discriminate || apply normalize_nonempty).
Qed.

End PathResults.

Section CliScan.
Import Cli.

Lemma parse_loop_app :
  forall (n : nat) (pre post : list string) (o : CliOptions),
    List.length pre <= n -> awaits_value pre = false ->
    parse_loop (pre ++ post) o = parse_loop post (parse_loop pre o).
Proof.
  induction n as [|n IH]; intros pre post o Hlen Hw.
  - destruct pre; [reflexivity | simpl in Hlen; lia].
  - destruct pre as [|a rest]; [reflexivity|].
    simpl in Hlen. cbn [awaits_value] in Hw.
    change ((a :: rest) ++ post)%list with (a :: (rest ++ post))%list.
    assert (Hval : forall set_g : string -> CliOptions -> CliOptions,
              is_value_flag a = true ->
              match (rest ++ post)%list with
              | v :: rest' => parse_loop rest' (set_g v o)
              | [] => parse_loop (rest ++ post) o
              end
              = parse_loop post
                  match rest with
                  | v :: rest' => parse_loop rest' (set_g v o)
                  | [] => parse_loop rest o
                  end).
    { intros set_g Ha. rewrite Ha in Hw.
      destruct rest as [|v r']; [discriminate|]. cbn [app].
      apply IH; [simpl in Hlen; lia | exact Hw]. }
    cbn [parse_loop]. unfold is_value_flag in Hval, Hw.
    destruct (a =? "--client-id"); [now apply Hval|].
    destruct (a =? "--client-secret"); [now apply Hval|].
    destruct (a =? "--token-path"); [now apply Hval|].
    cbn [orb] in Hw.
    destruct ((a =? "-h") || (a =? "--help")); [apply IH; [lia|exact Hw]|].
    destruct (a =? "setup"); [apply IH; [lia|exact Hw]|].
    destruct (a =? "server"); apply IH; (lia || exact Hw).
Qed.

Lemma parse_loop_split (pre post : list string) (o : CliOptions) :
  awaits_value pre = false ->
  parse_loop (pre ++ post) o = parse_loop post (parse_loop pre o).
Proof. intros H. now apply (parse_loop_app (List.length pre)). Qed.

Lemma keyword_cases (x : string) :
  ~ In x keywords ->
  (x =? "--client-id") = false /\ (x =? "--client-secret") = false
  /\ (x =? "--token-path") = false /\ (x =? "-h") = false
  /\ (x =? "--help") = false /\ (x =? "setup") = false
  /\ (x =? "server") = false.
Proof.
  intros H. repeat split; apply String.eqb_neq; intros ->; apply H;
    cbn; tauto.
Qed.

Lemma default_case_inert (x : string) (o : CliOptions) :
  (x =? "setup") = false -> (x =? "server") = false -> default_case x o = o.
Proof.
  intros H1 H2. unfold default_case. rewrite H1, H2.
  now destruct (negb (String.prefix "-" x) && command_falsy o).
Qed.

(** X1.  An argument the switch has no case for changes nothing, wherever
    the scan meets it as an argument of its own. *)
Theorem parseCliOptions_ignores_unknown (pre post : list string) (x : string) :
  awaits_value pre = false -> ~ In x keywords ->
  parseCliOptions (pre ++ x :: post) = parseCliOptions (pre ++ post).
Proof.
  intros Hw Hx. unfold parseCliOptions.
  rewrite !parse_loop_split by exact Hw.
  destruct (keyword_cases x Hx) as (H1 & H2 & H3 & H4 & H5 & H6 & H7).
  cbn [parse_loop]. rewrite H1, H2, H3, H4, H5, H6, H7. cbn [orb].
  now rewrite default_case_inert.
Qed.

Lemma parseCliOptions_ignores_unknown_witness :
  parseCliOptions (["--client-id"; "c1"] ++ "--verbose" :: ["setup"])
  = parseCliOptions (["--client-id"; "c1"] ++ ["setup"]).
Proof.
  apply (parseCliOptions_ignores_unknown ["--client-id"; "c1"] ["setup"] "--verbose").
  - reflexivity.
  - cbn. intros H. repeat destruct H as [H|H]; try discriminate H. exact H.
Defined.

(** The scan leaves the option of a value-taking flag alone when the flag
    is not among the arguments. *)
Lemma parse_loop_keeps_flag (f : string) :
  In f value_flags ->
  forall (n : nat) (args : list string) (o : CliOptions),
    List.length args <= n -> ~ In f args ->
    flag_option f (parse_loop args o) = flag_option f o.
Proof.
  intros Hf. induction n as [|n IH]; intros args o Hlen Hnot.
  - destruct args; [reflexivity | simpl in Hlen; lia].
  - destruct args as [|a rest]; [reflexivity|].
    assert (Haf : a <> f) by (intros ->; apply Hnot; now left).
    assert (Hrest : ~ In f rest) by (intros H; apply Hnot; now right).
    simpl in Hlen.
    assert (Hskip : forall o', flag_option f o' = flag_option f o ->
              flag_option f (parse_loop rest o') = flag_option f o).
    { intros o' Ho'. rewrite IH; [exact Ho' | lia | exact Hrest]. }
    assert (Hval : forall set_g : string -> CliOptions -> CliOptions,
              (forall v o', flag_option f (set_g v o') = flag_option f o') ->
              flag_option f
                (match rest with
                 | v :: rest' => parse_loop rest' (set_g v o)
                 | [] => parse_loop rest o
                 end) = flag_option f o).
    { intros set_g Hset. destruct rest as [|v r']; [reflexivity|].
      rewrite IH; [apply Hset | simpl in Hlen; lia |].
      intros H; apply Hrest; now right. }
    cbn [parse_loop].
    destruct (String.eqb_spec a "--client-id") as [->|H1].
    { apply Hval. intros v o'.
      apply value_flag_cases in Hf as [->|[->| ->]]; [congruence|reflexivity..]. }
    destruct (String.eqb_spec a "--client-secret") as [->|H2].
    { apply Hval. intros v o'.
      apply value_flag_cases in Hf as [->|[->| ->]]; [|congruence|]; reflexivity. }
    destruct (String.eqb_spec a "--token-path") as [->|H3].
    { apply Hval. intros v o'.
      apply value_flag_cases in Hf as [->|[->| ->]]; [..|congruence]; reflexivity. }
    destruct ((a =? "-h") || (a =? "--help")); [now apply Hskip|].
    destruct (a =? "setup"); [now apply Hskip|].
    destruct (a =? "server"); [now apply Hskip|].
    apply Hskip, flag_option_default_case.
Qed.

(** X2.  The value of an option is the argument right after the last
    occurrence of its flag, whatever that argument looks like. *)
Theorem parseCliOptions_flag_value (pre post : list string) (f v : string) :
  In f value_flags -> awaits_value pre = false -> ~ In f post ->
  flag_option f (parseCliOptions (pre ++ f :: v :: post)) = Val v.
Proof.
  intros Hf Hw Hpost. rewrite flag_option_parseCliOptions.
  rewrite parse_loop_split by exact Hw.
  assert (Hstep : exists o',
            parse_loop (f :: v :: post) (parse_loop pre empty_options)
            = parse_loop post o' /\ flag_option f o' = Val v).
  { apply value_flag_cases in Hf as [->|[->| ->]];
      eexists; (split; [reflexivity|reflexivity]). }
  destruct Hstep as (o' & -> & Ho').
  rewrite (parse_loop_keeps_flag f Hf (List.length post)); [exact Ho'|lia|exact Hpost].
Qed.

Lemma parseCliOptions_flag_value_witness :
  flag_option "--client-id"
    (parseCliOptions (["--client-id"; "old"] ++ "--client-id" :: "setup" :: ["--help"]))
  = Val "setup".
Proof.
  apply (parseCliOptions_flag_value ["--client-id"; "old"] ["--help"]
           "--client-id" "setup").
  - cbn. auto.
  - reflexivity.
  - cbn. intros [H|[]]. discriminate.
Defined.

(** X3.  The command is the last command word the scan meets as an argument
    of its own. *)
Theorem parseCliOptions_last_command (pre post : list string) (word : string) :
  word = "setup" \/ word = "server" -> awaits_value pre = false ->
  ~ In "setup" post -> ~ In "server" post ->
  command (parseCliOptions (pre ++ word :: post)) = Val (command_of word).
Proof.
  intros Hword Hw Hs Hv. unfold parseCliOptions.
  rewrite parse_loop_split by exact Hw.
  assert (Hstep : exists o',
            parse_loop (word :: post) (parse_loop pre empty_options)
            = parse_loop post o' /\ command o' = Val (command_of word)).
  { destruct Hword as [-> | ->]; eexists; (split; [reflexivity|reflexivity]). }
  destruct Hstep as (o' & -> & Ho').
  pose proof (parse_loop_no_command (List.length post) post o'
                (Nat.le_refl _) Hs Hv) as Hc.
  unfold command_falsy. rewrite Hc, Ho'. rewrite Hc. exact Ho'.
Qed.

Lemma parseCliOptions_last_command_witness :
  command (parseCliOptions (["server"; "--token-path"; "server"]
                            ++ "setup" :: ["--client-id"; "x"]))
  = Val setup.
Proof.
  apply (parseCliOptions_last_command ["server"; "--token-path"; "server"]
           ["--client-id"; "x"] "setup").
  - now left.
  - reflexivity.
  - cbn. intros [H|[H|[]]]; discriminate.
  - cbn. intros [H|[H|[]]]; discriminate.
Defined.

Lemma parse_loop_flag (f v : string) (rest : list string) (o : CliOptions) :
  In f value_flags ->
  parse_loop (f :: v :: rest) o = parse_loop rest (set_flag f v o).
Proof.
  intros Hf. apply value_flag_cases in Hf as [->|[->| ->]]; reflexivity.
Qed.

Lemma set_flag_commute (f g v u : string) (o : CliOptions) :
  In f value_flags -> In g value_flags -> f <> g ->
  set_flag f v (set_flag g u o) = set_flag g u (set_flag f v o).
Proof.
  intros Hf Hg Hne.
  apply value_flag_cases in Hf as [->|[->| ->]];
    apply value_flag_cases in Hg as [->|[->| ->]];
    (reflexivity || now contradiction Hne).
Qed.

(** X4.  The order of two different value-taking flags, each with its
    value, does not matter: swapping two such neighbours that the scan
    reads as flags leaves the result as it is. *)
Theorem parseCliOptions_flag_order (pre post : list string) (f g v u : string) :
  In f value_flags -> In g value_flags -> f <> g ->
  awaits_value pre = false ->
  parseCliOptions (pre ++ f :: v :: g :: u :: post)
  = parseCliOptions (pre ++ g :: u :: f :: v :: post).
Proof.
  intros Hf Hg Hne Hw. unfold parseCliOptions.
  rewrite !parse_loop_split by exact Hw.
  rewrite (parse_loop_flag f v _ _ Hf), (parse_loop_flag g u _ _ Hg).
  rewrite (parse_loop_flag g u _ _ Hg), (parse_loop_flag f v _ _ Hf).
  now rewrite (set_flag_commute g f u v _ Hg Hf) by congruence.
Qed.

Lemma parseCliOptions_flag_order_witness :
  parseCliOptions (["setup"] ++ "--client-id" :: "c1" :: "--client-secret" :: "s1" :: [])
  = parseCliOptions (["setup"] ++ "--client-secret" :: "s1" :: "--client-id" :: "c1" :: []).
Proof.
  apply (parseCliOptions_flag_order ["setup"] [] "--client-id" "--client-secret"
           "c1" "s1").
  - cbn. auto.
  - cbn. auto.
  - discriminate.
  - reflexivity.
Defined.

End CliScan.


Section MainFacts.
Import Cli Main.

Lemma or_else_nonempty (a : field string) (b : string) :
  b <> "" -> or_else a b <> "".
Proof.
  intros Hb. unfold or_else, truthy_string. destruct a as [| |s]; try exact Hb.
  destruct (String.eqb_spec s ""); [exact Hb | assumption].
Qed.

Lemma mergeConfig_tokenPath (home : string) (cliOptions envOptions : CliOptions) :
  exists p, tokenPath (mergeConfig home cliOptions envOptions) = Val p /\ p <> "".
Proof.
  eexists. split; [reflexivity|].
  apply or_else_nonempty, or_else_nonempty, join_nonempty.
Qed.

Lemma truthy_nonempty (p : string) : p <> "" -> truthy (Val p) = true.
Proof.
  intros H. cbn [truthy]. unfold truthy_string.
  now destruct (String.eqb_spec p "").
Qed.

Lemma validateConfig_server (config : CliOptions) :
  is_command server config = true -> truthy (tokenPath config) = true ->
  validateConfig config = {| isValid := true; errors := [] |}.
Proof.
  intros Hc Ht. unfold validateConfig. rewrite Hc.
  assert (Hs : is_command setup config = false).
  { unfold is_command in *.
    destruct (command config) as [| |[|]]; (reflexivity || discriminate). }
  now rewrite Hs, Ht.
Qed.

(** X5.  After [mergeConfig] the token path is a non-empty string, whatever
    the command line, the environment and the home directory are; so the
    check of [validateConfig] for the server command cannot fail on a merged
    configuration. *)
Theorem merged_server_config_is_valid (home : string)
    (cliOptions envOptions : CliOptions) :
  is_command server (mergeConfig home cliOptions envOptions) = true ->
  validateConfig (mergeConfig home cliOptions envOptions)
  = {| isValid := true; errors := [] |}
  /\ given_nonempty (tokenPath (mergeConfig home cliOptions envOptions)).
Proof.
  intros Hc.
  destruct (mergeConfig_tokenPath home cliOptions envOptions) as (p & Hp & Hne).
  split; [|now exists p].
  apply validateConfig_server; [exact Hc|].
  rewrite Hp. now apply truthy_nonempty.
Qed.

Lemma merged_server_config_is_valid_witness :
  validateConfig (mergeConfig "" (parseCliOptions ["--token-path"; ""])
                              (loadEnvConfig (mkEnv None None (Some ""))))
  = {| isValid := true; errors := [] |}.
Proof.
  apply (merged_server_config_is_valid ""
           (parseCliOptions ["--token-path"; ""])
           (loadEnvConfig (mkEnv None None (Some "")))).
  reflexivity.
Defined.

Lemma help_default_case (a : string) (o : CliOptions) :
  help (default_case a o) = help o.
Proof.
  unfold default_case.
  destruct (negb (String.prefix "-" a) && command_falsy o); [|reflexivity].
  destruct (a =? "setup"); [reflexivity|].
  destruct (a =? "server"); reflexivity.
Qed.

(** Nothing in the scan takes the help flag back. *)
Lemma parse_loop_help_kept :
  forall (n : nat) (args : list string) (o : CliOptions),
    List.length args <= n -> help o = Val true ->
    help (parse_loop args o) = Val true.
Proof.
  induction n as [|n IH]; intros args o Hlen Ho.
  - destruct args; [exact Ho | simpl in Hlen; lia].
  - destruct args as [|a rest]; [exact Ho|]. simpl in Hlen.
    assert (Hval : forall set_g : string -> CliOptions -> CliOptions,
              (forall v o', help (set_g v o') = help o') ->
              help (match rest with
                    | v :: rest' => parse_loop rest' (set_g v o)
                    | [] => parse_loop rest o
                    end) = Val true).
    { intros set_g Hset. destruct rest as [|v r']; [exact Ho|].
      apply IH; [simpl in Hlen; lia | now rewrite Hset]. }
    cbn [parse_loop].
    destruct (a =? "--client-id"); [now apply Hval|].
    destruct (a =? "--client-secret"); [now apply Hval|].
    destruct (a =? "--token-path"); [now apply Hval|].
    destruct ((a =? "-h") || (a =? "--help")); [apply IH; [lia|reflexivity]|].
    destruct (a =? "setup"); [apply IH; [lia|exact Ho]|].
    destruct (a =? "server"); [apply IH; [lia|exact Ho]|].
    apply IH; [lia|]. now rewrite help_default_case.
Qed.

(** The help flag is set by [-h] and [--help] only. *)
Lemma parse_loop_help_origin :
  forall (n : nat) (args : list string) (o : CliOptions),
    List.length args <= n -> help (parse_loop args o) = Val true ->
    help o = Val true \/ In "-h" args \/ In "--help" args.
Proof.
  induction n as [|n IH]; intros args o Hlen H.
  - destruct args; [now left | simpl in Hlen; lia].
  - destruct args as [|a rest]; [now left|]. simpl in Hlen.
    assert (Hskip : forall o', help o' = help o ->
              help (parse_loop rest o') = Val true ->
              help o = Val true \/ In "-h" (a :: rest) \/ In "--help" (a :: rest)).
    { intros o' Ho' H'. apply IH in H'; [|lia]. rewrite Ho' in H'.
      cbn [In]. tauto. }
    assert (Hval : forall set_g : string -> CliOptions -> CliOptions,
              (forall v o', help (set_g v o') = help o') ->
              help (match rest with
                    | v :: rest' => parse_loop rest' (set_g v o)
                    | [] => parse_loop rest o
                    end) = Val true ->
              help o = Val true \/ In "-h" (a :: rest) \/ In "--help" (a :: rest)).
    { intros set_g Hset H'. destruct rest as [|v r']; [now left|].
      apply IH in H'; [|simpl in Hlen; lia]. rewrite Hset in H'.
      cbn [In]. tauto. }
    cbn [parse_loop] in H.
    destruct (a =? "--client-id"); [now apply (Hval set_clientId)|].
    destruct (a =? "--client-secret"); [now apply (Hval set_clientSecret)|].
    destruct (a =? "--token-path"); [now apply (Hval set_tokenPath)|].
    destruct (String.eqb_spec a "-h") as [->|_]; [cbn [In]; tauto|].
    destruct (String.eqb_spec a "--help") as [->|_]; [cbn [In]; tauto|].
    cbn [orb] in H.
    destruct (a =? "setup"); [now apply (Hskip (set_command setup o))|].
    destruct (a =? "server"); [now apply (Hskip (set_command server o))|].
    apply (Hskip (default_case a o)); [apply help_default_case | exact H].
Qed.

Lemma skipn_argv (node script : string) (args : list string) :
  skipn 2 (node :: script :: args) = args.
Proof. reflexivity. Qed.

Lemma help_parseCliOptions (args : list string) :
  help (parseCliOptions args) = help (parse_loop args empty_options).
Proof. unfold parseCliOptions. now destruct (command_falsy _). Qed.

(** X6.  [main] shows the help and stops, before any validation, as soon as
    [-h] or [--help] is met as an argument of its own, whatever else the
    command line, the environment and the home directory hold; and it shows
    the help only when one of the two is among the arguments. *)
Theorem main_help (node script : string) (env : Env) (home : string) :
  (forall (pre post : list string) (h : string),
     h = "-h" \/ h = "--help" -> awaits_value pre = false ->
     main (node :: script :: pre ++ h :: post) env home = ShowHelp)
  /\ (forall args : list string,
        main (node :: script :: args) env home = ShowHelp ->
        In "-h" args \/ In "--help" args).
Proof.
  split.
  - intros pre post h Hh Hw. unfold main. rewrite skipn_argv.
    assert (H : help (parseCliOptions (pre ++ h :: post)) = Val true).
    { rewrite help_parseCliOptions, parse_loop_split by exact Hw.
      assert (Hstep : parse_loop (h :: post) (parse_loop pre empty_options)
                      = parse_loop post (set_help true (parse_loop pre empty_options))).
      { destruct Hh as [-> | ->]; reflexivity. }
      rewrite Hstep. now apply (parse_loop_help_kept (List.length post)). }
    unfold help_truthy. now rewrite H.
  - intros args. unfold main. rewrite skipn_argv.
    destruct (help_truthy (parseCliOptions args)) eqn:E.
    + intros _. unfold help_truthy in E. rewrite help_parseCliOptions in E.
      destruct (help (parse_loop args empty_options)) as [| |[|]] eqn:Eh;
        try discriminate.
      apply (parse_loop_help_origin (List.length args)) in Eh; [|lia].
      destruct Eh as [Eh|Eh]; [discriminate | exact Eh].
    + destruct (negb _); [discriminate|].
      destruct (is_command setup _); [discriminate|].
      destruct (is_command server _); discriminate.
Qed.

Lemma main_help_witness :
  main ("node" :: "index.js" :: ["setup"; "--client-id"; "c1"] ++ "--help" :: ["--nonsense"])
       (mkEnv None None None) "/home/u" = ShowHelp.
Proof.
  destruct (main_help "node" "index.js" (mkEnv None None None) "/home/u") as [H _].
  apply (H ["setup"; "--client-id"; "c1"] ["--nonsense"] "--help").
  - now right.
  - reflexivity.
Defined.

Lemma command_merged (home : string) (cliOptions : CliOptions) (env : Env)
    (c : Command) :
  command cliOptions = Val c ->
  command (mergeConfig home cliOptions (loadEnvConfig env)) = Val c.
Proof. intros H. cbn. now rewrite H. Qed.

(** X7.  In server mode [main] always goes on to [getAuthClient]: validation
    cannot fail, the manager gets a non-empty token path, namely the
    [--token-path] value, else [GSC_TOKEN_PATH], else the default, each
    skipped when empty, and a client id and secret that are strings, the
    empty one when none is given. *)
Theorem main_server_always_starts (argv : list string) (env : Env)
    (home : string) :
  let cliOptions := parseCliOptions (skipn 2 argv) in
  help_truthy cliOptions = false -> command cliOptions = Val server ->
  exists id secret path,
    main argv env home = GetAuthClient (mkArg (Val id) (Val secret) (Val path))
    /\ path <> ""
    /\ path = or_else (tokenPath cliOptions)
                (or_else (env_field (GSC_TOKEN_PATH env)) (default_token_path home))
    /\ id = or_else (spread (env_field (GSC_CLIENT_ID env)) (clientId cliOptions)) ""
    /\ secret = or_else (spread (env_field (GSC_CLIENT_SECRET env))
                           (clientSecret cliOptions)) "".
Proof.
  cbv zeta. intros Hh Hc.
  pose proof (command_merged home _ env server Hc) as Hm.
  assert (Hserver : is_command server
            (mergeConfig home (parseCliOptions (skipn 2 argv)) (loadEnvConfig env))
          = true).
  { unfold is_command. now rewrite Hm. }
  destruct (mergeConfig_tokenPath home (parseCliOptions (skipn 2 argv))
              (loadEnvConfig env)) as (p & Hp & Hne).
  assert (Hvalid : validateConfig
            (mergeConfig home (parseCliOptions (skipn 2 argv)) (loadEnvConfig env))
          = {| isValid := true; errors := [] |}).
  { apply validateConfig_server; [exact Hserver|].
    rewrite Hp. now apply truthy_nonempty. }
  do 3 eexists. split; [|split; [|split; [|split; reflexivity]]].
  - unfold main. rewrite Hh, Hvalid. cbn [isValid negb].
    unfold is_command at 1. rewrite Hm. cbn [Command_eqb].
    rewrite Hserver. reflexivity.
  - cbn [mergeConfig tokenPath]. 
    apply or_else_nonempty, or_else_nonempty, join_nonempty.
  - reflexivity.
Qed.

Lemma main_server_always_starts_witness :
  exists id secret path,
    main ["node"; "index.js"; "--token-path"; ""] (mkEnv None None None) "/home/u"
    = GetAuthClient (mkArg (Val id) (Val secret) (Val path))
    /\ path <> "".
Proof.
  destruct (main_server_always_starts ["node"; "index.js"; "--token-path"; ""]
              (mkEnv None None None) "/home/u")
    as (id & secret & path & H & Hne & _).
  - reflexivity.
  - reflexivity.
  - exists id, secret, path. now split.
Defined.

Lemma err_client_distinct : err_client_id <> err_client_secret.
Proof. intros H. apply (f_equal String.length) in H. vm_compute in H. discriminate. Qed.

(** X8.  In setup mode [main] starts the authorization flow exactly when the
    merged client id and client secret are non-empty strings, and then the
    manager gets these two, each the value of the command line when the
    flag is there and of the environment otherwise, and a non-empty token
    path, the [--token-path] value, else [GSC_TOKEN_PATH], else the
    default; otherwise it shows the errors of the missing ones, the client
    id first, and stops. *)
Theorem main_setup_requires_credentials (argv : list string) (env : Env)
    (home : string) :
  let cliOptions := parseCliOptions (skipn 2 argv) in
  let config := mergeConfig home cliOptions (loadEnvConfig env) in
  help_truthy cliOptions = false -> command cliOptions = Val setup ->
  (given_nonempty (clientId config) -> given_nonempty (clientSecret config) ->
     exists id secret path,
       main argv env home = StartAuthFlow (mkArg (Val id) (Val secret) (Val path))
       /\ Val id = spread (env_field (GSC_CLIENT_ID env)) (clientId cliOptions)
       /\ Val secret = spread (env_field (GSC_CLIENT_SECRET env))
                         (clientSecret cliOptions)
       /\ path = or_else (tokenPath cliOptions)
                   (or_else (env_field (GSC_TOKEN_PATH env)) (default_token_path home))
       /\ id <> "" /\ secret <> "" /\ path <> "")
  /\ (~ (given_nonempty (clientId config) /\ given_nonempty (clientSecret config)) ->
      exists errs,
        main argv env home = ShowErrors errs
        /\ errs <> []
        /\ (In err_client_id errs <-> ~ given_nonempty (clientId config))
        /\ (In err_client_secret errs <-> ~ given_nonempty (clientSecret config))
        /\ (forall e, In e errs -> e = err_client_id \/ e = err_client_secret)
        /\ (errs = [err_client_id; err_client_secret] \/ List.length errs = 1)).
Proof.
  cbv zeta. intros Hh Hc.
  pose proof (command_merged home _ env setup Hc) as Hm.
  set (config := mergeConfig home (parseCliOptions (skipn 2 argv)) (loadEnvConfig env)) in *.
  assert (Hsetup : is_command setup config = true).
  { unfold is_command. now rewrite Hm. }
  assert (Hmain : main argv env home
                  = if negb (isValid (validateConfig config))
                    then ShowErrors (errors (validateConfig config))
                    else StartAuthFlow (mkArg (clientId config) (clientSecret config)
                                              (tokenPath config))).
  { unfold main. rewrite Hh. fold config. now rewrite Hsetup. }
  assert (Herrs : errors (validateConfig config)
                  = ((if truthy (clientId config) then [] else [err_client_id])
                     ++ (if truthy (clientSecret config) then [] else [err_client_secret]))%list).
  { unfold validateConfig. now rewrite Hsetup. }
  assert (Hvalid : isValid (validateConfig config)
                   = Nat.eqb (List.length (errors (validateConfig config))) 0).
  { reflexivity. }
  pose proof err_client_distinct as Hd.
  split.
  - intros Hid Hsec.
    pose proof Hid as (id & Eid & Hidne). pose proof Hsec as (sec & Esec & Hsecne).
    apply truthy_given in Hid, Hsec.
    exists id, sec,
      (or_else (tokenPath (parseCliOptions (skipn 2 argv)))
         (or_else (env_field (GSC_TOKEN_PATH env)) (default_token_path home))).
    rewrite Hmain, Hvalid, Herrs, Hid, Hsec.
    cbn [app List.length Nat.eqb negb]. rewrite Eid, Esec.
    split; [reflexivity|].
    split; [now rewrite <- Eid|]. split; [now rewrite <- Esec|].
    split; [reflexivity|]. split; [exact Hidne|]. split; [exact Hsecne|].
    apply or_else_nonempty, or_else_nonempty, join_nonempty.
  - intros Hnot. rewrite Hmain, Hvalid, Herrs.
    destruct (truthy (clientId config)) eqn:Tid;
      destruct (truthy (clientSecret config)) eqn:Tsec.
    + exfalso. apply Hnot. split; now apply truthy_given.
    + exists [err_client_secret]. split; [reflexivity|].
      apply truthy_given in Tid. apply truthy_false_not_given in Tsec.
      split; [discriminate|]. split; [|split; [|split]].
      * split; [intros [H|[]]; now symmetry in H | intros H; contradiction].
      * split; [intros _; exact Tsec | intros _; now left].
      * intros e [<-|[]]. now right.
      * now right.
    + exists [err_client_id]. split; [reflexivity|].
      apply truthy_given in Tsec. apply truthy_false_not_given in Tid.
      split; [discriminate|]. split; [|split; [|split]].
      * split; [intros _; exact Tid | intros _; now left].
      * split; [intros [H|[]]; contradiction | intros H; contradiction].
      * intros e [<-|[]]. now left.
      * now right.
    + exists [err_client_id; err_client_secret]. split; [reflexivity|].
      apply truthy_false_not_given in Tid, Tsec.
      split; [discriminate|]. split; [|split; [|split]].
      * split; [intros _; exact Tid | intros _; now left].
      * split; [intros _; exact Tsec | intros _; right; now left].
      * intros e [<-|[<-|[]]]; tauto.
      * now left.
Qed.

Lemma main_setup_requires_credentials_witness :
  main ["node"; "index.js"; "setup"; "--client-secret"; "s1"]
       (mkEnv (Some "abc") None None) "/home/u"
  = StartAuthFlow (mkArg (Val "abc") (Val "s1") (Val "/home/u/.gsc-oauth-token.json"))
  /\ exists errs,
       main ["node"; "index.js"; "setup"; "--client-id"; ""]
            (mkEnv (Some "abc") (Some "s1") None) "/home/u"
       = ShowErrors errs /\ errs <> [].
Proof.
  split.
  - destruct (main_setup_requires_credentials
                ["node"; "index.js"; "setup"; "--client-secret"; "s1"]
                (mkEnv (Some "abc") None None) "/home/u") as [H _];
      [reflexivity..|].
    destruct H as (id & secret & path & Hmain & Hid & Hsecret & Hpath & _).
    + exists "abc". split; [reflexivity | discriminate].
    + exists "s1". split; [reflexivity | discriminate].
    + rewrite Hmain. injection Hid as ->. injection Hsecret as ->.
      rewrite Hpath. reflexivity.
  - destruct (main_setup_requires_credentials
                ["node"; "index.js"; "setup"; "--client-id"; ""]
                (mkEnv (Some "abc") (Some "s1") None) "/home/u") as [_ H];
      [reflexivity..|].
    destruct H as (errs & Hm & Hne & _).
    + intros [(s & Hs & Hne) _]. cbn in Hs. injection Hs as <-. now apply Hne.
    + exists errs. now split.
Defined.

End MainFacts.


Section SaveFacts.
Import Json Manager.

(** What [saveTokens] does to the disk, step by step. *)
Lemma saveTokens_disk (config : OAuth2Config) (tokens : json) (w : world) :
  let dir := Path.dirname (tokenPath config) in
  match Fs.mkdir_recursive dir (disk w) with
  | Err e =>
      fst (saveTokens config tokens w) = Err (TokenStorageWriteFailed e)
      /\ disk (snd (saveTokens config tokens w)) = disk w
  | Ok made =>
      match Fs.writeFile (tokenPath config) (stringify tokens) owner_only made with
      | Err e =>
          fst (saveTokens config tokens w) = Err (TokenStorageWriteFailed e)
          /\ disk (snd (saveTokens config tokens w)) = made
      | Ok written =>
          fst (saveTokens config tokens w) = Ok tt
          /\ disk (snd (saveTokens config tokens w)) = written
      end
  end
  /\ credentials (snd (saveTokens config tokens w)) = credentials w.
Proof.
  cbv zeta. unfold saveTokens, bind, emit, fs_update.
  cbn [disk credentials trace].
  destruct (Fs.mkdir_recursive _ (disk w)) as [d1|e1]; [|now split].
  cbn [disk credentials trace].
  destruct (Fs.writeFile _ _ _ d1) as [d2|e2]; now split.
Qed.

Lemma mkdir_recursive_cases (dir : string) (d d1 : gmap string Fs.node) :
  Fs.mkdir_recursive dir d = Ok d1 ->
  d1 !! dir = Some Fs.Dir
  /\ (forall p, p <> dir -> d1 !! p = d !! p)
  /\ (forall p n, d !! p = Some n -> d1 !! p = Some n).
Proof.
  unfold Fs.mkdir_recursive. destruct (d !! dir) as [[c m|]|] eqn:E;
    intros [= <-].
  - auto.
  - split; [apply lookup_insert_eq|].
    split; [intros p Hp; now apply lookup_insert_ne|].
    intros p n Hn. rewrite lookup_insert_ne; [exact Hn|]. congruence.
Qed.

Lemma mkdir_file_content (p dir : string) (d d1 : gmap string Fs.node) :
  Fs.mkdir_recursive dir d = Ok d1 -> file_content p d1 = file_content p d.
Proof.
  intros Hm. apply mkdir_recursive_cases in Hm as (Hdir & Hother & Hkeep).
  unfold file_content.
  destruct (decide (p = dir)) as [->|Hne]; [|now rewrite Hother].
  rewrite Hdir. destruct (d !! dir) as [[c m|]|] eqn:E; try reflexivity.
  apply Hkeep in E. rewrite Hdir in E. discriminate.
Qed.

Lemma writeFile_cases (p content : string) (mode : N) (d d2 : gmap string Fs.node) :
  Fs.writeFile p content mode d = Ok d2 ->
  d2 = <[p := Fs.File content
                match d !! p with Some (Fs.File _ m) => m | _ => mode end]> d
  /\ d !! p <> Some Fs.Dir.
Proof.
  unfold Fs.writeFile. destruct (d !! p) as [[c m|]|]; intros [= <-];
    (split; [reflexivity | discriminate]).
Qed.

Lemma mkdir_adds_directory (dir : string) (d d1 : gmap string Fs.node)
    (p : string) (n : Fs.node) :
  Fs.mkdir_recursive dir d = Ok d1 -> d1 !! p = Some n ->
  n = Fs.Dir \/ d !! p = Some n.
Proof.
  intros Hm Hn. apply mkdir_recursive_cases in Hm as (Hdir & Hother & _).
  destruct (decide (p = dir)) as [->|Hne].
  - left. congruence.
  - right. now rewrite <- Hother.
Qed.


(** X10.  A second [saveTokens] replaces what the first one wrote: after a
    save that succeeded, saving another record succeeds and leaves the disk
    that saving the other record alone would have left. *)
Theorem saveTokens_overwrites (config : OAuth2Config) (first second : json)
    (w w1 : world) :
  saveTokens config first w = (Ok tt, w1) ->
  fst (saveTokens config second w1) = Ok tt
  /\ disk (snd (saveTokens config second w1))
     = disk (snd (saveTokens config second w))
  /\ file_content (tokenPath config) (disk (snd (saveTokens config second w1)))
     = Some (stringify second).
Proof.
  intros Hsave.
  destruct (saveTokens_disk config first w) as [H1 _]. cbv zeta in H1.
  destruct (saveTokens_disk config second w) as [H2 _]. cbv zeta in H2.
  destruct (saveTokens_disk config second w1) as [H3 _]. cbv zeta in H3.
  rewrite Hsave in H1. cbn [fst snd] in H1.
  destruct (Fs.mkdir_recursive _ (disk w)) as [d1|e1] eqn:E1;
    [|destruct H1; discriminate].
  pose proof (mkdir_recursive_cases _ _ _ E1) as (Hdir & Hother & Hkeep).
  destruct (Fs.writeFile _ (stringify first) _ d1) as [d2|e2] eqn:E2;
    [|destruct H1; discriminate].
  destruct H1 as [_ Hd1]. apply writeFile_cases in E2 as [Hd2 Hnd].
  assert (Hne : tokenPath config <> Path.dirname (tokenPath config)).
  { intros Heq. apply Hnd. now rewrite Heq at 1. }
  assert (Hmk : Fs.mkdir_recursive (Path.dirname (tokenPath config)) (disk w1)
                = Ok (disk w1)).
  { unfold Fs.mkdir_recursive. rewrite Hd1, Hd2.
    rewrite lookup_insert_ne by congruence. now rewrite Hdir. }
  rewrite Hmk in H3.
  assert (Hlook : disk w1 !! tokenPath config
                  = Some (Fs.File (stringify first)
                            match d1 !! tokenPath config with
                            | Some (Fs.File _ m) => m
                            | _ => owner_only
                            end)).
  { rewrite Hd1, Hd2. apply lookup_insert_eq. }
  assert (Hw3 : Fs.writeFile (tokenPath config) (stringify second) owner_only (disk w1)
                = Ok (<[tokenPath config :=
                         Fs.File (stringify second)
                           match d1 !! tokenPath config with
                           | Some (Fs.File _ m) => m
                           | _ => owner_only
                           end]> d1)).
  { unfold Fs.writeFile. rewrite Hlook. f_equal.
    rewrite Hd1, Hd2. apply insert_insert_eq. }
  rewrite Hw3 in H3. destruct H3 as [Hr3 Hdisk3].
  assert (Hw2 : Fs.writeFile (tokenPath config) (stringify second) owner_only d1
                = Ok (<[tokenPath config :=
                         Fs.File (stringify second)
                           match d1 !! tokenPath config with
                           | Some (Fs.File _ m) => m
                           | _ => owner_only
                           end]> d1)).
  { unfold Fs.writeFile.
    destruct (d1 !! tokenPath config) as [[c m|]|]; [reflexivity| |reflexivity].
    now contradiction Hnd. }
  rewrite Hw2 in H2. destruct H2 as [_ Hdisk2].
  split; [exact Hr3|]. split; [congruence|].
  rewrite Hdisk3. unfold file_content. now rewrite lookup_insert_eq.
Qed.

Lemma saveTokens_overwrites_witness :
  file_content (tokenPath config1)
    (disk (snd (saveTokens config1 record_refreshed
                  (snd (saveTokens config1 record_setup (fresh_world ∅))))))
  = Some (stringify record_refreshed).
Proof.
  destruct (saveTokens_overwrites config1 record_setup record_refreshed
              (fresh_world ∅)
              (snd (saveTokens config1 record_setup (fresh_world ∅))))
    as (_ & _ & H).
  - vm_compute. reflexivity.
  - exact H.
Defined.

End SaveFacts.


Section AcquisitionFacts.
Import Json Manager.

Variable refreshAccessToken : json -> result string json.
Variable config : OAuth2Config.

Lemma loadTokens_cases (w : world) :
  (Fs.existsSync (tokenPath config) (disk w) = false
   /\ loadTokens config w = (Ok JNull, w))
  \/ (exists content,
        Fs.readFile (tokenPath config) (disk w) = Ok content
        /\ fst (loadTokens config w)
           = match parse content with
             | Some v => Ok v
             | None => Err (TokenStorageCorrupt SyntaxError)
             end)
  \/ (exists e,
        Fs.existsSync (tokenPath config) (disk w) = true
        /\ Fs.readFile (tokenPath config) (disk w) = Err e
        /\ fst (loadTokens config w) = Err (TokenStorageCorrupt (ReadError e))).
Proof.
  unfold loadTokens.
  destruct (Fs.existsSync (tokenPath config) (disk w)) eqn:Ex; cbn [negb];
    [|now left].
  right. destruct (Fs.readFile (tokenPath config) (disk w)) as [content|e].
  - left. exists content. split; [reflexivity|]. now destruct (parse content).
  - right. now exists e.
Qed.

Lemma readFile_exists (p content : string) (d : gmap string Fs.node) :
  Fs.readFile p d = Ok content -> Fs.existsSync p d = true.
Proof.
  unfold Fs.readFile, Fs.existsSync. now destruct (d !! p) as [[c m|]|].
Qed.

(** What [getAuthClient] does when the tokens are not usable. *)
Lemma getAuthClient_unloaded (now : Z) (w : world) :
  match fst (loadTokens config w) with
  | Ok tokens =>
      truthy tokens = false ->
      getAuthClient refreshAccessToken config now w
      = (Err NotAuthenticated, snd (loadTokens config w))
  | Err e =>
      getAuthClient refreshAccessToken config now w
      = (Err e, snd (loadTokens config w))
  end.
Proof.
  unfold getAuthClient, bind.
  destruct (loadTokens config w) as [[tokens|e] w1]; cbn [fst snd];
    [|reflexivity].
  now intros ->.
Qed.

Lemma getAuthClient_loaded_outcome (now : Z) (w : world) (tokens : json) :
  fst (loadTokens config w) = Ok tokens -> truthy tokens = true ->
  fst (getAuthClient refreshAccessToken config now w) = Ok tt
  \/ exists c, fst (getAuthClient refreshAccessToken config now w)
               = Err (TokenRefreshFailed c).
Proof.
  intros Hload Ht.
  rewrite (getAuthClient_loaded refreshAccessToken config now w tokens Hload Ht).
  destruct (expired now tokens); [|now left].
  destruct (refreshAccessToken tokens) as [fresh|m]; [|right; eauto].
  destruct (saveTokens config fresh _) as [[[]|e] w']; [now left | right; eauto].
Qed.

Lemma loadTokens_read (w : world) (content : string) (v : json) :
  Fs.readFile (tokenPath config) (disk w) = Ok content ->
  parse content = Some v -> fst (loadTokens config w) = Ok v.
Proof.
  intros Hread Hp.
  destruct (loadTokens_cases w)
    as [[Hex _]|[(content' & Hread' & Hl)|(e & _ & He' & _)]].
  - apply readFile_exists in Hread. congruence.
  - rewrite Hread in Hread'. injection Hread' as <-. now rewrite Hp in Hl.
  - congruence.
Qed.

(** X11.  [getAuthClient] fails with [NotAuthenticated] when there is
    nothing at the token path and, for a token file that [parse] reads,
    exactly when the value read is falsy ([null], [false], [0], the empty
    string); it fails with [TokenStorageCorrupt] when the file is not a
    JSON text or cannot be read.  With each of these failures it has
    changed neither the disk nor the credentials of the client and has not
    called [refreshAccessToken]. *)
Theorem getAuthClient_not_authenticated (now : Z) (w : world) :
  let run := getAuthClient refreshAccessToken config now w in
  (Fs.existsSync (tokenPath config) (disk w) = false ->
     fst run = Err NotAuthenticated)
  /\ (forall content v,
        Fs.readFile (tokenPath config) (disk w) = Ok content ->
        parse content = Some v ->
        (fst run = Err NotAuthenticated <-> truthy v = false))
  /\ (forall content,
        Fs.readFile (tokenPath config) (disk w) = Ok content ->
        valid content = false ->
        fst run = Err (TokenStorageCorrupt SyntaxError) /\ unchanged w (snd run))
  /\ (forall e,
        Fs.existsSync (tokenPath config) (disk w) = true ->
        Fs.readFile (tokenPath config) (disk w) = Err e ->
        fst run = Err (TokenStorageCorrupt (ReadError e)) /\ unchanged w (snd run))
  /\ (fst run = Err NotAuthenticated -> unchanged w (snd run)).
Proof.
  cbv zeta. pose proof (getAuthClient_unloaded now w) as Hun.
  pose proof (loadTokens_disk config w) as Hsame.
  split; [|split; [|split; [|split]]].
  - intros Hex.
    destruct (loadTokens_cases w) as [[_ Hl]|[(content & Hread & _)|(e & He & _)]].
    + rewrite Hl in Hun. cbn [fst snd] in Hun. now rewrite Hun.
    + apply readFile_exists in Hread. congruence.
    + congruence.
  - intros content v Hread Hp.
    pose proof (loadTokens_read w content v Hread Hp) as Hload.
    rewrite Hload in Hun. split.
    + intros Hrun. destruct (truthy v) eqn:Ht; [|reflexivity].
      destruct (getAuthClient_loaded_outcome now w v Hload Ht)
        as [H|(c & H)]; rewrite H in Hrun; discriminate.
    + intros Ht. now rewrite (Hun Ht).
  - intros content Hread Hinvalid.
    destruct (loadTokens_cases w)
      as [[Hex _]|[(content' & Hread' & Hl)|(e & _ & He' & _)]].
    + apply readFile_exists in Hread. congruence.
    + rewrite Hread in Hread'. injection Hread' as <-.
      rewrite (invalid_parse content Hinvalid) in Hl.
      rewrite Hl in Hun. rewrite Hun. split; [reflexivity | exact Hsame].
    + congruence.
  - intros e Hex Hread.
    destruct (loadTokens_cases w)
      as [[Hex' _]|[(content' & Hread' & _)|(e' & _ & He' & Hl)]].
    + congruence.
    + congruence.
    + rewrite Hread in He'. injection He' as <-.
      rewrite Hl in Hun. rewrite Hun. split; [reflexivity | exact Hsame].
  - intros Hfail.
    destruct (fst (loadTokens config w)) as [tokens|e] eqn:Hload.
    + destruct (truthy tokens) eqn:Ht.
      * destruct (getAuthClient_loaded_outcome now w tokens Hload Ht)
          as [H|(c & H)]; rewrite H in Hfail; discriminate.
      * rewrite (Hun eq_refl). exact Hsame.
    + rewrite Hun in Hfail. cbn [fst] in Hfail.
      apply loadTokens_error in Hload as (c & ->). discriminate.
Qed.

(** What [getAuthClient] does with tokens that are not expired. *)
Lemma getAuthClient_not_expired (now : Z) (w : world) (v : json) :
  fst (loadTokens config w) = Ok v -> truthy v = true ->
  expired now v = false ->
  exists w',
    getAuthClient refreshAccessToken config now w = (Ok tt, w')
    /\ credentials w' = v /\ disk w' = disk w
    /\ refresh_calls w' = refresh_calls w.
Proof.
  intros Hload Ht He.
  rewrite (getAuthClient_loaded refreshAccessToken config now w v Hload Ht), He.
  eexists. split; [reflexivity|]. unfold installed. cbn [credentials disk].
  split; [reflexivity|]. split; [reflexivity|].
  apply (refresh_calls_installed config w v).
Qed.

Lemma saveTokens_trace (tokens : json) (w : world) (e : effect) :
  In e (trace w) -> In e (trace (snd (saveTokens config tokens w))).
Proof.
  unfold saveTokens, bind, emit, fs_update. cbn [disk credentials trace].
  destruct (Fs.mkdir_recursive _ (disk w)) as [d1|e1]; [|cbn; auto].
  cbn [disk credentials trace].
  destruct (Fs.writeFile _ _ _ d1) as [d2|e2]; cbn; auto.
Qed.

(** [getAuthClient] hands every truthy value it loads to
    [setCredentials]. *)
Lemma getAuthClient_sets_credentials (now : Z) (w : world) (tokens : json) :
  fst (loadTokens config w) = Ok tokens -> truthy tokens = true ->
  In (SetCredentials tokens)
     (trace (snd (getAuthClient refreshAccessToken config now w))).
Proof.
  intros Hload Ht.
  rewrite (getAuthClient_loaded refreshAccessToken config now w tokens Hload Ht).
  destruct (expired now tokens); [|now left].
  destruct (refreshAccessToken tokens) as [fresh|m]; [|right; now left].
  pose proof (saveTokens_trace fresh (refreshed config tokens fresh w)
                (SetCredentials tokens)) as Hs.
  destruct (saveTokens config fresh _) as [[[]|e] w']; cbn [snd trace] in *.
  - right. apply Hs. right. now left.
  - apply Hs. right. now left.
Qed.

(** X12.  [getAuthClient] checks nothing about the value it loads but its
    truthiness: whatever truthy value [parse] reads from the token file (an
    array, a record without refresh token, ...) is handed to
    [setCredentials], and the call then returns the client or fails with
    [TokenRefreshFailed], nothing else; when the [expiry_date] of the value
    is a number, falsy or absent and the value is not expired, the call
    succeeds with that value as credentials, without a call of
    [refreshAccessToken] and without touching the disk. *)
Theorem getAuthClient_installs_any_value (now : Z) (w : world)
    (content : string) (v : json) :
  Fs.readFile (tokenPath config) (disk w) = Ok content ->
  parse content = Some v -> truthy v = true ->
  let run := getAuthClient refreshAccessToken config now w in
  In (SetCredentials v) (trace (snd run))
  /\ (fst run = Ok tt \/ exists caught, fst run = Err (TokenRefreshFailed caught))
  /\ (expiry_typed v -> expired now v = false ->
      fst run = Ok tt
      /\ credentials (snd run) = v /\ disk (snd run) = disk w
      /\ refresh_calls (snd run) = refresh_calls w).
Proof.
  intros Hread Hp Ht. cbv zeta.
  pose proof (loadTokens_read w content v Hread Hp) as Hload.
  split; [now apply getAuthClient_sets_credentials|].
  split; [now apply (getAuthClient_loaded_outcome now w v)|].
  intros _ He.
  destruct (getAuthClient_not_expired now w v Hload Ht He)
    as (w' & -> & Hc & Hd & Hr).
  cbn [fst snd]. auto.
Qed.

(** X13.  After a call that refreshed and returned, the next call finds the
    refreshed record in the file: when the [expiry_date] of that record is
    a number, falsy or absent and the record is not expired at the time of
    the next call, the next call succeeds without another refresh, with
    the refreshed record as credentials and the disk as it is. *)
Theorem getAuthClient_after_refresh (now later : Z) (w w1 : world)
    (tokens fresh : json) :
  fst (loadTokens config w) = Ok tokens -> truthy tokens = true ->
  expired now tokens = true ->
  refreshAccessToken tokens = Ok fresh ->
  getAuthClient refreshAccessToken config now w = (Ok tt, w1) ->
  plain fresh -> truthy fresh = true ->
  expiry_typed fresh -> expired later fresh = false ->
  exists w2,
    getAuthClient refreshAccessToken config later w1 = (Ok tt, w2)
    /\ credentials w2 = fresh /\ disk w2 = disk w1
    /\ refresh_calls w2 = S (refresh_calls w).
Proof.
  intros Hload Ht Hexp Hans Hrun Hplain Htf _ Hlater.
  pose proof (getAuthClient_calls refreshAccessToken config now w tokens Hload Ht)
    as Hcalls.
  rewrite Hexp, Hrun in Hcalls. cbn [snd] in Hcalls.
  rewrite (getAuthClient_loaded refreshAccessToken config now w tokens Hload Ht),
    Hexp, Hans in Hrun.
  destruct (saveTokens config fresh _) as [[[]|e] w0] eqn:Hsave; [|discriminate].
  injection Hrun as <-.
  apply saveTokens_ok in Hsave as (Hfile & _ & _).
  assert (Hread : Fs.readFile (tokenPath config) (disk w0) = Ok (stringify fresh)).
  { unfold file_content in Hfile. unfold Fs.readFile.
    destruct (disk w0 !! tokenPath config) as [[c m|]|]; try discriminate.
    now injection Hfile as ->. }
  destruct (getAuthClient_not_expired later
              (mkWorld (disk w0) (credentials w0)
                 (ConsoleLog "OAuth2トークンが更新されました。" :: trace w0))
              fresh
              (loadTokens_read
                 (mkWorld (disk w0) (credentials w0)
                    (ConsoleLog "OAuth2トークンが更新されました。" :: trace w0))
                 _ _ Hread (parse_stringify fresh Hplain))
              Htf Hlater)
    as (w2 & Hrun2 & Hc & Hd & Hr).
  exists w2. split; [exact Hrun2|]. split; [exact Hc|]. split; [exact Hd|].
  rewrite Hr. exact Hcalls.
Qed.

End AcquisitionFacts.

Section AcquisitionExamples.
Import Json Manager.

Lemma getAuthClient_not_authenticated_witness :
  fst (getAuthClient (fun _ => Ok record_setup) config1 1700000000000
         (fresh_world {[ "/tmp/t.json" := Fs.File "false" owner_only ]}))
  = Err NotAuthenticated.
Proof.
  destruct (getAuthClient_not_authenticated (fun _ => Ok record_setup) config1
              1700000000000
              (fresh_world {[ "/tmp/t.json" := Fs.File "false" owner_only ]}))
    as (_ & H & _).
  apply (H "false" (JBool false)); reflexivity.
Defined.

Lemma getAuthClient_installs_any_value_witness :
  let run := getAuthClient (fun _ => Err "unused") config1 1700000000000
               (fresh_world {[ "/tmp/t.json" := Fs.File "[]" owner_only ]}) in
  fst run = Ok tt /\ credentials (snd run) = JArr [].
Proof.
  destruct (getAuthClient_installs_any_value (fun _ => Err "unused") config1
              1700000000000
              (fresh_world {[ "/tmp/t.json" := Fs.File "[]" owner_only ]})
              "[]" (JArr []))
    as (_ & _ & H); [reflexivity..|].
  destruct H as (Hrun & Hc & _); [exact I | reflexivity |].
  now split.
Defined.

Lemma getAuthClient_after_refresh_witness :
  exists w2,
    getAuthClient (fun _ => Ok record_refreshed) config1 1600000000000
      (snd (getAuthClient (fun _ => Ok record_refreshed) config1 1700000000000
              (fresh_world (disk_with record_setup))))
    = (Ok tt, w2)
    /\ refresh_calls w2 = 1.
Proof.
  destruct (getAuthClient_after_refresh (fun _ => Ok record_refreshed) config1
              1700000000000 1600000000000
              (fresh_world (disk_with record_setup))
              (snd (getAuthClient (fun _ => Ok record_refreshed) config1
                      1700000000000 (fresh_world (disk_with record_setup))))
              record_setup record_refreshed)
    as (w2 & Hrun & _ & _ & Hcalls).
  - vm_compute. reflexivity.
  - reflexivity.
  - reflexivity.
  - reflexivity.
  - vm_compute. reflexivity.
  - apply valid_record_refreshed.
  - reflexivity.
  - exact I.
  - reflexivity.
  - exists w2. now split.
Defined.


End AcquisitionExamples.

Section VariantFacts.
Import Json Manager.

Lemma trim_start_spaces (l : list ascii) :
  forallb Variant.space1 l = true -> Variant.trim_start l = [].
Proof.
  induction l as [|a l IH]; [reflexivity|]. cbn [forallb Variant.trim_start].
  intros H. apply andb_prop in H as [-> H]. now apply IH.
Qed.

Lemma trim_spaces (s : string) :
  forallb Variant.space1 (list_ascii_of_string s) = true -> Variant.trim s = "".
Proof.
  intros H. unfold Variant.trim. now rewrite trim_start_spaces.
Qed.

Lemma variant_loadTokens_cases (config : OAuth2Config) (w : world) :
  (Fs.existsSync (tokenPath config) (disk w) = false
   /\ Variant.loadTokens config w = (Ok JNull, w))
  \/ (exists content,
        Fs.readFile (tokenPath config) (disk w) = Ok content
        /\ Variant.loadTokens config w
           = (Ok (JStr (Variant.trim content)),
              mkWorld (disk w) (credentials w)
                      (ReadFile (tokenPath config) :: trace w)))
  \/ (exists e,
        Fs.existsSync (tokenPath config) (disk w) = true
        /\ Fs.readFile (tokenPath config) (disk w) = Err e
        /\ Variant.loadTokens config w
           = (Err (TokenStorageCorrupt (ReadError e)),
              mkWorld (disk w) (credentials w)
                      (ReadFile (tokenPath config) :: trace w))).
Proof.
  unfold Variant.loadTokens.
  destruct (Fs.existsSync (tokenPath config) (disk w)) eqn:Ex; cbn [negb];
    [|now left].
  right. destruct (Fs.readFile (tokenPath config) (disk w)) as [content|e].
  - left. now exists content.
  - right. now exists e.
Qed.

(** X14.  [getAuthClient] of the variant never calls the provider and never
    changes the disk. It succeeds exactly when the token path holds a file
    whose content, trimmed, is not empty, and then the credentials of the
    client are the record with that text as its refresh token and nothing
    else. With nothing at the token path, and with a file that holds white
    space only, it fails with [NotAuthenticated] and leaves the credentials
    as they were. *)
Theorem variant_getAuthClient_outcome (config : OAuth2Config) (w : world) :
  let run := Variant.getAuthClient config w in
  disk (snd run) = disk w
  /\ refresh_calls (snd run) = refresh_calls w
  /\ (fst run = Ok tt <->
        exists content,
          Fs.readFile (tokenPath config) (disk w) = Ok content
          /\ Variant.trim content <> "")
  /\ (forall content,
        Fs.readFile (tokenPath config) (disk w) = Ok content ->
        Variant.trim content <> "" ->
        credentials (snd run)
        = JObj [("refresh_token", JStr (Variant.trim content))])
  /\ (fst run = Err NotAuthenticated <->
        Fs.existsSync (tokenPath config) (disk w) = false
        \/ exists content,
             Fs.readFile (tokenPath config) (disk w) = Ok content
             /\ Variant.trim content = "")
  /\ (forall content,
        Fs.readFile (tokenPath config) (disk w) = Ok content ->
        forallb Variant.space1 (list_ascii_of_string content) = true ->
        fst run = Err NotAuthenticated)
  /\ (fst run <> Ok tt -> credentials (snd run) = credentials w).
Proof.
  cbv zeta. unfold Variant.getAuthClient, bind, throw, setCredentials.
  assert (Hex : forall content,
            Fs.readFile (tokenPath config) (disk w) = Ok content ->
            Fs.existsSync (tokenPath config) (disk w) = true).
  { intros content. unfold Fs.readFile, Fs.existsSync.
    now destruct (disk w !! tokenPath config) as [[c m|]|]. }
  destruct (variant_loadTokens_cases config w)
    as [[Hno ->]|[(content & Hread & ->)|(e & Hyes & Hread & ->)]].
  - cbn [truthy negb fst snd disk credentials].
    split; [reflexivity|]. split; [reflexivity|].
    split; [split; [discriminate|]|].
    { intros (content & Hread & _). apply Hex in Hread. congruence. }
    split; [intros content Hread; apply Hex in Hread; congruence|].
    split; [split; [now left | reflexivity]|].
    split; [intros content Hread; apply Hex in Hread; congruence|].
    reflexivity.
  - cbn [truthy].
    destruct (String.eqb_spec (Variant.trim content) "") as [Hempty|Hne];
      cbn [negb fst snd disk credentials trace].
    + split; [reflexivity|]. split; [reflexivity|].
      split; [split; [discriminate|]|].
      { intros (content' & Hread' & Hne). rewrite Hread in Hread'.
        injection Hread' as <-. contradiction. }
      split.
      { intros content' Hread' Hne. rewrite Hread in Hread'.
        injection Hread' as <-. contradiction. }
      split; [split; [intros _; right; now exists content | reflexivity]|].
      split; [reflexivity|]. reflexivity.
    + split; [reflexivity|]. split; [reflexivity|].
      split; [split; [intros _; now exists content | reflexivity]|].
      split.
      { intros content' Hread' _. rewrite Hread in Hread'.
        now injection Hread' as <-. }
      split; [split; [discriminate|]|].
      { intros [Hno|(content' & Hread' & Hempty)].
        - apply Hex in Hread. congruence.
        - rewrite Hread in Hread'. injection Hread' as <-. contradiction. }
      split.
      { intros content' Hread' Hsp. rewrite Hread in Hread'.
        injection Hread' as <-. apply trim_spaces in Hsp. contradiction. }
      intros H. now contradiction H.
  - cbn [fst snd disk credentials trace].
    split; [reflexivity|]. split; [reflexivity|].
    split; [split; [discriminate|]|].
    { intros (content & Hread' & _). congruence. }
    split; [intros content Hread'; congruence|].
    split; [split; [discriminate|]|].
    { intros [Hno|(content & Hread' & _)]; congruence. }
    split; [intros content Hread'; congruence|]. reflexivity.
Qed.

Lemma variant_getAuthClient_outcome_witness :
  fst (Variant.getAuthClient config1
         (fresh_world {[ "/tmp/t.json" := Fs.File (String newline "") owner_only ]}))
  = Err NotAuthenticated.
Proof.
  destruct (variant_getAuthClient_outcome config1
              (fresh_world {[ "/tmp/t.json" := Fs.File (String newline "") owner_only ]}))
    as (_ & _ & _ & _ & _ & H & _).
  apply (H (String newline "")); reflexivity.
Defined.

End VariantFacts.


Section VariantSave.
Import Json Manager.

(** X15.  [saveTokens] of the variant needs the refresh token: with a
    record that has none it fails, with the error of [mkdir] when that
    fails and with [writeFile]'s refusal of [undefined] otherwise; every
    file keeps its content, nothing on the disk is gone, and what is new
    is a directory. *)
Theorem variant_saveTokens_needs_refresh_token (config : OAuth2Config)
    (tokens : json) (w : world) :
  property "refresh_token" tokens = None ->
  let run := Variant.saveTokens config tokens w in
  fst run
  = Err (TokenStorageWriteFailed
           match Fs.mkdir_recursive (Path.dirname (tokenPath config)) (disk w) with
           | Err e => e
           | Ok _ => Fs.ERR_INVALID_ARG_TYPE
           end)
  /\ (forall p, file_content p (disk (snd run)) = file_content p (disk w))
  /\ (forall p n, disk w !! p = Some n -> disk (snd run) !! p = Some n)
  /\ (forall p n, disk (snd run) !! p = Some n ->
        n = Fs.Dir \/ disk w !! p = Some n).
Proof.
  intros Hrt. cbv zeta.
  unfold Variant.saveTokens, bind, emit, fs_update, throw.
  cbn [disk credentials trace]. rewrite Hrt.
  destruct (Fs.mkdir_recursive _ (disk w)) as [d1|e1] eqn:Em;
    cbn [fst snd disk].
  - split; [reflexivity|]. split; [|split].
    + intros p. apply (mkdir_file_content p _ _ _ Em).
    + intros p n. now apply (mkdir_recursive_cases _ _ _ Em).
    + intros p n. apply (mkdir_adds_directory _ _ _ _ _ Em).
  - repeat split; auto.
Qed.

Lemma variant_saveTokens_needs_refresh_token_witness :
  fst (Variant.saveTokens config1 answer_without_refresh_token (fresh_world ∅))
  = Err (TokenStorageWriteFailed Fs.ERR_INVALID_ARG_TYPE).
Proof.
  destruct (variant_saveTokens_needs_refresh_token config1
              answer_without_refresh_token (fresh_world ∅)) as [H _].
  - reflexivity.
  - exact H.
Defined.

End VariantSave.


Section TrimFacts.
Import Json Manager.

Ltac bool_cases :=
  repeat match goal with
         | |- context [(?x =? ?y)%N] => destruct (N.eqb_spec x y)
         | |- context [(?x <=? ?y)%N] => destruct (N.leb_spec x y)
         end.

Lemma visible_range (a : ascii) :
  Variant.visible a = true -> (33 <= code a /\ code a <= 126)%N.
Proof.
  unfold Variant.visible. rewrite andb_true_iff, !N.leb_le. tauto.
Qed.

Lemma trim_start_visible (a : ascii) (t : list ascii) :
  Variant.visible a = true -> Variant.trim_start (a :: t) = a :: t.
Proof.
  intros H. apply visible_range in H. cbn [Variant.trim_start].
  assert (H1 : Variant.space1 a = false).
  { unfold Variant.space1. cbv zeta. bool_cases; (reflexivity || lia). }
  rewrite H1. destruct t as [|b t2]; [reflexivity|].
  assert (H2 : Variant.space2 a b = false).
  { unfold Variant.space2. bool_cases; (reflexivity || lia). }
  rewrite H2. destruct t2 as [|c t3]; [reflexivity|].
  assert (H3 : Variant.space3 a b c = false).
  { unfold Variant.space3. cbv zeta.
    destruct (N.eqb_spec (code a) 225); [lia|].
    destruct (N.eqb_spec (code a) 226); [lia|].
    destruct (N.eqb_spec (code a) 227); [lia|].
    destruct (N.eqb_spec (code a) 239); [lia|]. reflexivity. }
  now rewrite H3.
Qed.

Lemma trim_end_visible (c : ascii) (t : list ascii) :
  Variant.visible c = true -> Variant.trim_end_reversed (c :: t) = c :: t.
Proof.
  intros H. apply visible_range in H. cbn [Variant.trim_end_reversed].
  assert (H1 : Variant.space1 c = false).
  { unfold Variant.space1. cbv zeta. bool_cases; (reflexivity || lia). }
  rewrite H1. destruct t as [|b t2]; [reflexivity|].
  assert (H2 : Variant.space2 b c = false).
  { unfold Variant.space2.
    destruct (N.eqb_spec (code c) 160); [lia|]. apply andb_false_r. }
  rewrite H2. destruct t2 as [|a t3]; [reflexivity|].
  assert (H3 : Variant.space3 a b c = false).
  { unfold Variant.space3. cbv zeta.
    destruct (N.eqb_spec (code c) 128); [lia|].
    destruct (N.eqb_spec (code c) 168); [lia|].
    destruct (N.eqb_spec (code c) 169); [lia|].
    destruct (N.eqb_spec (code c) 175); [lia|].
    destruct (N.eqb_spec (code c) 159); [lia|].
    destruct (N.eqb_spec (code c) 191); [lia|].
    destruct (N.leb_spec 128 (code c)); [lia|].
    cbn [andb orb]. rewrite !andb_false_r. reflexivity. }
  now rewrite H3.
Qed.

Lemma list_ascii_app (a b : string) :
  list_ascii_of_string (a ++ b)
  = (list_ascii_of_string a ++ list_ascii_of_string b)%list.
Proof.
  induction a as [|x a IH]; [reflexivity|].
  rewrite append_cons. cbn [list_ascii_of_string app]. now rewrite IH.
Qed.

(** [trim] leaves a text alone that starts and ends with a visible
    character. *)
Lemma trim_visible_ends (s : string) : Variant.visible_ends s -> Variant.trim s = s.
Proof.
  intros [(a & t & Hs & Ha) (body & c & Hb & Hc)]. unfold Variant.trim.
  assert (Hstart : Variant.trim_start (list_ascii_of_string s)
                   = list_ascii_of_string s).
  { rewrite Hs. cbn [list_ascii_of_string]. now apply trim_start_visible. }
  rewrite Hstart.
  assert (Hrev : rev (list_ascii_of_string s)
                 = c :: rev (list_ascii_of_string body)).
  { rewrite Hb at 1. rewrite list_ascii_app. cbn [list_ascii_of_string].
    now rewrite rev_app_distr. }
  rewrite Hrev, (trim_end_visible c _ Hc), <- Hrev, rev_involutive.
  apply string_of_list_ascii_of_string.
Qed.

Lemma string_of_uint_last (u : Decimal.uint) :
  u <> Decimal.Nil ->
  exists body c, NilEmpty.string_of_uint u = body ++ String c ""
                 /\ Variant.visible c = true.
Proof.
  induction u as [|u IH|u IH|u IH|u IH|u IH|u IH|u IH|u IH|u IH|u IH];
    intros Hn; [contradiction|..]; cbn [NilEmpty.string_of_uint];
    (destruct u as [|u'|u'|u'|u'|u'|u'|u'|u'|u'|u'];
      [eexists "", _; split; [reflexivity|reflexivity]
      |destruct IH as (body & c & Hb & Hc); [discriminate|];
       rewrite Hb; eexists (String _ body), c; split; [reflexivity|exact Hc]..]).
Qed.

Lemma string_of_uint_head (u : Decimal.uint) :
  u <> Decimal.Nil ->
  exists a t, NilEmpty.string_of_uint u = String a t /\ Variant.visible a = true.
Proof.
  destruct u; intros Hn; [contradiction|..]; cbn [NilEmpty.string_of_uint];
    eexists _, _; split; reflexivity.
Qed.

Lemma visible_ends_cons (a : ascii) (s : string) :
  Variant.visible a = true ->
  (exists body c, s = body ++ String c "" /\ Variant.visible c = true) ->
  Variant.visible_ends (String a s).
Proof.
  intros Ha (body & c & -> & Hc). split; [now exists a, (body ++ String c "")|].
  now exists (String a body), c.
Qed.

Lemma ends_app (a b : string) :
  (exists body c, b = body ++ String c "" /\ Variant.visible c = true) ->
  exists body c, a ++ b = body ++ String c "" /\ Variant.visible c = true.
Proof.
  intros (body & c & -> & Hc). exists (a ++ body), c.
  split; [now rewrite append_assoc | exact Hc].
Qed.

Lemma ends_cons (x : ascii) (b : string) :
  (exists body c, b = body ++ String c "" /\ Variant.visible c = true) ->
  exists body c, String x b = body ++ String c "" /\ Variant.visible c = true.
Proof.
  intros (body & c & -> & Hc). now exists (String x body), c.
Qed.

Lemma ends_single (c : ascii) :
  Variant.visible c = true ->
  exists body c', String c "" = body ++ String c' "" /\ Variant.visible c' = true.
Proof. intros H. now exists "", c. Qed.

(** What [JSON.stringify] prints starts and ends with a visible
    character. *)
Lemma serialize_visible_ends (indent : string) (v : json) :
  Variant.visible_ends (serialize indent v).
Proof.
  destruct v as [|[|]|[|p|p]|s|[|x xs]|[|kx ms]]; cbn [serialize number_to_string].
  - apply visible_ends_cons; [reflexivity|]. exists "ul", "l"%char; split; reflexivity.
  - apply visible_ends_cons; [reflexivity|]. exists "ru", "e"%char; split; reflexivity.
  - apply visible_ends_cons; [reflexivity|]. exists "als", "e"%char; split; reflexivity.
  - split; [exists "0"%char, ""; split; reflexivity
           |exists "", "0"%char; split; reflexivity].
  - pose proof (DecimalPos.Unsigned.to_uint_nonnil p) as Hn.
    split; [now apply string_of_uint_head | now apply string_of_uint_last].
  - pose proof (DecimalPos.Unsigned.to_uint_nonnil p) as Hn.
    apply visible_ends_cons; [reflexivity | now apply string_of_uint_last].
  - unfold quote. apply visible_ends_cons; [reflexivity|].
    apply ends_app, ends_single. reflexivity.
  - apply visible_ends_cons; [reflexivity|]. exists "", "]"%char; split; reflexivity.
  - change ("[" ++ ?x) with (String "[" x).
    apply visible_ends_cons; [reflexivity|].
    apply ends_cons, ends_app, ends_app, ends_app, ends_cons, ends_app.
    exists "", "]"%char; split; reflexivity.
  - apply visible_ends_cons; [reflexivity|]. exists "", "}"%char; split; reflexivity.
  - change ("{" ++ ?x) with (String "{" x).
    apply visible_ends_cons; [reflexivity|].
    apply ends_cons, ends_app, ends_app, ends_app, ends_cons, ends_app.
    exists "", "}"%char; split; reflexivity.
Qed.

Lemma trim_stringify (v : json) : Variant.trim (stringify v) = stringify v.
Proof. apply trim_visible_ends, serialize_visible_ends. Qed.

Lemma stringify_nonempty (v : json) : stringify v <> "".
Proof.
  destruct (serialize_visible_ends "" v) as [(a & t & H & _) _].
  unfold stringify. rewrite H. discriminate.
Qed.

Lemma variant_getAuthClient_file (config : OAuth2Config) (w : world)
    (content : string) :
  Fs.readFile (tokenPath config) (disk w) = Ok content ->
  Variant.trim content <> "" ->
  Variant.getAuthClient config w
  = (Ok tt,
     mkWorld (disk w) (JObj [("refresh_token", JStr (Variant.trim content))])
       (SetCredentials (JObj [("refresh_token", JStr (Variant.trim content))])
        :: ReadFile (tokenPath config) :: trace w)).
Proof.
  intros Hread Hne. unfold Variant.getAuthClient, bind, setCredentials.
  destruct (variant_loadTokens_cases config w)
    as [[Hno _]|[(content' & Hread' & ->)|(e & _ & Hread' & _)]].
  - unfold Fs.readFile, Fs.existsSync in *.
    destruct (disk w !! tokenPath config) as [[c m|]|]; discriminate.
  - rewrite Hread in Hread'. injection Hread' as <-. cbn [truthy].
    destruct (String.eqb_spec (Variant.trim content) ""); [contradiction|].
    reflexivity.
  - congruence.
Qed.

(** X16.  The file that [saveTokens] of [oauth2-manager.ts] writes is not a
    file for the refresh-token-only variant: the variant's [loadTokens]
    returns the whole JSON text as the refresh token ([trim] removes nothing
    of it), and its [getAuthClient] succeeds and makes that text the refresh
    token of the client. *)
Theorem variant_reads_json_file_as_token (config : OAuth2Config)
    (tokens : json) (w w1 : world) :
  saveTokens config tokens w = (Ok tt, w1) ->
  fst (Variant.loadTokens config w1) = Ok (JStr (stringify tokens))
  /\ fst (Variant.getAuthClient config w1) = Ok tt
  /\ credentials (snd (Variant.getAuthClient config w1))
     = JObj [("refresh_token", JStr (stringify tokens))].
Proof.
  intros Hsave. apply saveTokens_ok in Hsave as (Hfile & _ & _).
  assert (Hread : Fs.readFile (tokenPath config) (disk w1) = Ok (stringify tokens)).
  { unfold file_content in Hfile. unfold Fs.readFile.
    destruct (disk w1 !! tokenPath config) as [[c m|]|]; try discriminate.
    now injection Hfile as ->. }
  pose proof (trim_stringify tokens) as Htrim.
  pose proof (stringify_nonempty tokens) as Hne.
  split.
  - rewrite (variant_loadTokens_file config w1 _ Hfile). now rewrite Htrim.
  - rewrite (variant_getAuthClient_file config w1 _ Hread);
      rewrite Htrim; [now split | exact Hne].
Qed.

End TrimFacts.

Section TrimExamples.
Import Json Manager.

Lemma variant_reads_json_file_as_token_witness :
  credentials (snd (Variant.getAuthClient config1
                      (snd (saveTokens config1 record_setup (fresh_world ∅)))))
  = JObj [("refresh_token", JStr (stringify record_setup))].
Proof.
  destruct (variant_reads_json_file_as_token config1 record_setup (fresh_world ∅)
              (snd (saveTokens config1 record_setup (fresh_world ∅))))
    as (_ & _ & H).
  - vm_compute. reflexivity.
  - exact H.
Defined.


End TrimExamples.

Section FlowInvariants.
Import Json Flow.

Variable config : Manager.OAuth2Config.

Lemma settle_waiting (o : promise) (s : state) : waiting (settle o s) = waiting s.
Proof. apply settle_flow. Qed.
Lemma settle_responses (o : promise) (s : state) : responses (settle o s) = responses s.
Proof. apply settle_flow. Qed.
Lemma settle_server (o : promise) (s : state) : server (settle o s) = server s.
Proof. apply settle_flow. Qed.
Lemma settle_next (o : promise) (s : state) : next_request (settle o s) = next_request s.
Proof. apply settle_flow. Qed.
Lemma close_disk (s : state) : disk (server_close s) = disk s.
Proof. apply server_close_flow. Qed.
Lemma close_waiting (s : state) : waiting (server_close s) = waiting s.
Proof. apply server_close_flow. Qed.
Lemma close_responses (s : state) : responses (server_close s) = responses s.
Proof. apply server_close_flow. Qed.
Lemma close_flow (s : state) : flow (server_close s) = flow s.
Proof. apply server_close_flow. Qed.
Lemma close_next (s : state) : next_request (server_close s) = next_request s.
Proof. unfold server_close. now destruct (server s). Qed.

Lemma find_waiting_In (id : nat) (l : list (nat * stage)) (st : stage) :
  find_waiting id l = Some st -> In (id, st) l.
Proof.
  induction l as [|[id' st'] l IH]; [discriminate|]. cbn [find_waiting].
  destruct (Nat.eqb_spec id' id) as [->|_]; [intros [= ->]; now left|].
  intros H. right. now apply IH.
Qed.

Lemma remove_waiting_In (id : nat) (l : list (nat * stage)) (p : nat * stage) :
  In p (remove_waiting id l) -> In p l /\ fst p <> id.
Proof.
  induction l as [|[id' st'] l IH]; [intros []|]. cbn [remove_waiting].
  destruct (Nat.eqb_spec id' id) as [->|Hne].
  - intros H. apply IH in H as [H1 H2]. split; [now right | exact H2].
  - intros [<-|H]; [split; [now left | exact Hne]|].
    apply IH in H as [H1 H2]. split; [now right | exact H2].
Qed.

Lemma In_remove_waiting (id : nat) (l : list (nat * stage)) (p : nat * stage) :
  In p l -> fst p <> id -> In p (remove_waiting id l).
Proof.
  induction l as [|[id' st'] l IH]; [intros []|]. cbn [remove_waiting].
  intros [<-|H] Hne.
  - cbn [fst] in Hne. destruct (Nat.eqb_spec id' id); [contradiction | now left].
  - destruct (Nat.eqb_spec id' id); [now apply IH | right; now apply IH].
Qed.

Lemma step_shapes (e : event) (s : state) : step_shape config e s (step config e s).
Proof.
  destruct e as [[u|m]|id [tokens|m]|id|id|m|]; cbn [step].
  - destruct (server s) eqn:Es; [| |apply Same];
      unfold on_request;
      (destruct (pathname u =? callback_path);
        [|apply NotFound; rewrite Es; discriminate]);
      (destruct (q_truthy (query_get "error" (query u)));
        [apply Refused; (rewrite ?Es; (discriminate || reflexivity || now left))|]);
      (destruct (q_truthy (query_get "code" (query u))); cbn [negb];
        [apply Accepted; rewrite Es; discriminate
        |apply Refused; (rewrite ?Es; (discriminate || reflexivity || now left))]).
  - destruct (server s) eqn:Es; [| |apply Same];
      unfold on_server_error;
      apply Refused; (rewrite ?Es; (discriminate || reflexivity || now right)).
  - destruct (find_waiting id (waiting s)) as [[c|t|t]|] eqn:E; try apply Same.
    now apply (Exchanged config _ s id c tokens).
  - destruct (find_waiting id (waiting s)) as [[c|t|t]|] eqn:E; try apply Same.
    unfold on_token_error. now apply (Broken config _ s id (AwaitGetToken c)).
  - destruct (find_waiting id (waiting s)) as [[c|t|t]|] eqn:E; try apply Same.
    cbn [resume disk].
    destruct (Fs.mkdir_recursive _ (disk s)) as [d|err] eqn:Em.
    + now apply Made.
    + unfold on_token_error. now apply (Broken config _ s id (AwaitMkdir t)).
  - destruct (find_waiting id (waiting s)) as [[c|t|t]|] eqn:E; try apply Same.
    cbn [resume disk].
    destruct (Fs.writeFile _ _ _ (disk s)) as [d|err] eqn:Ew.
    + unfold on_saved. now apply (Saved config _ s id t d).
    + unfold on_token_error. now apply (Broken config _ s id (AwaitWriteFile t)).
  - apply ListenerError.
  - destruct (server s) eqn:Es; try apply Same. now apply Ended.
Qed.

Lemma finish_fields (o : promise) (id status : nat) (s0 : state) :
  let s' := settle o (server_close (respond id status s0)) in
  flow s' = match flow s0 with Pending => o | p => p end
  /\ server s' <> Listening
  /\ disk s' = disk s0
  /\ waiting s' = waiting s0
  /\ responses s' = (id, status) :: responses s0
  /\ next_request s' = next_request s0.
Proof.
  cbv zeta.
  destruct (settle_flow o (server_close (respond id status s0)))
    as (-> & _ & -> & -> & -> & -> & ->).
  destruct (server_close_flow (respond id status s0))
    as (-> & _ & -> & -> & -> & Hl).
  rewrite close_next. repeat split; auto.
Qed.

(** *** The listener and the promise *)

Lemma released_finish (o : promise) (id status : nat) (s s0 : state) :
  o <> Pending -> listener_failed o = false ->
  flow s0 = flow s -> server s0 = server s ->
  released s -> released (settle o (server_close (respond id status s0))).
Proof.
  intros Ho Hl Hf Hs [H1 H2].
  destruct (finish_fields o id status s0) as (Ef & Es & _). split.
  - intros _. rewrite Ef, Hf. destruct (flow s); (exact Ho || discriminate).
  - intros _ _. exact Es.
Qed.

Lemma released_step (e : event) (s : state) :
  released s -> released (step config e s).
Proof.
  intros H. pose proof H as [H1 H2].
  destruct (step_shapes e s)
    as [|Hs|err status Hs Hl _|c Hs|id c t _ Hf|id t d Hf Hm|id t d Hf Hw|id st c Hf|m|Hs].
  - exact H.
  - exact H.
  - now apply (released_finish (Rejected err) _ status s).
  - exact H.
  - exact H.
  - exact H.
  - now apply (released_finish Fulfilled id 200 s).
  - now apply (released_finish (Rejected (TokenExchangeFailed c)) id 500 s).
  - unfold reject.
    destruct (settle_flow (Rejected (ListenerBindFailed m)) s)
      as (Ef & _ & Es & _).
    split; rewrite Ef, Es.
    + intros _. destruct (flow s); discriminate.
    + destruct (flow s) eqn:E; [discriminate|..];
        intros Hp Hl; apply H2; (exact Hl || discriminate).
  - split; cbn [server flow].
    + intros _. apply H1. rewrite Hs. discriminate.
    + intros _ _. discriminate.
Qed.

Lemma server_stays_closed_step (e : event) (s : state) :
  server s <> Listening -> server (step config e s) <> Listening.
Proof.
  intros H.
  destruct (step_shapes e s)
    as [|Hs|err status Hs Hl _|c Hs|id c t _ Hf|id t d Hf Hm|id t d Hf Hw|id st c Hf|m|Hs];
    try exact H;
    try (unfold resolve, reject; apply finish_fields).
  - unfold reject. now rewrite settle_server.
  - cbn [server]. discriminate.
Qed.

Lemma released_run (events : list event) (s : state) :
  released s -> released (run config events s).
Proof.
  revert s. induction events as [|e events IH]; intros s H; [exact H|].
  rewrite run_cons. apply IH, released_step, H.
Qed.

Lemma server_stays_closed_run (events : list event) (s : state) :
  server s <> Listening -> server (run config events s) <> Listening.
Proof.
  revert s. induction events as [|e events IH]; intros s H; [exact H|].
  rewrite run_cons. apply IH, server_stays_closed_step, H.
Qed.

(** X17.  [server.close ()] and the settling of the promise go together: in
    every execution the server has stopped listening only if the promise is
    settled, the promise is settled by anything but the server's error event
    only if the server has stopped listening, and a server that has stopped
    listening never listens again. *)
Theorem flow_releases_listener (d : gmap string Fs.node) (events : list event) :
  let s := run config events (initial d) in
  (server s <> Listening -> flow s <> Pending)
  /\ (flow s <> Pending -> listener_failed (flow s) = false ->
      server s <> Listening)
  /\ (forall more : list event,
        server s <> Listening -> server (run config more s) <> Listening).
Proof.
  cbv zeta.
  assert (H0 : released (initial d)).
  { split; [intros H; now contradiction H | intros H; now contradiction H]. }
  destruct (released_run events _ H0) as [H1 H2].
  split; [exact H1|]. split; [exact H2|].
  intros more. apply server_stays_closed_run.
Qed.


(** *** Requests and responses *)

Lemma suspended_remove (id x : nat) (l : list (nat * stage)) :
  In x (map fst (remove_waiting id l)) <-> In x (map fst l) /\ x <> id.
Proof.
  rewrite !in_map_iff. split.
  - intros (p & <- & Hp). apply remove_waiting_In in Hp as [H1 H2].
    split; [now exists p | exact H2].
  - intros [(p & <- & Hp) Hne]. exists p. split; [reflexivity|].
    now apply In_remove_waiting.
Qed.

Lemma NoDup_remove_waiting (id : nat) (l : list (nat * stage)) :
  NoDup (map fst l) -> NoDup (map fst (remove_waiting id l)).
Proof.
  induction l as [|[id' st] l IH]; [intros H; exact H|].
  cbn [map fst remove_waiting]. rewrite NoDup_cons. intros [Hn Hd].
  destruct (Nat.eqb_spec id' id) as [->|Hne]; [now apply IH|].
  cbn [map fst]. apply NoDup_cons. split; [|now apply IH].
  rewrite list_elem_of_In in *. rewrite suspended_remove. tauto.
Qed.

Lemma find_waiting_suspended (id : nat) (l : list (nat * stage)) (st : stage) :
  find_waiting id l = Some st -> In id (map fst l).
Proof.
  intros H. apply find_waiting_In in H. apply in_map_iff. now exists (id, st).
Qed.

(** A new request: answered at once or suspended. *)
Lemma accounted_request (s s' : state) :
  accounted s ->
  next_request s' = S (next_request s) ->
  (answered s' = next_request s :: answered s /\ suspended s' = suspended s
   /\ (exists status, status_known status
                      /\ responses s' = (next_request s, status) :: responses s))
  \/ (answered s' = answered s /\ suspended s' = next_request s :: suspended s
      /\ responses s' = responses s) ->
  accounted s'.
Proof.
  intros (Ha & Hs & Hdis & Hcov & Hst) Hn Hcase.
  assert (Hfa : ~ In (next_request s) (answered s)).
  { intros H. assert (next_request s < next_request s) by (apply Hcov; now left). lia. }
  assert (Hfs : ~ In (next_request s) (suspended s)).
  { intros H. assert (next_request s < next_request s) by (apply Hcov; now right). lia. }
  assert (Hfresh : forall id,
            id < S (next_request s)
            <-> In id (next_request s :: answered s) \/ In id (suspended s)).
  { intros id. specialize (Hcov id). cbn [In].
    destruct (Nat.eq_dec (next_request s) id) as [E|E].
    - split; [intros _; auto | intros _; lia].
    - split.
      + intros Hlt. assert (id < next_request s) by lia. tauto.
      + intros Hin. assert (id < next_request s) by tauto. lia. }
  unfold accounted.
  destruct Hcase as [(Ea & Es & status & Hk & Er)|(Ea & Es & Er)];
    rewrite Ea, Es, Er, Hn.
  - split; [apply NoDup_cons; split; [now rewrite list_elem_of_In | exact Ha]|].
    split; [exact Hs|]. split; [|split].
    + intros id Hid [<-|H]; [contradiction | now apply (Hdis id)].
    + intros id. apply Hfresh.
    + intros id st [[= <- <-]|H]; [exact Hk | now apply (Hst id)].
  - split; [exact Ha|].
    split; [apply NoDup_cons; split; [now rewrite list_elem_of_In | exact Hs]|].
    split; [|split].
    + intros id [<-|Hid]; [exact Hfa | now apply Hdis].
    + intros id. specialize (Hfresh id). cbn [In] in *. tauto.
    + exact Hst.
Qed.

(** A suspended handler goes on: suspended again or answered. *)
Lemma accounted_resumed (s s' : state) (id : nat) :
  accounted s -> In id (suspended s) ->
  next_request s' = next_request s ->
  (answered s' = id :: answered s
   /\ suspended s' = map fst (remove_waiting id (waiting s))
   /\ (exists status, status_known status
                      /\ responses s' = (id, status) :: responses s))
  \/ (answered s' = answered s
      /\ suspended s' = id :: map fst (remove_waiting id (waiting s))
      /\ responses s' = responses s) ->
  accounted s'.
Proof.
  intros (Ha & Hs & Hdis & Hcov & Hst) Hid Hn Hcase.
  pose proof (NoDup_remove_waiting id (waiting s) Hs) as Hs'.
  unfold accounted.
  destruct Hcase as [(Ea & Es & status & Hk & Er)|(Ea & Es & Er)];
    rewrite Ea, Es, Er, Hn.
  - split; [apply NoDup_cons; split;
              [rewrite list_elem_of_In; now apply Hdis | exact Ha]|].
    split; [exact Hs'|]. split; [|split].
    + intros x Hx. apply suspended_remove in Hx as [Hx Hne].
      intros [<-|H]; [now apply Hne | now apply (Hdis x)].
    + intros x. cbn [In]. rewrite suspended_remove, Hcov. unfold suspended in *.
      destruct (Nat.eq_dec id x) as [<-|Hne].
      * split; intros _; [left; now left | now right].
      * assert (x <> id) by congruence. tauto.
    + intros x st [[= <- <-]|H]; [exact Hk | now apply (Hst x)].
  - split; [exact Ha|].
    split; [apply NoDup_cons; split;
              [rewrite list_elem_of_In, suspended_remove; tauto | exact Hs']|].
    split; [|split].
    + intros x [<-|Hx]; [now apply Hdis|].
      apply suspended_remove in Hx as [Hx _]. now apply Hdis.
    + intros x. cbn [In]. rewrite suspended_remove, Hcov. unfold suspended in *.
      destruct (Nat.eq_dec id x) as [<-|Hne].
      * split; intros _; [right; now left | now right].
      * assert (x <> id) by congruence. tauto.
    + exact Hst.
Qed.

Lemma status_of_known (e : flow_error) : status_known (status_of e).
Proof.
  destruct e; cbn; unfold status_known; auto.
Qed.

Lemma accounted_step (e : event) (s : state) :
  accounted s -> accounted (step config e s).
Proof.
  intros H.
  destruct (step_shapes e s)
    as [|Hs|err status Hs Hl Hst|c Hs|id c t _ Hf|id t d Hf Hm|id t d Hf Hw|id st c Hf|m|Hs].
  - exact H.
  - apply (accounted_request s); [exact H | reflexivity|].
    left. split; [reflexivity|]. split; [reflexivity|].
    exists 404. split; [right; right; now left | reflexivity].
  - unfold reject.
    destruct (finish_fields (Rejected err) (next_request s) status (take_request s))
      as (_ & _ & _ & Ew & Er & En).
    apply (accounted_request s); [exact H | exact En|].
    left. unfold answered, suspended. rewrite Ew, Er.
    split; [reflexivity|]. split; [reflexivity|].
    exists status. split; [|reflexivity].
    rewrite Hst. apply status_of_known.
  - apply (accounted_request s); [exact H | reflexivity|].
    right. repeat split.
  - apply (accounted_resumed s _ id); [exact H| |reflexivity|].
    + now apply find_waiting_suspended in Hf.
    + right. repeat split.
  - apply (accounted_resumed s _ id); [exact H| |reflexivity|].
    + now apply find_waiting_suspended in Hf.
    + right. repeat split.
  - unfold resolve.
    destruct (finish_fields Fulfilled id 200 (set_disk d (resume id s)))
      as (_ & _ & _ & Ew & Er & En).
    apply (accounted_resumed s _ id); [exact H| |exact En|].
    + now apply find_waiting_suspended in Hf.
    + left. unfold answered, suspended. rewrite Ew, Er.
      split; [reflexivity|]. split; [reflexivity|].
      exists 200. split; [now left | reflexivity].
  - unfold reject.
    destruct (finish_fields (Rejected (TokenExchangeFailed c)) id 500 (resume id s))
      as (_ & _ & _ & Ew & Er & En).
    apply (accounted_resumed s _ id); [exact H| |exact En|].
    + now apply find_waiting_suspended in Hf.
    + left. unfold answered, suspended. rewrite Ew, Er.
      split; [reflexivity|]. split; [reflexivity|].
      exists 500. split; [right; right; now right | reflexivity].
  - unfold reject, accounted, answered, suspended.
    rewrite settle_waiting, settle_responses, settle_next. exact H.
  - exact H.
Qed.

Lemma accounted_run (events : list event) (s : state) :
  accounted s -> accounted (run config events s).
Proof.
  revert s. induction events as [|e events IH]; intros s H; [exact H|].
  rewrite run_cons. apply IH, accounted_step, H.
Qed.

(** X18.  In every execution each request that was taken is accounted for
    exactly once: it has been answered, once and with one of the four status
    codes the handler uses, or its handler is suspended at an [await], never
    both and never neither. *)
Theorem flow_answers_each_request_once (d : gmap string Fs.node)
    (events : list event) :
  let s := run config events (initial d) in
  NoDup (answered s)
  /\ NoDup (suspended s)
  /\ (forall id, In id (suspended s) -> ~ In id (answered s))
  /\ (forall id, id < next_request s <-> In id (answered s) \/ In id (suspended s))
  /\ (forall id status, In (id, status) (responses s) ->
        status = 200 \/ status = 400 \/ status = 404 \/ status = 500).
Proof.
  cbv zeta. apply accounted_run.
  split; [apply NoDup_nil_2|]. split; [apply NoDup_nil_2|].
  split; [intros id []|]. split; [|intros id status []].
  intros id. cbn. split; [lia | intros [[]|[]]].
Qed.


(** *** The disk *)





Lemma mkdir_keeps_file (p dir content : string) (d d1 : gmap string Fs.node) :
  Fs.mkdir_recursive dir d = Ok d1 ->
  Manager.file_content p d1 = Some content <->
  Manager.file_content p d = Some content.
Proof. intros Hm. now rewrite (mkdir_file_content p dir d d1 Hm). Qed.

Lemma provenance_weaken (P Q : json -> Prop) (d0 : gmap string Fs.node)
    (s : state) :
  (forall t, P t -> Q t) -> provenance config P d0 s -> provenance config Q d0 s.
Proof.
  intros HPQ (H1 & H2 & H3). split; [|split].
  - intros id t H. apply HPQ. now apply (H1 id).
  - intros content H. destruct (H2 content H) as [?|(t & Ht & ->)];
      [now left | right; exists t; auto].
  - intros H. destruct (H3 H) as (t & Ht & Hf). exists t. auto.
Qed.

Lemma await_waiting_In (id : nat) (st : stage) (s : state) (p : nat * stage) :
  In p (waiting (await id st (resume id s))) ->
  p = (id, st) \/ In p (waiting s).
Proof.
  cbn [await resume waiting]. intros [<-|H]; [now left|].
  right. now apply remove_waiting_In in H.
Qed.

Lemma provenance_step (P : json -> Prop) (d0 : gmap string Fs.node)
    (e : event) (s : state) :
  (forall id t, e = GetTokenSettled id (Ok t) -> P t) ->
  provenance config P d0 s -> provenance config P d0 (step config e s).
Proof.
  intros He (H1 & H2 & H3).
  assert (Hheld : forall id t,
            find_waiting id (waiting s) = Some (AwaitMkdir t)
            \/ find_waiting id (waiting s) = Some (AwaitWriteFile t) -> P t).
  { intros id t [H|H]; apply find_waiting_In in H; apply (H1 id); auto. }
  destruct (step_shapes e s)
    as [|Hs|err status Hs Hl Hst|c Hs|id c t Het Hf|id t d Hf Hm|id t d Hf Hw|id st c Hf|m|Hs].
  - now split.
  - split; [exact H1|]. split; [exact H2|].
    cbn [respond take_request flow responses].
    intros [Hfl|(id & [Heq|Hin])]; [|discriminate Heq|]; apply H3; eauto.
  - unfold reject.
    destruct (finish_fields (Rejected err) (next_request s) status (take_request s))
      as (Ef & _ & Ed & Ew & Er & _).
    unfold provenance. rewrite Ef, Ed, Ew, Er.
    cbn [take_request flow disk waiting responses].
    split; [exact H1|]. split; [exact H2|].
    intros [Hfl|(id & [Heq|Hin])].
    + apply H3. left. now destruct (flow s).
    + rewrite Hst in Heq. destruct err; discriminate Heq.
    + apply H3. eauto.
  - split; [|split; [exact H2 | exact H3]].
    cbn [await take_request waiting].
    intros id t [[[=]|H]|[[=]|H]]; apply (H1 id); auto.
  - split; [|split; [exact H2 | exact H3]].
    intros id' t' [H|H]; apply await_waiting_In in H as [[= <- <-]|H];
      try (apply (H1 id'); now auto).
    exact (He _ _ Het).
  - assert (Hk' : forall content,
              Manager.file_content (Manager.tokenPath config) d = Some content <->
              Manager.file_content (Manager.tokenPath config) (disk s) = Some content).
    { intros content. apply (mkdir_keeps_file _ _ _ _ _ Hm). }
    split; [|split].
    + intros id' t' [H|H].
      * change (waiting (await id (AwaitWriteFile t) (set_disk d (resume id s))))
          with (waiting (await id (AwaitWriteFile t) (resume id s))) in H.
        apply await_waiting_In in H as [[=]|H]. apply (H1 id'); auto.
      * change (waiting (await id (AwaitWriteFile t) (set_disk d (resume id s))))
          with (waiting (await id (AwaitWriteFile t) (resume id s))) in H.
        apply await_waiting_In in H as [[= <- <-]|H]; [|apply (H1 id'); now auto].
        eapply Hheld. left. exact Hf.
    + cbn [await set_disk disk]. intros content H. apply H2. now apply Hk'.
    + cbn [await set_disk resume disk flow responses]. intros H.
      destruct (H3 H) as (t0 & Ht0 & Hfile). exists t0. split; [exact Ht0|].
      now apply Hk'.
  - unfold resolve.
    destruct (finish_fields Fulfilled id 200 (set_disk d (resume id s)))
      as (_ & _ & Ed & Ew & _).
    apply writeFile_content in Hw as [Hfile _].
    assert (Pt : P t) by (apply (Hheld id); now right).
    unfold provenance. rewrite Ed, Ew. cbn [set_disk resume disk waiting].
    split; [|split].
    + intros id' t' [H|H]; apply remove_waiting_In in H as [H _];
        apply (H1 id'); auto.
    + intros content Hc. rewrite Hfile in Hc. injection Hc as <-.
      right. now exists t.
    + intros _. now exists t.
  - unfold reject.
    destruct (finish_fields (Rejected (TokenExchangeFailed c)) id 500 (resume id s))
      as (Ef & _ & Ed & Ew & Er & _).
    unfold provenance. rewrite Ef, Ed, Ew, Er.
    cbn [resume flow disk waiting responses].
    split; [|split; [exact H2|]].
    + intros id' t' [H|H]; apply remove_waiting_In in H as [H _];
        apply (H1 id'); auto.
    + intros [Hfl|(id' & [Heq|Hin])].
      * apply H3. left. now destruct (flow s).
      * discriminate Heq.
      * apply H3. eauto.
  - unfold reject, provenance.
    destruct (settle_flow (Rejected (ListenerBindFailed m)) s)
      as (Ef & _ & _ & Ed & Ew & Er & _).
    rewrite Ef, Ed, Ew, Er.
    split; [exact H1|]. split; [exact H2|].
    intros [Hfl|Hin]; apply H3; [left; now destruct (flow s) | now right].
  - now split.
Qed.

Lemma exchanged_app (events : list event) (e : event) (t : json) :
  exchanged (events ++ [e]) t <->
  exchanged events t \/ exists id, e = GetTokenSettled id (Ok t).
Proof.
  unfold exchanged. split.
  - intros (id & H). apply in_app_or in H as [H|[->|[]]]; eauto.
  - intros [(id & H)|(id & ->)]; exists id; apply in_or_app; cbn; auto.
Qed.

Lemma provenance_run (d0 : gmap string Fs.node) (events : list event) :
  provenance config (exchanged events) d0 (run config events (initial d0)).
Proof.
  induction events as [|e events IH] using rev_ind.
  - split; [intros id t [[]|[]]|]. split; [intros content H; now left|].
    intros [H|(id & [])]. discriminate.
  - rewrite run_app. cbn [run fold_left].
    apply provenance_step.
    + intros id t ->. apply exchanged_app. right. now exists id.
    + apply (provenance_weaken (exchanged events)); [|exact IH].
      intros t Ht. apply exchanged_app. now left.
Qed.

(** X20.  In every execution the content of the token file is what it was at
    the start or [JSON.stringify] of a record that an exchange of the
    execution answered; and once the promise is fulfilled, or a request has
    been answered with 200, the token file is there and holds such a record. *)
Theorem flow_fulfilled_has_token_file (d : gmap string Fs.node)
    (events : list event) :
  let s := run config events (initial d) in
  (forall content,
     Manager.file_content (Manager.tokenPath config) (disk s) = Some content ->
     Manager.file_content (Manager.tokenPath config) d = Some content
     \/ exists tokens, exchanged events tokens /\ content = stringify tokens)
  /\ (flow s = Fulfilled \/ (exists id, In (id, 200) (responses s)) ->
      exists tokens,
        exchanged events tokens
        /\ Manager.file_content (Manager.tokenPath config) (disk s) = Some (stringify tokens)).
Proof.
  cbv zeta. destruct (provenance_run d events) as (_ & H2 & H3). now split.
Qed.

End FlowInvariants.


Section FlowPath.
Import Json Flow.

Variable config : Manager.OAuth2Config.

(** X21.  One callback request that carries a code and no error, followed to
    its end: the handler exchanges the code, saves the record as
    [saveTokens] does, and then answers 200 and fulfils the promise; when
    saving fails it answers 500 and rejects the promise with the failure of
    the exchange, which carries the error of [saveTokens]. Either way the
    server is closed. *)
Theorem flow_single_callback (d : gmap string Fs.node) (u : ParsedUrl)
    (tokens : json) :
  pathname u = callback_path ->
  q_truthy (query_get "error" (query u)) = false ->
  q_truthy (query_get "code" (query u)) = true ->
  let s := run config
             [Request (Ok u); GetTokenSettled 0 (Ok tokens); MkdirSettled 0;
              WriteFileSettled 0]
             (initial d) in
  let saved := Manager.saveTokens config tokens (Manager.fresh_world d) in
  disk s = Manager.disk (snd saved)
  /\ server s = Closing
  /\ waiting s = []
  /\ match fst saved with
     | Ok _ => flow s = Fulfilled /\ responses s = [(0, 200)]
     | Err e =>
         flow s = Rejected (TokenExchangeFailed (NotSaved e))
         /\ responses s = [(0, 500)]
     end.
Proof.
  intros Hp He Hc. cbv zeta.
  destruct (saveTokens_disk config tokens (Manager.fresh_world d)) as [Hsave _].
  cbv zeta in Hsave. cbn [Manager.fresh_world Manager.disk] in Hsave.
  unfold run. cbn [fold_left].
  assert (H1 : step config (Request (Ok u)) (initial d)
               = await 0 (AwaitGetToken (query_get "code" (query u)))
                   (take_request (initial d))).
  { cbn [step initial server]. unfold on_request.
    apply String.eqb_eq in Hp. rewrite Hp, He, Hc. reflexivity. }
  rewrite H1. clear H1.
  cbn [step await take_request initial waiting find_waiting Nat.eqb resume
       remove_waiting flow settlements settle_calls server disk next_request
       responses].
  destruct (Fs.mkdir_recursive _ d) as [d1|e1].
  - cbn [step await set_disk waiting find_waiting Nat.eqb resume
         remove_waiting flow settlements settle_calls server disk next_request
         responses].
    destruct (Fs.writeFile _ _ _ d1) as [d2|e2]; destruct Hsave as [-> ->];
      repeat split.
  - destruct Hsave as [-> ->]. repeat split.
Qed.

End FlowPath.

Section FlowExamples.
Import Json Flow.

Lemma flow_single_callback_witness :
  flow (run config1
          [Request (Ok callback_with_code); GetTokenSettled 0 (Ok record_setup);
           MkdirSettled 0; WriteFileSettled 0]
          (initial ∅)) = Fulfilled.
Proof.
  destruct (flow_single_callback config1 ∅ callback_with_code record_setup)
    as (_ & _ & _ & H); [reflexivity..|].
  exact (proj1 H).
Defined.


End FlowExamples.

Section FlowOutcome.
Import Json Flow.

Variable config : Manager.OAuth2Config.

Lemma announced_more (s s' : state) :
  flow s' = flow s -> (forall r, In r (responses s) -> In r (responses s')) ->
  announced s -> announced s'.
Proof.
  unfold announced. intros -> Hr. destruct (flow s) as [| |e].
  - auto.
  - intros (id & H). exists id. now apply Hr.
  - intros [H|(id & H)]; [now left | right; exists id; now apply Hr].
Qed.

Lemma announced_finish (o : promise) (id status : nat) (s s0 : state) :
  match o with
  | Pending => False
  | Fulfilled => status = 200
  | Rejected e => status = status_of e
  end ->
  flow s0 = flow s -> responses s0 = responses s ->
  announced s -> announced (settle o (server_close (respond id status s0))).
Proof.
  intros Ho Hf Hr H.
  destruct (finish_fields o id status s0) as (Ef & _ & _ & _ & Er & _).
  unfold announced in *. rewrite Ef, Er, Hf, Hr.
  destruct (flow s) as [| |e] eqn:E.
  - destruct o as [| |e']; [contradiction|..]; subst status.
    + exists id. now left.
    + right. exists id. now left.
  - destruct H as (id' & H). exists id'. now right.
  - destruct H as [H|(id' & H)]; [now left | right; exists id'; now right].
Qed.

Lemma announced_step (e : event) (s : state) :
  announced s -> announced (step config e s).
Proof.
  intros H.
  destruct (step_shapes config e s)
    as [|Hs|err status Hs Hl Hst|c Hs|id c t _ Hf|id t d Hf Hm|id t d Hf Hw|id st c Hf|m|Hs].
  - exact H.
  - apply (announced_more s); [reflexivity| |exact H].
    intros r Hr. now right.
  - unfold reject. now apply (announced_finish (Rejected err) _ status s).
  - apply (announced_more s); [reflexivity| |exact H]. auto.
  - apply (announced_more s); [reflexivity| |exact H]. auto.
  - apply (announced_more s); [reflexivity| |exact H]. auto.
  - unfold resolve. now apply (announced_finish Fulfilled id 200 s).
  - unfold reject.
    now apply (announced_finish (Rejected (TokenExchangeFailed c)) id 500 s).
  - unfold reject, announced in *.
    destruct (settle_flow (Rejected (ListenerBindFailed m)) s)
      as (-> & _ & _ & _ & _ & -> & _).
    destruct (flow s); [now left | exact H | exact H].
  - exact H.
Qed.

Lemma announced_run (events : list event) (s : state) :
  announced s -> announced (run config events s).
Proof.
  revert s. induction events as [|e events IH]; intros s H; [exact H|].
  rewrite run_cons. apply IH, announced_step, H.
Qed.

(** X22.  In every execution the outcome of the promise has been told to
    a client: when the promise is fulfilled a request has been answered
    with 200; when it is rejected because the authorization was denied or
    the code was missing a request has been answered with 400; and when
    it is rejected because the exchange, the saving or the handler failed
    a request has been answered with 500. *)
Theorem flow_outcome_was_answered (d : gmap string Fs.node)
    (events : list event) :
  let s := run config events (initial d) in
  (flow s = Fulfilled -> exists id, In (id, 200) (responses s))
  /\ (forall e, flow s = Rejected e ->
        match e with
        | AuthorizationDenied _ | MissingAuthorizationCode =>
            exists id, In (id, 400) (responses s)
        | TokenExchangeFailed _ | ServerError _ =>
            exists id, In (id, 500) (responses s)
        | ListenerBindFailed _ => True
        end).
Proof.
  cbv zeta.
  assert (H : announced (run config events (initial d))).
  { apply announced_run. exact I. }
  unfold announced in H. split.
  - intros Hf. now rewrite Hf in H.
  - intros e Hf. rewrite Hf in H.
    destruct e; cbn in H; try exact I;
      (destruct H as [H|H]; [discriminate | exact H]).
Qed.

End FlowOutcome.

Section SetupThenServer.
Import Json Manager.

Variable refreshAccessToken : json -> result string json.
Variable config : OAuth2Config.

Lemma readFile_content (p content : string) (d : gmap string Fs.node) :
  file_content p d = Some content -> Fs.readFile p d = Ok content.
Proof.
  unfold file_content, Fs.readFile.
  destruct (d !! p) as [[c m|]|]; try discriminate. now intros [= ->].
Qed.

(** X23.  Setup, then server.  When an execution of the authorization
    flow has fulfilled its promise, the token file holds a record that an
    exchange of the execution answered, and [getAuthClient] on the disk
    the flow has left loads that very record: it makes it the credentials
    of the client and, when the [expiry_date] of the record is a number,
    falsy or absent and the record is not expired, succeeds without a call
    of [refreshAccessToken] and without touching the disk. *)
Theorem setup_then_server (d : gmap string Fs.node)
    (events : list Flow.event) (now : Z) :
  let s := Flow.run config events (Flow.initial d) in
  Flow.flow s = Flow.Fulfilled ->
  (forall tokens, Flow.exchanged events tokens ->
     plain tokens /\ truthy tokens = true) ->
  exists tokens,
    Flow.exchanged events tokens
    /\ fst (loadTokens config (fresh_world (Flow.disk s))) = Ok tokens
    /\ (expiry_typed tokens -> expired now tokens = false ->
        exists w',
          getAuthClient refreshAccessToken config now (fresh_world (Flow.disk s))
          = (Ok tt, w')
          /\ credentials w' = tokens
          /\ refresh_calls w' = 0
          /\ disk w' = Flow.disk s).
Proof.
  cbv zeta. intros Hf Hrecords.
  destruct (provenance_run config d events) as (_ & _ & H3).
  destruct H3 as (tokens & Hex & Hfile); [now left|].
  destruct (Hrecords tokens Hex) as [Hplain Htruthy].
  exists tokens. split; [exact Hex|].
  assert (Hload : fst (loadTokens config
                         (fresh_world (Flow.disk (Flow.run config events
                                                    (Flow.initial d)))))
                  = Ok tokens).
  { apply (loadTokens_read config _ (stringify tokens)).
    - now apply readFile_content.
    - now apply parse_stringify. }
  split; [exact Hload|]. intros _ Hexp.
  destruct (getAuthClient_not_expired refreshAccessToken config now _ tokens
              Hload Htruthy Hexp) as (w' & Hrun & Hc & Hd & Hr).
  exists w'. repeat split; assumption.
Qed.

End SetupThenServer.

Section SetupExamples.
Import Json Manager.

Lemma setup_then_server_witness :
  exists w',
    getAuthClient (fun _ => Err "unused") config1 1600000000000
      (fresh_world
         (Flow.disk
            (Flow.run config1
               [Flow.Request (Ok callback_with_code);
                Flow.GetTokenSettled 0 (Ok record_setup);
                Flow.MkdirSettled 0; Flow.WriteFileSettled 0]
               (Flow.initial ∅))))
    = (Ok tt, w')
    /\ credentials w' = record_setup.
Proof.
  destruct (setup_then_server (fun _ => Err "unused") config1 ∅
              [Flow.Request (Ok callback_with_code);
               Flow.GetTokenSettled 0 (Ok record_setup);
               Flow.MkdirSettled 0; Flow.WriteFileSettled 0]
              1600000000000)
    as (tokens & Hex & Hload & Hrun).
  - reflexivity.
  - intros tokens (id & Hin). cbn in Hin.
    destruct Hin as [H|[H|[H|[H|[]]]]]; try discriminate H.
    injection H as _ <-. split; [apply valid_record_setup | reflexivity].
  - vm_compute in Hload. injection Hload as <-.
    destruct Hrun as (w' & Hrun & Hc & _); [exact I | reflexivity|].
    exists w'. now split.
Defined.

End SetupExamples.

Section ToolFacts.
Import Json Tools.

Variable parse_schema : schema -> json -> result (list ZodIssue) (list (string * json)).

Lemma listed_cases (tool_name : string) :
  In tool_name (map name tools) <->
  tool_name = "list_sites" \/ tool_name = "search_analytics"
  \/ tool_name = "index_inspect" \/ tool_name = "list_sitemaps"
  \/ tool_name = "get_sitemap" \/ tool_name = "submit_sitemap".
Proof. cbn. intuition. Qed.

Lemma validated_not_error (s : schema) (a : json)
    (call : list (string * json) -> api_call) (m : string) :
  validated parse_schema s a call <> Err (JsError m).
Proof. unfold validated. now destruct (parse_schema s a). Qed.

Lemma prepare_ready (svc : service) (tool_name : string) (a : json) :
  truthy a = true ->
  prepare parse_schema (Some svc) tool_name (Some a)
  = match
      (if tool_name =? "search_analytics" then
         validated parse_schema SearchAnalyticsSchema a
           (fun args => SearchAnalytics (arg "siteUrl" args) (search_request args))
       else if tool_name =? "list_sites" then Ok ListSites
       else if tool_name =? "index_inspect" then
         validated parse_schema IndexInspectSchema a
           (fun args => IndexInspect (arg "siteUrl" args)
                          (arg "inspectionUrl" args) (arg "languageCode" args))
       else if tool_name =? "list_sitemaps" then
         validated parse_schema ListSitemapsSchema a
           (fun args => ListSitemaps (arg "siteUrl" args) (arg "sitemapIndex" args))
       else if tool_name =? "get_sitemap" then
         validated parse_schema GetSitemapSchema a
           (fun args => GetSitemap (arg "siteUrl" args) (arg "feedpath" args))
       else if tool_name =? "submit_sitemap" then
         validated parse_schema SubmitSitemapSchema a
           (fun args => SubmitSitemap (arg "siteUrl" args) (arg "feedpath" args))
       else Err (JsError ("Unknown tool: " ++ tool_name)))
    with
    | Ok c => Ok (svc, c)
    | Err e => Err e
    end.
Proof. intros Ht. unfold prepare. now rewrite Ht. Qed.

(** X24.  Which request the handler turns down before any call of the
    service, in the order of its checks: a request without arguments, or
    with falsy ones, is turned down whatever the tool, [list_sites], which
    takes no arguments, included; a request that has arguments is turned
    down while the service is not set; and, past these two checks, the
    handler answers "Unknown tool" exactly for the names that the tool list
    does not have. *)
Theorem call_tool_rejections (searchConsole : option service)
    (tool_name : string) (arguments : option json) :
  (opt_truthy arguments = false ->
     call_tool parse_schema searchConsole tool_name arguments
     = Err (JsError "Arguments are required"))
  /\ (opt_truthy arguments = true -> searchConsole = None ->
      call_tool parse_schema searchConsole tool_name arguments
      = Err (JsError "SearchConsoleService is not initialized"))
  /\ (forall svc, opt_truthy arguments = true -> searchConsole = Some svc ->
      (prepare parse_schema searchConsole tool_name arguments
       = Err (JsError ("Unknown tool: " ++ tool_name))
       <-> ~ In tool_name (map name tools))
      /\ (~ In tool_name (map name tools) ->
          call_tool parse_schema searchConsole tool_name arguments
          = Err (JsError ("Unknown tool: " ++ tool_name)))).
Proof.
  split; [|split].
  - unfold call_tool, prepare, opt_truthy.
    destruct arguments as [a|]; [|reflexivity]. now intros ->.
  - unfold call_tool, prepare, opt_truthy.
    destruct arguments as [a|]; [|discriminate]. now intros -> ->.
  - intros svc Ha ->. destruct arguments as [a|]; [|discriminate].
    cbn [opt_truthy] in Ha.
    assert (Hunknown : ~ In tool_name (map name tools) ->
              prepare parse_schema (Some svc) tool_name (Some a)
              = Err (JsError ("Unknown tool: " ++ tool_name))).
    { intros Hn. rewrite (prepare_ready svc tool_name a Ha).
      rewrite listed_cases in Hn.
      repeat match goal with
             | |- context [?x =? ?y] =>
                 destruct (String.eqb_spec x y); [exfalso; tauto|]
             end.
      reflexivity. }
    split; [split; [|exact Hunknown]|].
    + rewrite (prepare_ready svc tool_name a Ha). intros H Hin.
      apply listed_cases in Hin. unfold validated in H.
      repeat match type of H with
             | context [?x =? ?y] => destruct (String.eqb_spec x y)
             | context [parse_schema ?s ?x] => destruct (parse_schema s x)
             end; try discriminate H.
      tauto.
    + intros Hn. unfold call_tool. now rewrite (Hunknown Hn).
Qed.


(** X25.  The schema the tool list shows for a tool is the schema the
    handler validates the arguments of a call with: when it turns the
    arguments down, the call fails with the "Invalid arguments" message made
    of its issues and the service is not called; when it accepts them, a
    call of the service is made. The exception is [list_sites], whose
    arguments are not validated at all. *)
Theorem listed_schema_validates (svc : service) (t : tool) (a : json) :
  In t tools -> truthy a = true ->
  (name t <> "list_sites" ->
     match parse_schema (inputSchema t) a with
     | Err issues =>
         call_tool parse_schema (Some svc) (name t) (Some a)
         = Err (JsError (invalid_arguments issues))
     | Ok args =>
         exists c, prepare parse_schema (Some svc) (name t) (Some a) = Ok (svc, c)
     end)
  /\ (name t = "list_sites" ->
      prepare parse_schema (Some svc) (name t) (Some a) = Ok (svc, ListSites)).
Proof.
  intros Hin Ht.
  destruct Hin as [<-|[<-|[<-|[<-|[<-|[<-|[]]]]]]]; cbn [name inputSchema];
    (split; [intros Hne | intros Heq; try discriminate Heq]);
    try (now contradiction Hne);
    unfold call_tool; rewrite (prepare_ready svc _ a Ht); unfold validated;
    try reflexivity;
    cbn -[invalid_arguments];
    match goal with
    | |- context [parse_schema ?s a] => destruct (parse_schema s a)
    end; cbn -[invalid_arguments]; eauto.
Qed.

(** X27.  The filters of a search request: one for each of the four filter
    arguments that is truthy, in the order page, query, country, device; the
    page and the query filter carry the [filterOperator] of the arguments,
    the country and the device filter always [equals]; and the request has
    filter groups, a single one, exactly when there is a filter. *)
Theorem search_filters_spec (args : list (string * json)) :
  let filters := search_filters args in
  map dimension filters
  = List.filter (fun dim => opt_truthy (arg (dim ++ "Filter") args))
      ["page"; "query"; "country"; "device"]
  /\ (forall f, In f filters ->
        expression f = arg (dimension f ++ "Filter") args
        /\ opt_truthy (expression f) = true
        /\ operator f
           = if (dimension f =? "page") || (dimension f =? "query")
             then arg "filterOperator" args
             else Some (JStr "equals"))
  /\ dimensionFilterGroups (search_request args)
     = match filters with
       | [] => None
       | _ => Some [filters]
       end.
Proof.
  cbv zeta. unfold search_request, search_filters.
  change ("page" ++ "Filter") with "pageFilter".
  cbn [List.filter].
  change ("page" ++ "Filter") with "pageFilter".
  change ("query" ++ "Filter") with "queryFilter".
  change ("country" ++ "Filter") with "countryFilter".
  change ("device" ++ "Filter") with "deviceFilter".
  destruct (opt_truthy (arg "pageFilter" args)) eqn:E1;
    destruct (opt_truthy (arg "queryFilter" args)) eqn:E2;
    destruct (opt_truthy (arg "countryFilter" args)) eqn:E3;
    destruct (opt_truthy (arg "deviceFilter" args)) eqn:E4;
    cbn [app map dimension List.length Nat.ltb Nat.leb];
    (split; [reflexivity|]); (split; [|reflexivity]);
    intros f Hf; cbn [In] in Hf;
    repeat match type of Hf with
           | _ \/ _ => destruct Hf as [<-|Hf]
           | False => destruct Hf
           end;
    cbn [dimension operator expression];
    (split; [reflexivity|]); (split; [assumption | reflexivity]).
Qed.

End ToolFacts.

Section ToolExamples.
Import Json Tools.

Lemma listed_schema_validates_witness :
  call_tool (fun _ _ => Err [mkIssue ["siteUrl"] "Required"])
            (Some (fun _ => Ok JNull)) "get_sitemap" (Some (JObj []))
  = Err (JsError "Invalid arguments: siteUrl: Required").
Proof.
  destruct (listed_schema_validates
              (fun _ _ => Err [mkIssue ["siteUrl"] "Required"])
              (fun _ => Ok JNull)
              (mkTool "get_sitemap"
                 "Get a sitemap for a site in Google Search Console"
                 GetSitemapSchema)
              (JObj [])) as [H _].
  - cbn. tauto.
  - reflexivity.
  - apply H. discriminate.
Defined.

End ToolExamples.
